(** * ddft / dqc: a shallow embedding of the differentiable DFT code

    The development follows the Python sources module by module:

    - [Py]          : the Python exception model shared by every module;
    - [Optimize]    : [ddft/modules/optimize.py], the backward rules of the
                      optimisation engine;
    - [BaseEks]     : [ddft/eks/base_eks.py], energy functionals and their
                      sum;
    - [CgtoBasis]   : [ddft/basissets/cgto_basis.py], the memoised basis
                      loader;
    - [Rks]         : [dqc/qccalc/rks.py], the restricted Kohn-Sham driver;
    - [Eigpairs]    : [ddft/maths/eigpairs.py], the exact, Lanczos and
                      Davidson eigensolvers;
    - [Grids]       : [ddft/grids/radialshiftexp.py], the logarithmic radial
                      grid and its Poisson solve;
    - [RadialGrid]  : [ddft/grids/radialgrid.py], the Legendre radial grid
                      and its cubic spline;
    - [HatomRadial] : [ddft/hamiltons/hatomradial.py], the matrices of the
                      radial Hamiltonian;
    - [EksObjects]  : [ddft/eks/base_eks.py] again, the functionals as
                      objects with state, kept in a store.

    Floating point numbers are idealised as rationals ([Q]); tensors are
    lists.  What belongs to torch or xitorch and cannot be computed over the
    rationals (QR, symmetric eigendecomposition, square roots, random numbers)
    is a field of an interface record and is constrained by the laws the
    library documents. *)

From Stdlib Require Import Ascii String.
From Stdlib Require Import QArith Qabs List Sorting.Sorted Lia Lqa Bool.
From stdpp Require Import gmap strings list.

Open Scope Q_scope.

(** ** Python exceptions and results *)

Module Py.

Inductive exn : Type :=
| TypeError
| ValueError
| RuntimeError
| IndexError
| KeyError
| AttributeError
| AssertionError
| UnboundLocalError.

Inductive result (A : Type) : Type :=
| Ok (a : A)
| Raise (e : exn).

Arguments Ok {A} a.
Arguments Raise {A} e.

Definition rbind {A B : Type} (m : result A) (k : A -> result B) : result B :=
  match m with
  | Ok a => k a
  | Raise e => Raise e
  end.

Definition is_ok {A : Type} (m : result A) : bool :=
  match m with Ok _ => true | Raise _ => false end.

(** Strict less-than on rationals, as a boolean. *)
Definition Qltb (x y : Q) : bool := negb (Qle_bool y x).

End Py.

Import Py.

Notation "'let!' x ':=' m 'in' k" := (rbind m (fun x => k))
  (at level 10, x name, m at level 100, k at level 200).
Notation "'let!' ' p ':=' m 'in' k" := (rbind m (fun x => match x with p => k end))
  (at level 10, p pattern, m at level 100, k at level 200).

(** ** ddft/modules/optimize.py *)

Module Optimize.

(** A gradient tensor, flattened. *)
Definition tensor := list Q.










End Optimize.

(** ** ddft/eks/base_eks.py *)

Module BaseEks.

(** Values on the integration grid, one entry per grid point. *)
Definition tensor := list Q.

(** [a + b] on one-dimensional tensors, with torch's broadcasting: equal
    sizes add entry by entry, a size-one operand is stretched, any other pair
    of sizes is a [RuntimeError]. *)
Fixpoint zip_add (a b : tensor) : tensor :=
  match a, b with
  | x :: a', y :: b' => (x + y) :: zip_add a' b'
  | _, _ => []
  end.

Definition tensor_add (a b : tensor) : result tensor :=
  if Nat.eqb (length a) (length b) then Ok (zip_add a b)
  else match a, b with
       | _, [y] => Ok (map (fun x => x + y) a)
       | [x], _ => Ok (map (fun y => x + y) b)
       | _, _ => Raise RuntimeError
       end.

(** The density information handed to a functional. *)
Record densinfo : Type := {
  density : tensor;
  gradn : option tensor
}.

(** A [BaseEKS] object is a leaf functional, which brings its own [forward]
    and [potential] (the abstract method and its overridable companion), or
    the [AddEKS] of two functionals. *)
Inductive eks : Type :=
| LeafEKS (fwd : densinfo -> densinfo -> result tensor)
          (pot : densinfo -> densinfo -> result (tensor * tensor))
| AddEKS (a b : eks).

(** What may stand on the right of [+]. *)
Inductive pyobj : Type :=
| PyEKS (e : eks)
| PyNone
| PyInt (z : Z)
| PyFloat (q : Q)
| PyTensor (t : tensor).

(** [_normalize(a)] *)
Definition _normalize (a : pyobj) : result eks :=
  match a with
  | PyEKS e => Ok e
  | _ => Raise TypeError
  end.

(** [BaseEKS.__add__(self, other)] *)
Definition __add__ (self : eks) (other : pyobj) : result eks :=
  let! other := _normalize other in
  Ok (AddEKS self other).

(** [forward(self, densinfo_u, densinfo_d)]; for [AddEKS] the left operand is
    evaluated first. *)
Fixpoint forward (self : eks) (densinfo_u densinfo_d : densinfo)
  : result tensor :=
  match self with
  | LeafEKS fwd _ => fwd densinfo_u densinfo_d
  | AddEKS a b =>
      let! ea := forward a densinfo_u densinfo_d in
      let! eb := forward b densinfo_u densinfo_d in
      tensor_add ea eb
  end.

(** [potential(self, densinfo_u, densinfo_d)] *)
Fixpoint potential (self : eks) (densinfo_u densinfo_d : densinfo)
  : result (tensor * tensor) :=
  match self with
  | LeafEKS _ pot => pot densinfo_u densinfo_d
  | AddEKS a b =>
      let! apot := potential a densinfo_u densinfo_d in
      let! bpot := potential b densinfo_u densinfo_d in
      let! pu := tensor_add (fst apot) (fst bpot) in
      let! pd := tensor_add (snd apot) (snd bpot) in
      Ok (pu, pd)
  end.

End BaseEks.

(** ** ddft/basissets/cgto_basis.py *)

Module CgtoBasis.

(** *** Python string helpers used by the parser *)

Definition is_space (a : ascii) : bool :=
  let n := nat_of_ascii a in
  Nat.eqb n 32 || (Nat.leb 9 n && Nat.leb n 13).

(** Split at every character satisfying [p], keeping empty fields. *)
Fixpoint split_by (p : ascii -> bool) (s : string) : list string :=
  match s with
  | EmptyString => [EmptyString]
  | String a s' =>
      if p a then EmptyString :: split_by p s'
      else match split_by p s' with
           | h :: t => String a h :: t
           | [] => [String a EmptyString]
           end
  end.

(** [s.split("\n")] *)
Definition split_lines (s : string) : list string :=
  split_by (fun a => Nat.eqb (nat_of_ascii a) 10) s.

(** [s.split()]: fields separated by runs of white space. *)
Definition py_split (s : string) : list string :=
  filter (fun w => negb (String.eqb w EmptyString)) (split_by is_space s).

Definition digit_of (a : ascii) : option Z :=
  let n := nat_of_ascii a in
  if Nat.leb 48 n && Nat.leb n 57 then Some (Z.of_nat (n - 48)) else None.

Fixpoint digits_val (acc : Z) (s : string) : option Z :=
  match s with
  | EmptyString => Some acc
  | String a s' =>
      match digit_of a with
      | Some d => digits_val (10 * acc + d) s'
      | None => None
      end
  end.

(** [int(s)] on a field: an optional sign and decimal digits. *)
Definition py_int (s : string) : result Z :=
  let unsigned (t : string) : result Z :=
    match t with
    | EmptyString => Raise ValueError
    | _ => match digits_val 0 t with
           | Some z => Ok z
           | None => Raise ValueError
           end
    end in
  match s with
  | String a t =>
      if Nat.eqb (nat_of_ascii a) 45 then
        let! z := unsigned t in Ok (- z)%Z
      else if Nat.eqb (nat_of_ascii a) 43 then unsigned t
      else unsigned s
  | EmptyString => Raise ValueError
  end.

(** [s[i]] on a string. *)
Definition str_index (s : string) (i : nat) : result string :=
  match String.get i s with
  | Some a => Ok (String a EmptyString)
  | None => Raise IndexError
  end.

(** *** What the loader takes from elsewhere

    [float] is Python's; [to_angmom] and [expand_basis] belong to
    [ddft.basissets.base_basisset]. *)
Record externals : Type := {
  py_float : string -> result Q;
  to_angmom : string -> result Z;
  expand_basis :
    list string -> list (list Q) -> list (list Q) -> bool ->
    result (list (list (list Z)) * list (list Q) * list (list Q))
}.

(** [flatten(x)] *)
Definition flatten {A : Type} (x : list (list A)) : list A := concat x.

(** The tuple [(ijks, alphas, coeffs, nelmts)]; [obj_id] is the identity of
    the tuple object, so that "the same object" can be told from "an equal
    one". *)
Record basis_res : Type := {
  obj_id : nat;
  ijks : list (list Z);
  alphas : list Q;
  coeffs : list Q;
  nelmts : list nat
}.

(** The outside world: the files on disk, how many files have been opened
    so far, and the next free object identity. *)
Record world : Type := {
  files : gmap string string;
  nopen : nat;
  next_id : nat
}.

(** A [CGTOBasis] object.  [fnameformat z] is [self.fnameformat % z]. *)
Record CGTOBasis : Type := {
  fnameformat : Z -> string;
  res_memory : gmap Z basis_res
}.

(** [CGTOBasis.__init__]: [res_memory] starts empty. *)
Definition CGTOBasis_init (fmt : Z -> string) : CGTOBasis :=
  {| fnameformat := fmt; res_memory := ∅ |}.

Section Loader.

Variable ext : externals.

(** [[float(s) for s in line.split()]] *)
Fixpoint floats_of (ws : list string) : result (list Q) :=
  match ws with
  | [] => Ok []
  | w :: ws' =>
      let! x := py_float ext w in
      let! xs := floats_of ws' in
      Ok (x :: xs)
  end.

(** The body of [for i in range(nelmt)], [n] iterations left: returns the
    lines that remain with the shell's [alpha], [coeff] and [angmom]. *)
Fixpoint read_elements (n : nat) (spdf : string) (lines : list string)
    (alpha coeff : list Q) (angmom : list Z)
  : result (list string * list Q * list Q * list Z) :=
  match n with
  | O => Ok (lines, alpha, coeff, angmom)
  | S n' =>
      match lines with
      | [] => Raise IndexError
      | line :: lines' =>
          let! elmts := floats_of (py_split line) in
          match elmts with
          | [e0; e1] =>
              let! l := to_angmom ext spdf in
              read_elements n' spdf lines'
                (alpha ++ [e0]) (coeff ++ [e1]) (angmom ++ [l])
          | [e0; e1; e2] =>
              let! s0 := str_index spdf 0 in
              let! l0 := to_angmom ext s0 in
              let! s1 := str_index spdf 1 in
              let! l1 := to_angmom ext s1 in
              read_elements n' spdf lines'
                (alpha ++ [e0; e0]) (coeff ++ [e1; e2]) (angmom ++ [l0; l1])
          | _ => read_elements n' spdf lines' alpha coeff angmom
          end
      end
  end.

(** The [while len(lines) > 0] loop.  Every iteration pops a line, so
    [fuel] bounds the iterations; [None] is "out of fuel". *)
Fixpoint read_shells (fuel : nat) (lines : list string)
    (spdfs : list string) (alphas coeffs : list (list Q))
  : option (result (list string * list (list Q) * list (list Q))) :=
  match lines with
  | [] => Some (Ok (spdfs, alphas, coeffs))
  | line :: lines1 =>
      if String.prefix "**" line then Some (Ok (spdfs, alphas, coeffs))
      else
        match py_split line with
        | [spdf; nelmt_str; _] =>
            match py_int nelmt_str with
            | Raise e => Some (Raise e)
            | Ok nelmt =>
                match read_elements (Z.to_nat nelmt) spdf lines1 [] [] [] with
                | Raise e => Some (Raise e)
                | Ok (lines2, alpha, coeff, _) =>
                    match fuel with
                    | O => None
                    | S fuel' =>
                        read_shells fuel' lines2 (spdfs ++ [spdf])
                          (alphas ++ [alpha]) (coeffs ++ [coeff])
                    end
                end
            end
        | _ => Some (Raise ValueError)
        end
  end.

(** [loadbasis(self, atomz, cartesian)]: the result, the object (whose
    [res_memory] may have grown) and the world afterwards. *)
Definition loadbasis (self : CGTOBasis) (atomz : Z) (cartesian : bool)
    (w : world) : result basis_res * CGTOBasis * world :=
  match res_memory self !! atomz with
  | Some res => (Ok res, self, w)
  | None =>
      let file := fnameformat self atomz in
      match files w !! file with
      | None => (Raise RuntimeError, self, w)
      | Some content =>
          let w1 := {| files := files w; nopen := S (nopen w);
                       next_id := next_id w |} in
          let lines := skipn 14 (split_lines content) in
          let parsed :=
            match read_shells (length lines) lines [] [] [] with
            | Some r => r
            | None => Raise RuntimeError
            end in
          match
            (let! '(spdfs, alphas0, coeffs0) := parsed in
             expand_basis ext spdfs alphas0 coeffs0 cartesian)
          with
          | Raise e => (Raise e, self, w1)
          | Ok (ijks1, alphas1, coeffs1) =>
              let res := {| obj_id := next_id w1;
                            ijks := flatten ijks1;
                            alphas := flatten alphas1;
                            coeffs := flatten coeffs1;
                            nelmts := map (@length _) ijks1 |} in
              (Ok res,
               {| fnameformat := fnameformat self;
                  res_memory := <[atomz := res]> (res_memory self) |},
               {| files := files w1; nopen := nopen w1;
                  next_id := S (next_id w1) |})
          end
      end
  end.

(** The object after a sequence of further calls, each made at some state
    of the outside world. *)
Fixpoint later_calls (self : CGTOBasis) (calls : list (Z * bool * world))
  : CGTOBasis :=
  match calls with
  | [] => self
  | (z, c, w) :: calls' =>
      later_calls (snd (fst (loadbasis self z c w))) calls'
  end.

End Loader.

End CgtoBasis.

(** ** dqc/qccalc/rks.py *)

Module Rks.

(** A dense matrix, as the list of its rows. *)
Definition matrix := list (list Q).

(** A [xitorch.LinearOperator] is represented by its full matrix
    ([LinearOperator.m] wraps one, [fullmatrix] gives it back). *)
Definition linop := matrix.

Definition qsum (l : list Q) : Q := fold_right Qplus 0 l.

Fixpoint zip_with {A B C : Type} (f : A -> B -> C) (a : list A) (b : list B)
  : list C :=
  match a, b with
  | x :: a', y :: b' => f x y :: zip_with f a' b'
  | _, _ => []
  end.

Definition dot (u v : list Q) : Q := qsum (zip_with Qmult u v).

(** Column [j] of a row-major matrix. *)
Definition column (m : matrix) (j : nat) : list Q := map (fun r => nth j r 0) m.

Definition ncols (m : matrix) : nat := length (hd [] m).

(** [a.mm(b)] *)
Definition mm (a b : matrix) : matrix :=
  map (fun r => map (fun j => dot r (column b j)) (seq 0 (ncols b))) a.

(** [a + b] on operators. *)
Definition linop_add (a b : linop) : linop := zip_with (zip_with Qplus) a b.

(** [torch.einsum("...rc,r,...rc->...", x, w, y)], without batch dimensions. *)
Definition einsum_rc_r_rc (x : matrix) (w : list Q) (y : matrix) : Q :=
  qsum (zip_with (fun xr wy => qsum (zip_with (fun a b => a * fst wy * b) xr (snd wy)))
          x (zip_with pair w y)).

(** [torch.sum(eivals * orb_weight, dim=-1)] *)
Definition weighted_sum (eivals w : list Q) : Q := qsum (zip_with Qmult eivals w).

(** Option dictionaries. *)
Inductive optval : Type :=
| OStr (s : string)
| ONum (q : Q).
Definition options := list (string * optval).

(** What [RKS] obtains from the system, its Hamiltonian and xitorch.  The
    exchange-correlation object is stood for by its name. *)
Record system : Type := {
  get_orbweight : list Q;
  grid_npoints : nat;
  get_kinnucl : linop;
  get_vext : list Q -> linop;
  get_overlap : linop;
  get_elrep : matrix -> linop;
  get_vxc : string -> matrix -> linop;
  get_exc : string -> matrix -> Q;
  ao_orb2dm : matrix -> list Q -> matrix;
  get_nuclei_energy : Q;
  (** [xitorch.linalg.lsymeig(A, neig, M, **options)] *)
  lsymeig : linop -> nat -> linop -> options -> list Q * matrix;
  (** [xitorch.optimize.equilibrium(fcn, y0, bck_options, **fwd_options)];
      what [fcn] raises comes out of the solver. *)
  equilibrium :
    (matrix -> result matrix) -> matrix -> options -> options -> result matrix
}.

(** The attributes of an [RKS] object; [_dm] and [eigen_options] do not
    exist until [run] has set them. *)
Record RKS : Type := {
  xc : string;
  sys : system;
  orb_weight : list Q;
  norb : nat;
  knvext_linop : linop;
  overlap_linop : linop;
  has_run : bool;
  _dm : option matrix;
  eigen_options : option options
}.

(** [RKS.__init__(self, system, xc, vext)] (the [dtype] and [device]
    attributes carry no value here). *)
Definition RKS_init (system0 : system) (xc0 : string) (vext : option (list Q))
  : result RKS :=
  let orb_weight0 := get_orbweight system0 in
  let kn := get_kinnucl system0 in
  let! knvext :=
    match vext with
    | None => Ok kn
    | Some v =>
        if Nat.eqb (length v) (grid_npoints system0)
        then Ok (linop_add kn (get_vext system0 v))
        else Raise AssertionError
    end in
  Ok {| xc := xc0; sys := system0;
        orb_weight := orb_weight0; norb := length orb_weight0;
        knvext_linop := knvext; overlap_linop := get_overlap system0;
        has_run := true;
        _dm := None; eigen_options := None |}.

(** [__get_ks_linop] *)
Definition __get_ks_linop (self : RKS) (dm : matrix) : linop :=
  let elrep := get_elrep (sys self) dm in
  let vxc := get_vxc (sys self) (xc self) dm in
  linop_add elrep vxc.

(** [__dm2fock] *)
Definition __dm2fock (self : RKS) (dm : matrix) : linop :=
  let ks_linop := __get_ks_linop self dm in
  linop_add (knvext_linop self) ks_linop.

(** [__diagonalize_fock]: reads [self.eigen_options]. *)
Definition __diagonalize_fock (self : RKS) (fock : linop)
  : result (list Q * matrix) :=
  match eigen_options self with
  | None => Raise AttributeError
  | Some opts => Ok (lsymeig (sys self) fock (norb self) (overlap_linop self) opts)
  end.

(** [__fock2dm] *)
Definition __fock2dm (self : RKS) (fock : linop) : result matrix :=
  let! '(eigvals, eigvecs) := __diagonalize_fock self fock in
  Ok (ao_orb2dm (sys self) eigvecs (orb_weight self)).

(** [__dm2scp], [__scp2dm], [__scp2scp] *)
Definition __dm2scp (self : RKS) (dm : matrix) : matrix := __dm2fock self dm.

Definition __scp2dm (self : RKS) (scp : matrix) : result matrix :=
  let fock : linop := scp in
  __fock2dm self fock.

Definition __scp2scp (self : RKS) (scp : matrix) : result matrix :=
  let! dm := __scp2dm self scp in
  Ok (__dm2scp self dm).

Definition default_fwd_options : options :=
  [("method"%string, OStr "broyden1"); ("alpha"%string, ONum (- (1 # 2)));
   ("maxiter"%string, ONum 50)].

Definition zeros_like (m : matrix) : matrix := map (map (fun _ => 0)) m.

(** [RKS.run(self, dm0, eigen_options, fwd_options, bck_options)] *)
Definition run (self : RKS) (dm0 : option matrix)
    (eigen_options0 fwd_options bck_options : option options) : result RKS :=
  let eigen_options1 := match eigen_options0 with Some o => o | None => [] end in
  let fwd_options1 :=
    match fwd_options with Some o => o | None => default_fwd_options end in
  let bck_options1 := match bck_options with Some o => o | None => [] end in
  let self1 := {| xc := xc self; sys := sys self;
                  orb_weight := orb_weight self; norb := norb self;
                  knvext_linop := knvext_linop self;
                  overlap_linop := overlap_linop self;
                  has_run := has_run self; _dm := _dm self;
                  eigen_options := Some eigen_options1 |} in
  let dm1 := match dm0 with
             | Some d => d
             | None => zeros_like (knvext_linop self1)
             end in
  let scp0 := __dm2scp self1 dm1 in
  let! scp :=
    equilibrium (sys self1) (__scp2scp self1) scp0 bck_options1 fwd_options1 in
  let! dm := __scp2dm self1 scp in
  Ok {| xc := xc self1; sys := sys self1;
        orb_weight := orb_weight self1; norb := norb self1;
        knvext_linop := knvext_linop self1;
        overlap_linop := overlap_linop self1;
        has_run := true; _dm := Some dm;
        eigen_options := eigen_options self1 |}.

(** Python values met while the total energy is assembled: a tensor (a
    number, batch dimensions left out) or a linear operator. *)
Inductive pyval : Type :=
| VTensor (q : Q)
| VLinOp (a : linop).

(** [a - b] and [a + b]: tensors combine with tensors and operators with
    operators; neither [torch.Tensor] nor [LinearOperator] accepts the other
    as an operand, so a mixed pair ends in [TypeError]. *)
Definition py_sub (a b : pyval) : result pyval :=
  match a, b with
  | VTensor x, VTensor y => Ok (VTensor (x - y))
  | VLinOp x, VLinOp y => Ok (VLinOp (zip_with (zip_with Qminus) x y))
  | _, _ => Raise TypeError
  end.

Definition py_add (a b : pyval) : result pyval :=
  match a, b with
  | VTensor x, VTensor y => Ok (VTensor (x + y))
  | VLinOp x, VLinOp y => Ok (VLinOp (linop_add x y))
  | _, _ => Raise TypeError
  end.

(** [RKS.energy(self)] *)
Definition energy (self : RKS) : result pyval :=
  let! dm := match _dm self with
             | Some d => Ok d
             | None => Raise AttributeError
             end in
  let fock := __dm2fock self dm in
  let! '(eivals, eivecs) := __diagonalize_fock self fock in
  let eivals_tot := weighted_sum eivals (orb_weight self) in
  let exc := get_exc (sys self) (xc self) dm in
  let vxc := get_vxc (sys self) (xc self) dm in
  let e_vxc := einsum_rc_r_rc (mm vxc eivecs) (orb_weight self) eivecs in
  let elrep := get_elrep (sys self) dm in
  let e_elrep :=
    (1 # 2) * einsum_rc_r_rc (mm elrep eivecs) (orb_weight self) eivecs in
  let! xc_term := py_sub (VTensor exc) (VLinOp vxc) in
  let! t1 := py_add (VTensor eivals_tot) xc_term in
  let! t2 := py_sub t1 (VTensor e_elrep) in
  py_add t2 (VTensor (get_nuclei_energy (sys self))).

(** [RKS.aodm(self)] *)
Definition aodm (self : RKS) : result matrix :=
  match _dm self with
  | Some d => Ok d
  | None => Raise AttributeError
  end.

(** The total energy as the specification words it: the orbital-energy
    weighted trace, plus the exchange-correlation energy minus the trace of
    the exchange-correlation potential, minus half the electron-repulsion
    trace, plus the nuclear repulsion.  Used only for comparison with
    [energy]. *)
Definition energy_as_specified (self : RKS) (dm : matrix) (opts : options) : Q :=
  let fock := __dm2fock self dm in
  let '(eivals, eivecs) :=
    lsymeig (sys self) fock (norb self) (overlap_linop self) opts in
  let eivals_tot := weighted_sum eivals (orb_weight self) in
  let exc := get_exc (sys self) (xc self) dm in
  let e_vxc :=
    einsum_rc_r_rc (mm (get_vxc (sys self) (xc self) dm) eivecs)
      (orb_weight self) eivecs in
  let e_elrep :=
    (1 # 2) * einsum_rc_r_rc (mm (get_elrep (sys self) dm) eivecs)
                (orb_weight self) eivecs in
  eivals_tot + (exc - e_vxc) - e_elrep + get_nuclei_energy (sys self).

End Rks.

(** ** ddft/maths/eigpairs.py *)

Module Eigpairs.

(** *** Tensors

    A matrix of shape [(na, k)] is the list of its [k] columns, each a list
    of [na] numbers, so that the last dimension (the one [torch.cat],
    [torch.qr] and the slices of the solvers act on) is the outer list.  A
    leading batch dimension is one more list. *)
Definition vec := list Q.
Definition mat := list vec.
Definition bvec := list vec.
Definition bmat := list mat.

Definition nrows (m : mat) : nat := length (hd [] m).

Definition qsum (l : vec) : Q := fold_right Qplus 0 l.

Fixpoint zip_with {A B C : Type} (f : A -> B -> C) (a : list A) (b : list B)
  : list C :=
  match a, b with
  | x :: a', y :: b' => f x y :: zip_with f a' b'
  | _, _ => []
  end.

Definition dot (u v : vec) : Q := qsum (zip_with Qmult u v).

(** Row [i] of a matrix given by columns. *)
Definition row (m : mat) (i : nat) : vec := map (fun c => nth i c 0) m.

(** [m.transpose(-2,-1)] *)
Definition transpose (m : mat) : mat := map (row m) (seq 0 (nrows m)).

(** Matrix product: column [j] of [x y] combines the columns of [x] with the
    entries of column [j] of [y]. *)
Definition matmul (x y : mat) : mat :=
  map (fun ycol => map (fun i => dot (row x i) ycol) (seq 0 (nrows x))) y.

(** [torch.bmm] *)
Definition bmm (x y : bmat) : bmat := zip_with matmul x y.

(** [torch.eye(na, k)]: column [j] has a one in row [j]. *)
Definition eye_col (na j : nat) : vec :=
  map (fun i => if Nat.eqb i j then 1 else 0) (seq 0 na).
Definition eye (na k : nat) : mat := map (eye_col na) (seq 0 k).

(** Columns of equal length. *)
Definition uniformb (m : mat) : bool :=
  forallb (fun c => Nat.eqb (length c) (nrows m)) m.

(** *** Broadcasting, as torch does it on the dimension at hand: equal sizes
    pair up, a size-one operand is stretched, anything else is a
    [RuntimeError]. *)
Fixpoint zip_withM {A B C : Type} (f : A -> B -> result C)
    (a : list A) (b : list B) : result (list C) :=
  match a, b with
  | x :: a', y :: b' =>
      let! z := f x y in
      let! zs := zip_withM f a' b' in
      Ok (z :: zs)
  | _, _ => Ok []
  end.

Fixpoint mapM {A B : Type} (f : A -> result B) (a : list A) : result (list B) :=
  match a with
  | [] => Ok []
  | x :: a' =>
      let! z := f x in
      let! zs := mapM f a' in
      Ok (z :: zs)
  end.

Definition bcast {A B C : Type} (f : A -> B -> result C)
    (a : list A) (b : list B) : result (list C) :=
  if Nat.eqb (length a) (length b) then zip_withM f a b
  else match a, b with
       | _, [y] => mapM (fun x => f x y) a
       | [x], _ => mapM (fun y => f x y) b
       | _, _ => Raise RuntimeError
       end.

(** Entry-wise operations on [(nbatch, n)] tensors. *)
Definition bvec_op (f : Q -> Q -> Q) (a b : bvec) : result bvec :=
  bcast (bcast (fun x y => Ok (f x y))) a b.

(** [t.abs().max()] over all entries; an empty tensor has no maximum. *)
Definition Qmax (x y : Q) : Q := if Qle_bool x y then y else x.
Definition abs_max (t : bvec) : result Q :=
  match concat t with
  | [] => Raise RuntimeError
  | x :: xs => Ok (fold_left Qmax (map Qabs xs) (Qabs x))
  end.

(** [t[:, :k]] on [(nbatch, n)] and [t[:, :, :k]] on [(nbatch, na, n)]. *)
Definition take_cols {A : Type} (k : nat) (t : list (list A)) : list (list A) :=
  map (firstn k) t.

(** [t[:, i:i+1]] *)
Definition slice1 (i : nat) (t : bvec) : bvec :=
  map (fun r => firstn 1 (skipn i r)) t.

(** [t[:, :, i]]: column [i] of every batch element. *)
Definition column (i : nat) (t : bmat) : result bvec :=
  mapM (fun m => match nth_error m i with
                 | Some c => Ok c
                 | None => Raise IndexError
                 end) t.

(** [t[:, :, -na:]] *)
Definition last_cols (na : nat) (t : bmat) : bmat :=
  match na with
  | O => t
  | _ => map (fun m => skipn (length m - na) m) t
  end.

(** [v.unsqueeze(-1)] and [y.squeeze(-1)] *)
Definition unsqueeze (v : bvec) : bmat := map (fun c => [c]) v.
Definition squeeze (t : bmat) : bvec := map (fun m => hd [] m) t.

(** [torch.cat((x, y), dim=-1)]: the other dimensions must agree. *)
Definition cat2 (x y : bmat) : result bmat :=
  if Nat.eqb (length x) (length y) then
    zip_withM (fun xm ym => if uniformb (xm ++ ym) then Ok (xm ++ ym)
                            else Raise RuntimeError) x y
  else Raise RuntimeError.

(** [torch.cat(ts, dim=-1)] on a list of tensors; the list must not be
    empty. *)
Fixpoint cat_list (ts : list bmat) : result bmat :=
  match ts with
  | [] => Raise RuntimeError
  | [t] => Ok t
  | t :: ts' => let! rest := cat_list ts' in cat2 t rest
  end.

(** *** What torch computes

    The generator state, the random tensors, the reduced QR factor [Q], the
    symmetric eigendecomposition (eigenvalues and the matrix of
    eigenvectors) and the square root; [qr] and [symeig] act on one batch
    element. *)
Record torch : Type := {
  manual_seed : Z -> N;
  randn : N -> nat -> nat -> nat -> bmat * N;
  rand : N -> nat -> nat -> nat -> bmat * N;
  qr : mat -> mat;
  symeig : mat -> vec * mat;
  sqrt : Q -> Q
}.

(** *** The linear operator

    [A] is known by its declared shape, its action on a batch of column
    blocks and its diagonal; the parameters are passed on as they are. *)
Record param : Type := {
  pshape : list nat;
  pdata : list Q
}.

Record LinearModule : Type := {
  shape : nat * nat;
  forward : bmat -> list param -> bmat;
  diag : list param -> bvec
}.

(** *** The world the solvers run in: torch's generator state and the
    number of applications of the operator so far. *)
Record world : Type := {
  rng : N;
  napply : nat
}.

Definition M (A : Type) : Type := world -> result A * world.

Definition ret {A : Type} (a : A) : M A := fun w => (Ok a, w).
Definition raise {A : Type} (e : exn) : M A := fun w => (Raise e, w).
Definition lift {A : Type} (r : result A) : M A := fun w => (r, w).
Definition bind {A B : Type} (m : M A) (k : A -> M B) : M B :=
  fun w => match m w with
           | (Ok a, w') => k a w'
           | (Raise e, w') => (Raise e, w')
           end.

Notation "'do!' x ':=' m 'in' k" := (bind m (fun x => k))
  (at level 10, x name, m at level 100, k at level 200).

Definition tick : M unit :=
  fun w => (Ok tt, {| rng := rng w; napply := S (napply w) |}).

Fixpoint forM {A B : Type} (f : A -> M B) (l : list A) : M (list B) :=
  match l with
  | [] => ret []
  | x :: l' =>
      do! y := f x in
      do! ys := forM f l' in
      ret (y :: ys)
  end.

(** A [for] loop whose body may [break]. *)
Inductive ctl (S : Type) : Type :=
| Continue (s : S)
| Break (s : S).
Arguments Continue {S} s.
Arguments Break {S} s.

Fixpoint for_loop {S : Type} (body : nat -> S -> M (ctl S)) (ms : list nat)
    (st : S) : M S :=
  match ms with
  | [] => ret st
  | m :: ms' =>
      do! c := body m st in
      match c with
      | Continue s => for_loop body ms' s
      | Break s => ret s
      end
  end.

(** The loop states met at the start of the iterations that are executed. *)
Fixpoint for_trace {S : Type} (body : nat -> S -> M (ctl S)) (ms : list nat)
    (st : S) (w : world) : list S :=
  match ms with
  | [] => []
  | m :: ms' =>
      st :: match body m st w with
            | (Ok (Continue s), w') => for_trace body ms' s w'
            | _ => []
            end
  end.

(** [range(start, stop, step)] for a step that is not negative. *)
Definition range3 (start stop step : nat) : result (list nat) :=
  if Nat.eqb step 0 then Raise ValueError
  else Ok (map (fun i => (start + i * step)%nat)
             (seq 0 ((stop - start + step - 1) / step))).

(** *** Options

    The option dictionary, one field per recognised key; [None] is a key
    that is absent, [get_or] is what [set_default_option] makes of it. *)
Record options : Type := {
  method : option string;
  max_niter : option nat;
  nguess : option nat;
  min_eps : option Q;
  eps_cond : option Q;
  v_init : option string;
  max_addition : option nat
}.

Definition get_or {A : Type} (o : option A) (d : A) : A :=
  match o with Some x => x | None => d end.

Definition no_options : options :=
  {| method := None; max_niter := None; nguess := None; min_eps := None;
     eps_cond := None; v_init := None; max_addition := None |}.

(** [s.lower()] on ASCII letters. *)
Definition lower_ascii (a : ascii) : ascii :=
  let n := nat_of_ascii a in
  if Nat.leb 65 n && Nat.leb n 90 then ascii_of_nat (n + 32) else a.
Fixpoint lower (s : string) : string :=
  match s with
  | EmptyString => EmptyString
  | String a s' => String (lower_ascii a) (lower s')
  end.

Definition default_eps : Q := 1 # 1000000.

(** *** Helpers of the module *)

(** [_check_and_get_shape(A)] *)
Definition _check_and_get_shape (A : LinearModule) : result nat :=
  let '(na, nc) := shape A in
  if negb (Nat.eqb na nc) then Raise TypeError else Ok na.

(** [params[0].shape[0]] *)
Definition get_nbatch (params : list param) : result nat :=
  match params with
  | [] => Raise IndexError
  | p :: _ => match pshape p with
              | [] => Raise IndexError
              | n :: _ => Ok n
              end
  end.

Section Solvers.

Variable t : torch.

(** [_set_initial_v(vinit_type, nbatch, na, nguess)] *)
Definition _set_initial_v (vinit_type : string) (nbatch na nguess : nat)
  : M bmat :=
  fun w =>
    let w1 := {| rng := manual_seed t 12421; napply := napply w |} in
    if String.eqb vinit_type "eye" then
      (Ok (repeat (eye na nguess) nbatch), w1)
    else if String.eqb vinit_type "randn" then
      let '(V, g) := randn t (rng w1) nbatch na nguess in
      (Ok (map (qr t) V), {| rng := g; napply := napply w1 |})
    else if String.eqb vinit_type "random" || String.eqb vinit_type "rand" then
      let '(V, g) := rand t (rng w1) nbatch na nguess in
      (Ok (map (qr t) V), {| rng := g; napply := napply w1 |})
    else (Raise ValueError, w1).

(** [A(x, *params)] on a [(nbatch, na, k)] tensor, and on a [(nbatch, na)]
    tensor, which the operator unsqueezes and squeezes back (as the operator
    of the module's self-test does). *)
Definition apply3 (A : LinearModule) (x : bmat) (params : list param) : M bmat :=
  do! _ := tick in ret (forward A x params).

Definition apply2 (A : LinearModule) (v : bvec) (params : list param) : M bvec :=
  do! y := apply3 A (unsqueeze v) params in ret (squeeze y).

(** [torch.symeig(T, eigenvectors=True)] on a batch. *)
Definition symeig_vals (T : bmat) : bvec := map (fun Tb => fst (symeig t Tb)) T.
Definition symeig_vecs (T : bmat) : bmat := map (fun Tb => snd (symeig t Tb)) T.

(** [V.shape[-1]] and [eigvalT.shape[1]] *)
Definition ncols {A : Type} (x : list (list A)) : nat := length (hd [] x).

(** The loop state of the iterative solvers; [eigvalT] and [eigvecA] are
    unbound until an iteration assigns them. *)
Record lstate : Type := {
  V : bmat;
  prev_eigvals : option bvec;
  eigvalT : option bvec;
  eigvecA : option bmat
}.

(** [dev = (eigvalT[:,:neig].data - prev_eigvals).abs().max()] and
    [dev < min_eps], when [prev_eigvals] is not [None]. *)
Definition converged (neig : nat) (min_eps0 : Q) (evalT : bvec)
    (prev : option bvec) : result bool :=
  match prev with
  | None => Ok false
  | Some p =>
      let! d := bvec_op Qminus (take_cols neig evalT) p in
      let! dev := abs_max d in
      Ok (Qltb dev min_eps0)
  end.

(** [finv = dA - eigvalT[:,i:i+1]] *)
Definition finv_raw (dA evalT : bvec) (i : nat) : result bvec :=
  bvec_op Qminus dA (slice1 i evalT).

(** [finv[finv.abs() < eps_cond] = eps_cond] *)
Definition clamp_entry (eps_cond0 x : Q) : Q :=
  if Qltb (Qabs x) eps_cond0 then eps_cond0 else x.
Definition clamp (eps_cond0 : Q) (finv : bvec) : bvec :=
  map (map (clamp_entry eps_cond0)) finv.

(** [f = 1. / finv] *)
Definition reciprocal (finv : bvec) : bvec := map (map Qinv) finv.

(** One pass of [for i in range(nadd)]: the correction vector of Ritz pair
    [i], unsqueezed. *)
Definition ritz_vector (A : LinearModule) (params : list param)
    (eps_cond0 : Q) (dA evalT : bvec) (evecA : bmat) (i : nat) : M bmat :=
  do! finv0 := lift (finv_raw dA evalT i) in
  let finv := clamp eps_cond0 finv0 in
  let f := reciprocal finv in
  do! phi := lift (column i evecA) in
  do! AVphi := apply2 A phi params in
  do! lmbdaVphi := lift (bvec_op Qmult (slice1 i evalT) phi) in
  do! d := lift (bvec_op Qminus AVphi lmbdaVphi) in
  do! r := lift (bvec_op Qmult f d) in
  ret (unsqueeze r).

(** [ritz / ritz.norm(dim=1, keepdim=True)] *)
Definition normalize_cols (ritz : bmat) : bmat :=
  map (map (fun c => let n := sqrt t (dot c c) in map (fun x => x / n) c)) ritz.

(** The body of the [for m in range(nguess, max_niter, nguess)] loop of
    [davidson]. *)
Definition davidson_body (A : LinearModule) (neig : nat) (params : list param)
    (min_eps0 eps_cond0 : Q) (max_addition0 na : nat) (dA : bvec)
    (m : nat) (st : lstate) : M (ctl lstate) :=
  let V0 := V st in
  let VT := map transpose V0 in
  do! AV := apply3 A V0 params in
  let T := bmm VT AV in
  let evalT := symeig_vals T in
  let evecT := symeig_vecs T in
  let evecA := bmm V0 evecT in
  let st1 := {| V := V0; prev_eigvals := prev_eigvals st;
                eigvalT := Some evalT; eigvecA := Some evecA |} in
  do! conv := lift (converged neig min_eps0 evalT (prev_eigvals st)) in
  if conv then ret (Break st1)
  else if Nat.eqb (ncols V0) na then ret (Break st1)
  else
    let prev := take_cols neig evalT in
    let nj := ncols evalT in
    let nadd := Nat.min nj max_addition0 in
    do! ritz_list :=
      forM (ritz_vector A params eps_cond0 dA evalT evecA) (seq 0 nadd) in
    do! ritz0 := lift (cat_list ritz_list) in
    let ritz := normalize_cols ritz0 in
    do! Va := lift (cat2 V0 ritz) in
    let V1 := if Nat.ltb na (ncols V0) then last_cols na V0 else V0 in
    let Qfac := map (qr t) Va in
    let V2 := Qfac in
    ret (Continue {| V := V2; prev_eigvals := Some prev;
                     eigvalT := Some evalT; eigvecA := Some evecA |}).

(** What [davidson] does before its loop: the operator dimension, the
    diagonal, the values of [m] and the first loop state. *)
Definition davidson_setup (A : LinearModule) (neig : nat) (params : list param)
    (opts : options) : M (nat * bvec * list nat * lstate) :=
  let nguess0 := get_or (nguess opts) (neig + 1)%nat in
  let max_niter0 := get_or (max_niter opts) 120%nat in
  do! na := lift (_check_and_get_shape A) in
  do! nbatch := lift (get_nbatch params) in
  do! V0 := _set_initial_v (lower (get_or (v_init opts) "randn")) nbatch na nguess0 in
  let dA := diag A params in
  do! ms := lift (range3 nguess0 max_niter0 nguess0) in
  ret (na, dA, ms,
       {| V := V0; prev_eigvals := None; eigvalT := None; eigvecA := None |}).

(** The values returned after a loop: [eigvalT[:,:neig]] and
    [eigvecA[:,:,:neig]], which are unbound when no iteration assigned
    them. *)
Definition loop_result (neig : nat) (st : lstate) : M (bvec * bmat) :=
  match eigvalT st, eigvecA st with
  | Some evalT, Some evecA => ret (take_cols neig evalT, take_cols neig evecA)
  | _, _ => raise UnboundLocalError
  end.

(** [davidson(A, neig, params, **options)].  The [dtype] and [device] that
    [_get_dtype_device] reads, and the [.to(dtype).to(device)] conversions,
    leave the numbers as they are; printing under [verbose] is left out. *)
Definition davidson (A : LinearModule) (neig : nat) (params : list param)
    (opts : options) : M (bvec * bmat) :=
  let min_eps0 := get_or (min_eps opts) default_eps in
  let eps_cond0 := get_or (eps_cond opts) default_eps in
  let max_addition0 := get_or (max_addition opts) neig in
  do! s := davidson_setup A neig params opts in
  let '(na, dA, ms, st0) := s in
  do! st := for_loop
              (davidson_body A neig params min_eps0 eps_cond0 max_addition0 na dA)
              ms st0 in
  loop_result neig st.

(** The loop states at the start of the iterations [davidson] executes from
    the world [w]. *)
Definition davidson_iterates (A : LinearModule) (neig : nat)
    (params : list param) (opts : options) (w : world) : list lstate :=
  let min_eps0 := get_or (min_eps opts) default_eps in
  let eps_cond0 := get_or (eps_cond opts) default_eps in
  let max_addition0 := get_or (max_addition opts) neig in
  match davidson_setup A neig params opts w with
  | (Ok (na, dA, ms, st0), w') =>
      for_trace
        (davidson_body A neig params min_eps0 eps_cond0 max_addition0 na dA)
        ms st0 w'
  | _ => []
  end.

(** The body of the [for i in range(max_niter)] loop of [lanczos]. *)
Definition lanczos_body (A : LinearModule) (neig : nat) (params : list param)
    (min_eps0 : Q) (i : nat) (st : lstate) : M (ctl lstate) :=
  do! v := lift (column i (V st)) in
  do! Av := apply2 A v params in
  do! V1 := lift (cat2 (V st) (unsqueeze Av)) in
  let Qfac := map (qr t) V1 in
  let V2 := Qfac in
  do! AV := apply3 A V2 params in
  let T := bmm (map transpose V2) AV in
  if Nat.ltb (i + 1) neig then
    ret (Continue {| V := V2; prev_eigvals := prev_eigvals st;
                     eigvalT := eigvalT st; eigvecA := eigvecA st |})
  else
    let evalT := symeig_vals T in
    let evecT := symeig_vecs T in
    let evecA := bmm V2 evecT in
    do! conv := lift (converged neig min_eps0 evalT (prev_eigvals st)) in
    if conv then
      ret (Break {| V := V2; prev_eigvals := prev_eigvals st;
                    eigvalT := Some evalT; eigvecA := Some evecA |})
    else
      ret (Continue {| V := V2; prev_eigvals := Some (take_cols neig evalT);
                       eigvalT := Some evalT; eigvecA := Some evecA |}).

(** [lanczos(A, neig, params, **options)] *)
Definition lanczos (A : LinearModule) (neig : nat) (params : list param)
    (opts : options) : M (bvec * bmat) :=
  let max_niter0 := get_or (max_niter opts) 120%nat in
  let min_eps0 := get_or (min_eps opts) default_eps in
  do! na := lift (_check_and_get_shape A) in
  do! nbatch := lift (get_nbatch params) in
  do! V0 := _set_initial_v (lower (get_or (v_init opts) "randn")) nbatch na 1 in
  do! st := for_loop (lanczos_body A neig params min_eps0) (seq 0 max_niter0)
              {| V := V0; prev_eigvals := None;
                 eigvalT := None; eigvecA := None |} in
  loop_result neig st.

(** [exacteig(A, neig, params, **options)] *)
Definition exacteig (A : LinearModule) (neig : nat) (params : list param)
    (opts : options) : M (bvec * bmat) :=
  do! na := lift (_check_and_get_shape A) in
  do! nbatch := lift (get_nbatch params) in
  let V0 := repeat (eye na na) nbatch in
  do! Amatrix := apply3 A V0 params in
  let evals := symeig_vals Amatrix in
  let evecs := symeig_vecs Amatrix in
  ret (take_cols neig evals, take_cols neig evecs).

(** The three variants. *)
Inductive variant : Type :=
| Davidson
| Lanczos
| Exacteig.

Definition solve (v : variant)
  : LinearModule -> nat -> list param -> options -> M (bvec * bmat) :=
  match v with
  | Davidson => davidson
  | Lanczos => lanczos
  | Exacteig => exacteig
  end.

(** [eigendecomp.forward(ctx, A, neig, options, *params)]; the results are
    returned as clones. *)
Definition eigendecomp_forward (A : LinearModule) (neig : nat)
    (opts : options) (params : list param) : M (bvec * bmat) :=
  let method0 := lower (get_or (method opts) "davidson") in
  if String.eqb method0 "davidson" then solve Davidson A neig params opts
  else if String.eqb method0 "lanczos" then solve Lanczos A neig params opts
  else if String.eqb method0 "exacteig" then solve Exacteig A neig params opts
  else raise RuntimeError.

End Solvers.

(** *** Properties of tensors the statements use *)

(** The columns of a matrix are orthonormal. *)
Definition orthonormal (m : mat) : Prop :=
  forall i j ci cj,
    nth_error m i = Some ci -> nth_error m j = Some cj ->
    dot ci cj == (if Nat.eqb i j then 1 else 0).

(** A tensor has shape [(nbatch, na, k)]. *)
Definition has_shape (x : bmat) (nbatch na k : nat) : Prop :=
  length x = nbatch /\
  Forall (fun m => length m = k /\ Forall (fun c => length c = na) m) x.

(** *** Predicates the statements use *)

(** A result, or a computation from any world, that is not the [TypeError]
    of the shape check. *)
Definition not_type_error {A : Type} (r : result A) : Prop :=
  r <> Raise TypeError.

Definition never_type_error {A : Type} (m : M A) : Prop :=
  forall w, not_type_error (fst (m w)).

(** The matrix a variant diagonalises last, from its trial basis [V]: [A(V)]
    itself for [exacteig], whose [V] is the identity, and [V^T A(V)] for
    [lanczos] and [davidson]. *)
Definition projected (v : variant) (A : LinearModule) (params : list param)
    (V : bmat) : bmat :=
  match v with
  | Exacteig => forward A V params
  | _ => bmm (map transpose V) (forward A V params)
  end.




(** [AVphi - lmbdaVphi] for the Ritz pair [i]: the residual that the
    correction divides by the denominators. *)
Definition ritz_residual (A : LinearModule) (params : list param)
    (evalT : bvec) (evecA : bmat) (i : nat) : result bvec :=
  let! phi := column i evecA in
  let AVphi := squeeze (forward A (unsqueeze phi) params) in
  let! lmbdaVphi := bvec_op Qmult (slice1 i evalT) phi in
  bvec_op Qminus AVphi lmbdaVphi.

(** Two [(nbatch, n)] tensors of the same shape. *)
Definition shaped_alike (a b : bvec) : Prop :=
  Forall2 (fun r r' : vec => length r = length r') a b.

(** The loop state a loop body hands on. *)
Definition ctl_state {S : Type} (c : ctl S) : S :=
  match c with Continue s => s | Break s => s end.

(** The names [_set_initial_v] knows. *)
Definition known_strategy (vinit_type : string) : bool :=
  String.eqb vinit_type "eye" || String.eqb vinit_type "randn" ||
  String.eqb vinit_type "random" || String.eqb vinit_type "rand".

(** Every batch element has at most [na] columns, all of length [na], and
    has a column unless [na] is zero. *)
Definition subspace_ok (na : nat) (x : bmat) : Prop :=
  Forall (fun m => (length m <= na)%nat /\
                   Forall (fun c => length c = na) m /\
                   (m = [] -> na = 0%nat)) x.

End Eigpairs.

(** ** Predicates for further statements about the eigensolvers *)

Module EigpairsMore.

Import Eigpairs.

(** The Krylov basis of [lanczos]: [nbatch] batch elements, each with at
    most [max na 1] columns, all of length [na]. *)
Definition krylov_ok (na nbatch : nat) (x : bmat) : Prop :=
  length x = nbatch /\
  Forall (fun m => (length m <= Nat.max na 1)%nat /\
                   Forall (fun c => length c = na) m) x.

End EigpairsMore.

(** ** ddft/grids/radialshiftexp.py *)

Module Grids.

Import Eigpairs.

(** What numpy and torch compute beyond the rationals. *)
Record numeric : Type := {
  exp : Q -> Q;
  log : Q -> Q;
  pi : Q
}.

Definition Qnat (n : nat) : Q := inject_Z (Z.of_nat n).

(** [torch.linspace(a, b, n)] *)
Definition linspace (a b : Q) (n : nat) : vec :=
  match n with
  | O => []
  | S O => [a]
  | _ => map (fun i => a + Qnat i * ((b - a) / Qnat (n - 1))) (seq 0 n)
  end.

(** [t[i]] on a one-dimensional tensor, for an index that is not negative. *)
Definition item (l : vec) (i : nat) : result Q :=
  match nth_error l i with
  | Some x => Ok x
  | None => Raise IndexError
  end.

(** The attributes of a [RadialShiftExp] grid. *)
Record RadialShiftExp : Type := {
  _boxshape : nat;
  rmin : Q;
  rs : vec;
  _rgrid : list vec;
  dlogr : Q;
  _scaling : vec;
  _dr : vec;
  _dvolume : vec
}.

(** [RadialShiftExp.__init__(self, rmin, rmax, nr)] *)
Definition RadialShiftExp_init (np : numeric) (rmin0 rmax : Q) (nr : nat)
  : result RadialShiftExp :=
  let logr := linspace (log np rmin0) (log np rmax) nr in
  let unshifted_rgrid := map (exp np) logr in
  let rs0 := map (fun u => u - rmin0) unshifted_rgrid in
  let! logr1 := item logr 1 in
  let! logr0 := item logr 0 in
  let dlogr0 := logr1 - logr0 in
  let scaling := map (fun r => r + rmin0) rs0 in
  let dr := map (fun s => s * dlogr0) scaling in
  let dvolume :=
    zip_with (fun r d => 4 * pi np * r * r * d) rs0 dr in
  Ok {| _boxshape := nr; rmin := rmin0; rs := rs0;
        _rgrid := map (fun r => [r]) rs0; dlogr := dlogr0;
        _scaling := scaling; _dr := dr; _dvolume := dvolume |}.

(** [get_dvolume], [rgrid], [boxshape] *)
Definition get_dvolume (self : RadialShiftExp) : vec := _dvolume self.
Definition rgrid (self : RadialShiftExp) : list vec := _rgrid self.
Definition boxshape (self : RadialShiftExp) : nat := _boxshape self.

(** [x op v] for a [(nbatch, nr)] tensor [x] and a [(nr,)] tensor [v], with
    broadcasting along the last dimension. *)
Definition rows_op (f : Q -> Q -> Q) (x : bvec) (v : vec) : result bvec :=
  mapM (fun row => bcast (fun a b => Ok (f a b)) row v) x.

(** [torch.cumsum(x, dim=-1)] on one row. *)
Fixpoint cumsum_from (acc : Q) (l : vec) : vec :=
  match l with
  | [] => []
  | x :: l' => (acc + x) :: cumsum_from (acc + x) l'
  end.
Definition cumsum (l : vec) : vec := cumsum_from 0 l.

(** [-torch.cumsum(x.flip(dims=[dim]), dim=dim).flip(dims=[dim])] on one
    row. *)
Definition neg_cumsum_flipped (l : vec) : vec :=
  map Qopp (rev (cumsum (rev l))).

(** [antiderivative(self, intgn, dim=-1, zeroat)], along the last
    dimension; for a [zeroat] that is neither "left" nor "right" the
    function falls off its end and returns [None]. *)
Definition antiderivative (self : RadialShiftExp) (intgn : bvec)
    (zeroat : string) : result (option bvec) :=
  let! intgn1 := rows_op Qmult intgn (_dr self) in
  if String.eqb zeroat "left" then Ok (Some (map cumsum intgn1))
  else if String.eqb zeroat "right" then
    Ok (Some (map neg_cumsum_flipped intgn1))
  else Ok None.

(** A tensor is needed where [antiderivative] might have given [None]. *)
Definition as_tensor (x : option bvec) : result bvec :=
  match x with
  | Some v => Ok v
  | None => Raise TypeError
  end.

Definition poisson_eps : Q := 1 # 10000000000.

(** [solve_poisson(self, f)] *)
Definition solve_poisson (self : RadialShiftExp) (f : bvec) : result bvec :=
  let eps := poisson_eps in
  let! f_rs := rows_op Qmult f (rs self) in
  let! intgn1 := rows_op Qmult f_rs (rs self) in
  let! int1o := antiderivative self intgn1 "left" in
  let! int1 := as_tensor int1o in
  let rr := map (fun r => r * r + eps) (rs self) in
  let! intgn2 := rows_op Qdiv int1 rr in
  let! int2o := antiderivative self intgn2 "right" in
  as_tensor int2o.

(** *** What the statements are worded with *)

(** A tensor of [nr] entries per row. *)
Definition rows_of (nr : nat) (x : bvec) : Prop :=
  Forall (fun row => length row = nr) x.

(** Entry-wise equality of tensors as numbers. *)
Definition veq (a b : vec) : Prop := Forall2 Qeq a b.
Definition beq (a b : bvec) : Prop := Forall2 veq a b.

(** [c * f + h], entry by entry. *)
Definition lincomb (c : Q) (f h : vec) : vec :=
  zip_with (fun x y => c * x + y) f h.

(** The integral of [u * v] over the grid with the radial weight
    [r^2 dr], as a sum over the grid points. *)
Definition radial_inner (self : RadialShiftExp) (u v : vec) : Q :=
  qsum (zip_with Qmult (zip_with Qmult u v)
          (zip_with (fun r d => r * r * d) (rs self) (_dr self))).

(** A tensor without negative entries. *)
Definition nonnegative (l : vec) : Prop := Forall (fun q => 0 <= q) l.

(** The sums of the entries from each position to the end. *)
Fixpoint suffix_sums (l : vec) : vec :=
  match l with
  | [] => []
  | x :: l' => qsum l :: suffix_sums l'
  end.

(** What [solve_poisson] computes on one row whose length is that of the
    grid. *)
Definition poisson_row (self : RadialShiftExp) (row : vec) : vec :=
  let intgn1 :=
    zip_with Qmult (zip_with Qmult (zip_with Qmult row (rs self)) (rs self))
      (_dr self) in
  let rr := map (fun r => r * r + poisson_eps) (rs self) in
  let intgn2 :=
    zip_with Qmult (zip_with Qdiv (cumsum intgn1) rr) (_dr self) in
  neg_cumsum_flipped intgn2.

End Grids.

(** ** ddft/grids/radialgrid.py *)

Module RadialGrid.

Import Eigpairs.

(** A matrix, as the list of its rows. *)
Definition rmat := list vec.

(** numpy, torch and [ddft.utils.legendre] beyond rational arithmetic. *)
Record numlib : Type := {
  exp : Q -> Q;
  log : Q -> Q;
  pi : Q;
  (** [leggauss(deg)]: the Gauss-Legendre nodes and weights *)
  leggauss : nat -> result (vec * vec);
  (** [legvander(x, order, orderfirst=True)] *)
  legvander : vec -> Z -> rmat;
  (** [m.inverse()] *)
  inverse : rmat -> result rmat;
  (** [torch.solve(B, A)[0]]: the solution [X] of [A X = B] *)
  solve : rmat -> rmat -> result rmat
}.

(** [l[i]] for a Python index: a negative [i] counts from the end. *)
Definition py_index {A : Type} (l : list A) (i : Z) : result A :=
  let n := Z.of_nat (length l) in
  let j := if Z.ltb i 0 then (i + n)%Z else i in
  if Z.ltb j 0 then Raise IndexError
  else match nth_error l (Z.to_nat j) with
       | Some a => Ok a
       | None => Raise IndexError
       end.

(** The attributes of a [LegendreRadialShiftExp] grid, those of its parent
    [LegendreRadialTransform] included.  A division by zero, which torch
    answers with [inf] or [nan], is not represented (the rationals give 0),
    and a tensor without rows carries no width. *)
Record LegendreRadialShiftExp : Type := {
  rmin : Q;
  logrmin : Q;
  logrmax : Q;
  logrmm : Q;
  _spline_mat_inv_ : option rmat;
  xleggauss : vec;
  wleggauss : vec;
  _boxshape : nat;
  rs : vec;
  _rgrid : list vec;
  _scaling : vec;
  _dr : vec;
  _dvolume : vec;
  basis : rmat;
  inv_basis : rmat
}.

Section Methods.

Variable lib : numlib.

(** [transform], [invtransform], [get_scaling] *)
Definition transform (self : LegendreRadialShiftExp) (xlg : vec) : vec :=
  map (fun x => exp lib ((x + 1) * (1 # 2) * logrmm self + logrmin self)
                - rmin self) xlg.

Definition invtransform (self : LegendreRadialShiftExp) (rs0 : vec) : vec :=
  map (fun r => (log lib (r + rmin self) - logrmin self)
                / ((1 # 2) * logrmm self) - 1) rs0.

Definition get_scaling (self : LegendreRadialShiftExp) (rs0 : vec) : vec :=
  map (fun r => (r + rmin self) * logrmm self * (1 # 2)) rs0.

(** [LegendreRadialShiftExp.__init__(self, rmin, rmax, nr)], the parent's
    [__init__] included; the attributes not yet set are empty while
    [transform] and [get_scaling] run. *)
Definition LegendreRadialShiftExp_init (rmin0 rmax : Q) (nr : nat)
  : result LegendreRadialShiftExp :=
  let logrmin0 := log lib rmin0 in
  let logrmax0 := log lib rmax in
  let self0 :=
    {| rmin := rmin0; logrmin := logrmin0; logrmax := logrmax0;
       logrmm := logrmax0 - logrmin0; _spline_mat_inv_ := None;
       xleggauss := []; wleggauss := []; _boxshape := 0%nat; rs := [];
       _rgrid := []; _scaling := []; _dr := []; _dvolume := [];
       basis := []; inv_basis := [] |} in
  let! '(x, w) := leggauss lib nr in
  let rs0 := transform self0 x in
  let scaling := get_scaling self0 rs0 in
  let dr := zip_with Qmult scaling w in
  let dvolume := zip_with Qmult (map (fun r => 4 * pi lib * r * r) rs0) dr in
  let basis0 := legvander lib x (Z.of_nat nr - 1) in
  let! inv_basis0 := inverse lib basis0 in
  Ok {| rmin := rmin0; logrmin := logrmin0; logrmax := logrmax0;
        logrmm := logrmax0 - logrmin0; _spline_mat_inv_ := None;
        xleggauss := x; wleggauss := w; _boxshape := nr; rs := rs0;
        _rgrid := map (fun r => [r]) rs0; _scaling := scaling; _dr := dr;
        _dvolume := dvolume; basis := basis0; inv_basis := inv_basis0 |}.

Definition rgrid (self : LegendreRadialShiftExp) : list vec := _rgrid self.

(** *** [_get_spline_mat_inverse] *)

(** [x[1:] - x[:-1]], [l[-1:]] and [l[1:-1]] *)
Definition diffs (x : vec) : vec := zip_with Qminus (tl x) (removelast x).
Definition last_slice (l : vec) : vec := skipn (length l - 1) l.
Definition middle (l : vec) : vec := removelast (tl l).

(** Broadcasting along one dimension to [n] entries: [l] has [n] entries,
    or one that is repeated. *)
Definition expand {A : Type} (n : nat) (l : list A) : result (list A) :=
  if Nat.eqb (length l) n then Ok l
  else match l with
       | [a] => Ok (repeat a n)
       | _ => Raise RuntimeError
       end.

(** [view[:] = v] on a view of [n] entries. *)
Definition assign (n : nat) (v : vec) : result vec := expand n v.

(** The [nx] by [nx] matrix that is zero but for its diagonal [d], its upper
    diagonal [u] and its lower diagonal [l]. *)
Definition banded (nx : nat) (d u l : vec) : rmat :=
  map (fun i =>
         map (fun j =>
                if Nat.eqb j i then nth i d 0
                else if Nat.eqb j (S i) then nth i u 0
                else if Nat.eqb i (S j) then nth j l 0
                else 0)
             (seq 0 nx))
      (seq 0 nx).

(** [torch.zeros(nx, nx)] with its diagonal, upper and lower diagonals
    assigned in this order. *)
Definition tridiag (nx : nat) (d u l : vec) : result rmat :=
  let! d' := assign nx d in
  let! u' := assign (nx - 1) u in
  let! l' := assign (nx - 1) l in
  Ok (banded nx d' u' l').

(** The two matrices [_get_spline_mat_inverse] constructs: the left hand
    side [spline_mat] and the right hand side [matr]. *)
Definition spline_matrices (x : vec) : result (rmat * rmat) :=
  let nx := length x in
  let dxinv0 := map (fun d => 1 / d) (diffs x) in
  let dxinv :=
    map (fun a => a * 0) (firstn 1 dxinv0) ++ dxinv0
      ++ map (fun a => a * 0) (last_slice dxinv0) in
  let diag := map (fun s => s * 2) (zip_with Qplus (removelast dxinv) (tl dxinv)) in
  let offdiag := dxinv0 in
  let! spline_mat := tridiag nx diag offdiag offdiag in
  let dxinv2 := map (fun a => a * a * 3) dxinv in
  let diagr := zip_with Qminus (removelast dxinv2) (tl dxinv2) in
  let udiagr := middle dxinv2 in
  let ldiagr := map Qopp udiagr in
  let! matr := tridiag nx diagr udiagr ldiagr in
  Ok (spline_mat, matr).

Definition with_spline_mat_inv (self : LegendreRadialShiftExp) (m : rmat)
  : LegendreRadialShiftExp :=
  {| rmin := rmin self; logrmin := logrmin self; logrmax := logrmax self;
     logrmm := logrmm self; _spline_mat_inv_ := Some m;
     xleggauss := xleggauss self; wleggauss := wleggauss self;
     _boxshape := _boxshape self; rs := rs self; _rgrid := _rgrid self;
     _scaling := _scaling self; _dr := _dr self; _dvolume := _dvolume self;
     basis := basis self; inv_basis := inv_basis self |}.

(** [_get_spline_mat_inverse(self)]: the result and the object afterwards. *)
Definition _get_spline_mat_inverse (self : LegendreRadialShiftExp)
  : result rmat * LegendreRadialShiftExp :=
  match _spline_mat_inv_ self with
  | Some m => (Ok m, self)
  | None =>
      match (let! '(spline_mat, matr) := spline_matrices (xleggauss self) in
             solve lib matr spline_mat) with
      | Ok spline_mat_inv =>
          (Ok spline_mat_inv, with_spline_mat_inv self spline_mat_inv)
      | Raise e => (Raise e, self)
      end
  end.

(** *** [_cubic_spline] *)

(** [torch.matmul(y, m.transpose(-2,-1))] *)
Definition matmul_T (y : bvec) (m : rmat) : result bvec :=
  mapM (fun row =>
          if Nat.eqb (length row) (length (hd [] m)) then Ok (map (dot row) m)
          else Raise RuntimeError) y.

(** [torch.sum((xq > x.unsqueeze(-1)).to(torch.int32), dim=0)] for one
    query point. *)
Definition count_below (x : vec) (q : Q) : Z :=
  Z.of_nat (length (List.filter (fun xi => negb (Qle_bool q xi)) x)).

(** The right index [idxr] of one query point, after the two in-place
    corrections. *)
Definition locate (nr : Z) (x : vec) (q : Q) : Z :=
  let idxr := count_below x q in
  let idxr := if Z.eqb idxr 0 then 1%Z else idxr in
  if Z.eqb idxr nr then (nr - 1)%Z else idxr.

(** [y[:, idx]] *)
Definition take_at (y : bvec) (idx : list Z) : result bvec :=
  mapM (fun row => mapM (py_index row) idx) y.

(** [_cubic_spline(self, xq, x, y)] *)
Definition _cubic_spline (self : LegendreRadialShiftExp) (xq x : vec)
    (y : bvec) : result bvec * LegendreRadialShiftExp :=
  let '(inv, self') := _get_spline_mat_inverse self in
  (let! spline_mat_inv := inv in
   let! ks := matmul_T y spline_mat_inv in
   let nr := Z.of_nat (length x) in
   let idxr := map (locate nr x) xq in
   let idxl := map (fun i => (i - 1)%Z) idxr in
   let! xl := mapM (py_index x) idxl in
   let! xr := mapM (py_index x) idxr in
   let! yl := take_at y idxl in
   let! yr := take_at y idxr in
   let! kl := take_at ks idxl in
   let! kr := take_at ks idxr in
   let dxrl := zip_with Qminus xr xl in
   let t := zip_with Qdiv (zip_with Qminus xq xl) dxrl in
   let tinv := map (fun a => 1 - a) t in
   let tta := zip_with Qmult (zip_with Qmult t tinv) tinv in
   let ttb := zip_with Qmult (zip_with Qmult t tinv) t in
   let tyl := zip_with Qminus (zip_with Qplus tinv tta) ttb in
   let tyr := zip_with Qplus (zip_with Qminus t tta) ttb in
   let tkl := zip_with Qmult tta dxrl in
   let tkr := zip_with Qmult (map Qopp ttb) dxrl in
   let times := fun (a : bvec) (c : vec) => map (fun row => zip_with Qmult row c) a in
   let plus := fun (a b : bvec) => zip_with (zip_with Qplus) a b in
   Ok (plus (plus (plus (times yl tyl) (times yr tyr)) (times kl tkl))
         (times kr tkr)),
   self').

(** *** [interpolate] *)

(** [t.max()]; an empty tensor has no maximum. *)
Definition tensor_max (l : vec) : result Q :=
  match l with
  | [] => Raise RuntimeError
  | x :: l' => Ok (fold_left Qmax l' x)
  end.

(** [t[mask]] and [t[:, mask] = v] on rows. *)
Fixpoint select {A : Type} (mask : list bool) (l : list A) : list A :=
  match mask, l with
  | b :: mask', x :: l' => if b then x :: select mask' l' else select mask' l'
  | _, _ => []
  end.

Fixpoint scatter (mask : list bool) (row v : vec) : vec :=
  match mask, row with
  | b :: mask', x :: row' =>
      if b then match v with
                | z :: v' => z :: scatter mask' row' v'
                | [] => x :: scatter mask' row' []
                end
      else x :: scatter mask' row' v
  | _, _ => row
  end.

Definition count_true (mask : list bool) : nat :=
  length (List.filter id mask).

(** [frq[:, mask] = v]: [v] is broadcast to one row per row of [frq] and one
    column per selected position. *)
Definition assign_columns (mask : list bool) (frq v : bvec) : result bvec :=
  let! rows := expand (length frq) v in
  let! rows := mapM (expand (count_true mask)) rows in
  Ok (zip_with (scatter mask) frq rows).

(** [interpolate(self, f, rq, extrap)]; [extrap] maps the points beyond the
    grid to a [(nbatch, n)] tensor. *)
Definition interpolate (self : LegendreRadialShiftExp) (f : bvec)
    (rq : list vec) (extrap : option (list vec -> bvec))
  : result bvec * LegendreRadialShiftExp :=
  let nbatch := length f in
  let nrq := length rq in
  match (let! rmax := tensor_max (concat (rgrid self)) in
         let! rq0 := mapM (fun p => py_index p 0) rq in
         Ok (rmax, rq0)) with
  | Raise e => (Raise e, self)
  | Ok (rmax, rq0) =>
      let idxinterp := map (fun r => Qle_bool r rmax) rq0 in
      let idxextrap := map (fun r => negb (Qle_bool r rmax)) rq0 in
      let allinterp := forallb id idxinterp in
      let rqinterp := if allinterp then rq0 else select idxinterp rq0 in
      let xq := invtransform self rqinterp in
      let '(res, self') := _cubic_spline self xq (xleggauss self) f in
      (let! frqinterp := res in
       if allinterp then Ok frqinterp
       else
         let frqextrap :=
           match extrap with
           | Some g => Some (g (select idxextrap rq))
           | None => None
           end in
         let frq := repeat (repeat 0 nrq) nbatch in
         let! frq := assign_columns idxinterp frq frqinterp in
         match frqextrap with
         | Some v => assign_columns idxextrap frq v
         | None => Ok frq
         end,
       self')
  end.

End Methods.

(** *** What the statements are worded with *)

(** A matrix of [n] rows and [n] columns. *)
Definition square (n : nat) (m : rmat) : Prop :=
  length m = n /\ Forall (fun r => length r = n) m.

(** Strictly increasing nodes. *)
Definition increasing (x : vec) : Prop := StronglySorted Qlt x.

(** The product of a matrix and a vector, and a vector of zeros. *)
Definition mv (m : rmat) (v : vec) : vec := map (fun row => dot row v) m.
Definition vanishes (v : vec) : Prop := Forall (fun q => q == 0) v.

(** What [_cubic_spline] computes for one row [yrow] of data with slopes
    [krow] at one query point [q], when every index is in range. *)
Definition spline_value (x yrow krow : vec) (q : Q) : Q :=
  let ir := Z.to_nat (locate (Z.of_nat (length x)) x q) in
  let il := (ir - 1)%nat in
  let xl := nth il x 0 in
  let xr := nth ir x 0 in
  let dxrl := xr - xl in
  let t := (q - xl) / dxrl in
  let tinv := 1 - t in
  let tta := t * tinv * tinv in
  let ttb := t * tinv * t in
  let tyl := tinv + tta - ttb in
  let tyr := t - tta + ttb in
  let tkl := tta * dxrl in
  let tkr := - ttb * dxrl in
  nth il yrow 0 * tyl + nth ir yrow 0 * tyr
  + nth il krow 0 * tkl + nth ir krow 0 * tkr.

End RadialGrid.

(** ** ddft/hamiltons/hatomradial.py *)

Module HatomRadial.

Import Eigpairs.

(** numpy and torch beyond rational arithmetic: [exp], [sqrt], the power
    [x ** p] and [pi]. *)
Record numlib : Type := {
  exp : Q -> Q;
  sqrt : Q -> Q;
  pow : Q -> Q -> Q;
  pi : Q
}.

(** What the Hamiltonian reads from its grid. *)
Record grid : Type := {
  rgrid : list vec
}.

(** [a op b] for [a] of shape [(ng, 1)] and [b] of shape [(ng,)], both made
    from the tensor [g]: entry [(i, j)] combines [g[i]] and [g[j]]. *)
Definition outer (f : Q -> Q -> Q) (g : vec) : list vec :=
  map (fun gi => map (fun gj => f gi gj) g) g.

(** The attributes of a [HamiltonAtomRadial]. *)
Record HamiltonAtomRadial : Type := {
  _grid : grid;
  shape : nat * nat;
  is_symmetric : bool;
  is_real : bool;
  gwidths : vec;
  rs : vec;
  angmom : Z;
  basis : list vec;
  kin : list (list vec);
  olp : list (list vec);
  coul : list (list vec)
}.

(** [t[:, 0]] *)
Definition first_column (t : list vec) : result vec :=
  mapM (fun row => match row with
                   | r :: _ => Ok r
                   | [] => Raise IndexError
                   end) t.

Section Methods.

Variable lib : numlib.

(** The entries [(i, j)] of the matrices of [__init__], from [gw1 = g[i]]
    and [gwidths = g[j]], line by line. *)
Definition gwprod (gw1 gw : Q) : Q := gw1 * gw.
Definition gwprod32 (gw1 gw : Q) : Q := pow lib (gwprod gw1 gw) (3 # 2).
Definition gw2sum (gw1 gw : Q) : Q := gw1 * gw1 + gw * gw.
Definition gwnet2 (gw1 gw : Q) : Q :=
  gwprod gw1 gw * gwprod gw1 gw / gw2sum gw1 gw.
Definition gwnet (gw1 gw : Q) : Q := sqrt lib (gwnet2 gw1 gw).
Definition cube (x : Q) : Q := x * x * x.

Definition kin_rad (gw1 gw : Q) : Q :=
  3 / sqrt lib 2 * cube (gwnet gw1 gw) / gwprod32 gw1 gw / gw2sum gw1 gw.
Definition kin_ang (gw1 gw : Q) : Q :=
  gwnet gw1 gw / gwprod32 gw1 gw / sqrt lib 2.
Definition kin_entry (angmom0 : Z) (gw1 gw : Q) : Q :=
  kin_rad gw1 gw
  + kin_ang gw1 gw * inject_Z angmom0 * inject_Z (angmom0 + 1).
Definition olp_entry (gw1 gw : Q) : Q :=
  2 * sqrt lib 2 * cube (gwnet gw1 gw) / gwprod32 gw1 gw.
Definition coul_entry (gw1 gw : Q) : Q :=
  - (4) / sqrt lib (2 * pi lib) * gwnet2 gw1 gw / gwprod32 gw1 gw.

(** [HamiltonAtomRadial.__init__(self, grid, gwidths, angmom)] *)
Definition HamiltonAtomRadial_init (grid0 : grid) (gwidths0 : vec)
    (angmom0 : Z) : result HamiltonAtomRadial :=
  let ng := length gwidths0 in
  let! rs0 := first_column (rgrid grid0) in
  let unnorm_basis :=
    map (fun gw1 =>
           map (fun r => exp lib (- r * r / (4 * gw1 * gw1))) rs0) gwidths0 in
  let norm :=
    map (fun gw => 1 / pow lib (sqrt lib (2 * pi lib) * gw) (3 # 2))
      gwidths0 in
  let basis0 := zip_with (fun c row => map (fun b => c * b) row)
                  norm unnorm_basis in
  Ok {| _grid := grid0; shape := (ng, ng); is_symmetric := true;
        is_real := true; gwidths := gwidths0; rs := rs0; angmom := angmom0;
        basis := basis0;
        kin := [outer (kin_entry angmom0) gwidths0];
        olp := [outer olp_entry gwidths0];
        coul := [outer coul_entry gwidths0] |}.

End Methods.

(** *** What the statements are worded with *)

(** A symmetric [n] by [n] matrix. *)
Definition symmetric_of_size (n : nat) (m : list vec) : Prop :=
  length m = n /\ Forall (fun row => length row = n) m /\
  forall i j : nat, nth j (nth i m []) 0 = nth i (nth j m []) 0.

End HatomRadial.

(** ** ddft/eks/base_eks.py: the objects and their state *)

Module EksObjects.

(** A Hamiltonian model, as far as a functional looks at it: its identity,
    its [grid] and its [getparamnames]. *)
Record hmodel_obj : Type := {
  hmodel_id : nat;
  hmodel_grid : nat;
  hmodel_getparamnames : string -> string -> list string
}.

(** An object of a subclass of [BaseEKS]: a functional of a leaf class,
    which keeps the methods of [BaseEKS] but for [need_gradn] and
    [getfwdparamnames], or an [AddEKS] that refers to its two operands.
    Grids are given by their identity. *)
Inductive obj : Type :=
| Leaf (_grid : option nat) (_hmodel : option hmodel_obj)
       (need : bool) (names : string -> list string)
| Sum (_grid : option nat) (_hmodel : option hmodel_obj)
      (a b : nat) (_need_gradn : bool).

(** The store: the object at address [i] is entry [i]. *)
Definition heap := list obj.

Definition lookup (h : heap) (i : nat) : option obj := nth_error h i.

Fixpoint store (h : heap) (i : nat) (o : obj) : heap :=
  match h, i with
  | [], _ => []
  | _ :: h', O => o :: h'
  | x :: h', S i' => x :: store h' i' o
  end.

(** [self._grid = grid] and [self._hmodel = hmodel] *)
Definition with_grid (o : obj) (grid : nat) : obj :=
  match o with
  | Leaf _ hm need names => Leaf (Some grid) hm need names
  | Sum _ hm a b n => Sum (Some grid) hm a b n
  end.

Definition with_hmodel (o : obj) (hm : hmodel_obj) : obj :=
  match o with
  | Leaf g _ need names => Leaf g (Some hm) need names
  | Sum g _ a b n => Sum g (Some hm) a b n
  end.

(** The properties [grid], [hmodel] and [need_gradn] *)
Definition grid (o : obj) : result nat :=
  match o with
  | Leaf (Some g) _ _ _ | Sum (Some g) _ _ _ _ => Ok g
  | _ => Raise RuntimeError
  end.

Definition hmodel (o : obj) : result hmodel_obj :=
  match o with
  | Leaf _ (Some hm) _ _ | Sum _ (Some hm) _ _ _ => Ok hm
  | _ => Raise RuntimeError
  end.

Definition need_gradn (o : obj) : bool :=
  match o with
  | Leaf _ _ need _ => need
  | Sum _ _ _ _ n => n
  end.

(** [set_grid(self, grid)]: [None] stands for a run that does not end
    within [fuel] calls or meets an address without object. *)
Fixpoint set_grid (fuel : nat) (h : heap) (self grid0 : nat) : option heap :=
  match fuel with
  | O => None
  | S fuel' =>
      match lookup h self with
      | None => None
      | Some (Leaf _ _ _ _ as o) => Some (store h self (with_grid o grid0))
      | Some (Sum _ _ a b _) =>
          match set_grid fuel' h a grid0 with
          | None => None
          | Some h1 =>
              match set_grid fuel' h1 b grid0 with
              | None => None
              | Some h2 =>
                  match lookup h2 self with
                  | Some o => Some (store h2 self (with_grid o grid0))
                  | None => None
                  end
              end
          end
      end
  end.

(** [set_hmodel(self, hmodel)] *)
Fixpoint set_hmodel (fuel : nat) (h : heap) (self : nat) (hm : hmodel_obj)
  : option heap :=
  match fuel with
  | O => None
  | S fuel' =>
      match lookup h self with
      | None => None
      | Some (Leaf _ _ _ _ as o) =>
          Some (store h self (with_grid (with_hmodel o hm) (hmodel_grid hm)))
      | Some (Sum _ _ a b _) =>
          match set_hmodel fuel' h a hm with
          | None => None
          | Some h1 =>
              match set_hmodel fuel' h1 b hm with
              | None => None
              | Some h2 =>
                  match lookup h2 self with
                  | Some o =>
                      Some (store h2 self
                              (with_hmodel (with_grid o (hmodel_grid hm)) hm))
                  | None => None
                  end
              end
          end
      end
  end.

(** What may stand on the right of [+]: a functional, by its address, or
    anything else. *)
Inductive pyobj : Type :=
| PyEKS (address : nat)
| PyOther.

(** [_normalize(a)] *)
Definition _normalize (a : pyobj) : result nat :=
  match a with
  | PyEKS address => Ok address
  | PyOther => Raise TypeError
  end.

(** [BaseEKS.__add__(self, other)] with [AddEKS.__init__]: the new object
    gets the next address. *)
Definition __add__ (h : heap) (self : nat) (other : pyobj)
  : option (result (heap * nat)) :=
  match _normalize other with
  | Raise e => Some (Raise e)
  | Ok other =>
      match lookup h self, lookup h other with
      | Some a, Some b =>
          Some (Ok (h ++ [Sum None None self other
                            (need_gradn a || need_gradn b)],
                    length h))
      | _, _ => None
      end
  end.

(** The constructor of a leaf class: [BaseEKS.__init__]. *)
Definition new_leaf (h : heap) (need : bool) (names : string -> list string)
  : heap * nat :=
  (h ++ [Leaf None None need names], length h).

(** [getfwdparamnames(self, prefix)] *)
Fixpoint getfwdparamnames (fuel : nat) (h : heap) (self : nat)
    (prefix : string) : option (list string) :=
  match fuel with
  | O => None
  | S fuel' =>
      match lookup h self with
      | None => None
      | Some (Leaf _ _ _ names) => Some (names prefix)
      | Some (Sum _ _ a b _) =>
          match getfwdparamnames fuel' h a (prefix ++ "a.") with
          | None => None
          | Some na =>
              match getfwdparamnames fuel' h b (prefix ++ "b.") with
              | None => None
              | Some nb => Some (na ++ nb)
              end
          end
      end
  end.

(** [getparamnames(self, methodname, prefix)] *)
Definition getparamnames (fuel : nat) (h : heap) (self : nat)
    (methodname prefix : string) : option (result (list string)) :=
  if String.eqb methodname "forward" || String.eqb methodname "__call__"
     || String.eqb methodname "potential"
  then option_map Ok (getfwdparamnames fuel h self prefix)
  else if String.eqb methodname "potential_linop" then
    match getfwdparamnames fuel h self prefix, lookup h self with
    | Some names, Some o =>
        Some (let! hm := hmodel o in
              Ok (names ++ hmodel_getparamnames hm "get_vext"
                             (prefix ++ "hmodel.")))
    | _, _ => None
    end
  else Some (Raise KeyError).

(** *** What the statements are worded with *)

(** The object at [c] is an operand of the sum at [i]. *)
Definition operand (h : heap) (i c : nat) : Prop :=
  exists g hm a b n, lookup h i = Some (Sum g hm a b n) /\ (c = a \/ c = b).

(** The objects a call on [i] can reach: [i] itself and the operands of
    what it reaches. *)
Inductive reaches (h : heap) : nat -> nat -> Prop :=
| reaches_self (i : nat) : (i < length h)%nat -> reaches h i i
| reaches_operand (i c j : nat) :
    operand h i c -> reaches h c j -> reaches h i j.

(** The walk [set_grid] and [set_hmodel] have in common: the operands
    first, then the object itself. *)
Fixpoint visit (upd : obj -> obj) (fuel : nat) (h : heap) (self : nat)
  : option heap :=
  match fuel with
  | O => None
  | S fuel' =>
      match lookup h self with
      | None => None
      | Some (Leaf _ _ _ _ as o) => Some (store h self (upd o))
      | Some (Sum _ _ a b _) =>
          match visit upd fuel' h a with
          | None => None
          | Some h1 =>
              match visit upd fuel' h1 b with
              | None => None
              | Some h2 =>
                  match lookup h2 self with
                  | Some o => Some (store h2 self (upd o))
                  | None => None
                  end
              end
          end
      end
  end.

(** Two states of one object: the same class, operands, [need_gradn] and
    parameter names. *)
Definition same_shape (o o' : obj) : Prop :=
  match o, o' with
  | Leaf _ _ need names, Leaf _ _ need' names' =>
      need = need' /\ names = names'
  | Sum _ _ a b n, Sum _ _ a' b' n' => a = a' /\ b = b' /\ n = n'
  | _, _ => False
  end.

(** One store has grown out of another by changes of state only. *)
Definition evolved (h h' : heap) : Prop :=
  length h' = length h /\
  forall j o, lookup h j = Some o ->
    exists o', lookup h' j = Some o' /\ same_shape o o'.

(** A sum only refers to objects made before it, and its [_need_gradn] is
    what its operands answer. *)
Definition well_founded (h : heap) : Prop :=
  forall i g hm a b n,
    lookup h i = Some (Sum g hm a b n) -> (a < i)%nat /\ (b < i)%nat.

Definition consistent (h : heap) : Prop :=
  forall i g hm a b n,
    lookup h i = Some (Sum g hm a b n) ->
    exists oa ob,
      lookup h a = Some oa /\ lookup h b = Some ob /\
      n = (need_gradn oa || need_gradn ob)%bool.

(** The stores the program can produce: from the empty store by
    constructing leaves, adding functionals and setting grids and
    models. *)
Inductive built : heap -> Prop :=
| built_empty : built []
| built_leaf (h : heap) (need : bool) (names : string -> list string) :
    built h -> built (fst (new_leaf h need names))
| built_add (h h' : heap) (a b c : nat) :
    built h -> __add__ h a (PyEKS b) = Some (Ok (h', c)) -> built h'
| built_set_grid (h h' : heap) (fuel i g : nat) :
    built h -> set_grid fuel h i g = Some h' -> built h'
| built_set_hmodel (h h' : heap) (fuel i : nat) (hm : hmodel_obj) :
    built h -> set_hmodel fuel h i hm = Some h' -> built h'.

End EksObjects.

(** * Concrete instances

    Small systems on which the statements below are exercised. *)

Module Fixtures.

(** ** A one-orbital system for [RKS] *)

Import Rks.

(** Every matrix is one by one; the "eigensolver" reads the only entry. *)
Definition one_orbital_system : system :=
  {| get_orbweight := [2];
     grid_npoints := 1;
     get_kinnucl := [[- (1)]];
     get_vext := fun v => [v];
     get_overlap := [[1]];
     get_elrep := fun dm => [[1 # 2]];
     get_vxc := fun _ dm => [[- (1 # 4)]];
     get_exc := fun _ dm => - (1 # 3);
     ao_orb2dm := fun c w => [[2]];
     get_nuclei_energy := 1;
     lsymeig := fun a neig m opts => ([nth 0 (nth 0 a []) 0], [[1]]);
     equilibrium := fun f y0 bck fwd => f y0 |}.

(** The object [RKS(system, "lda_x")] builds, and the object after [run()]. *)
Definition one_orbital_rks : RKS :=
  {| xc := "lda_x"; sys := one_orbital_system;
     orb_weight := [2]; norb := 1;
     knvext_linop := [[- (1)]]; overlap_linop := [[1]];
     has_run := true; _dm := None; eigen_options := None |}.

Definition one_orbital_after_run : RKS :=
  {| xc := "lda_x"; sys := one_orbital_system;
     orb_weight := [2]; norb := 1;
     knvext_linop := [[- (1)]]; overlap_linop := [[1]];
     has_run := true; _dm := Some [[2]]; eigen_options := Some [] |}.

(** ** A basis file for [CGTOBasis] *)

Import CgtoBasis.

(** [float] on unsigned decimal integers, and the shells S and P. *)
Definition toy_float (s : string) : result Q :=
  match s with
  | EmptyString => Raise ValueError
  | _ => match digits_val 0 s with
         | Some z => Ok (inject_Z z)
         | None => Raise ValueError
         end
  end.

Definition toy_externals : externals :=
  {| py_float := toy_float;
     to_angmom := fun s =>
       if String.eqb s "S" then Ok 0%Z
       else if String.eqb s "P" then Ok 1%Z
       else Raise RuntimeError;
     expand_basis := fun spdfs a c cartesian =>
       Ok (map (fun _ => [[0; 0; 0]%Z]) spdfs, a, c) |}.

Definition newline : string := String (ascii_of_nat 10) EmptyString.

(** Fourteen header lines, an S shell of two primitives, an SP shell of one
    and the sentinel. *)
Definition hydrogen_file : string :=
  String.concat newline
    (repeat "!"%string 14 ++
     ["S 2 1"; "3 4"; "5 6"; "SP 1 1"; "7 8 9"; "****"; ""]%string).

Definition disk : gmap string string :=
  {[ "01.gaussian94"%string := hydrogen_file ]}.

Definition name_of (z : Z) : string :=
  if Z.eqb z 1 then "01.gaussian94"%string else "00.gaussian94"%string.

Definition fresh_world : CgtoBasis.world :=
  {| files := disk; nopen := 0; next_id := 0 |}.

Definition empty_world : CgtoBasis.world :=
  {| files := ∅; nopen := 7; next_id := 7 |}.

Definition fresh_basis : CGTOBasis := CGTOBasis_init name_of.

Definition hydrogen_res : basis_res :=
  {| obj_id := 0;
     ijks := [[0; 0; 0]; [0; 0; 0]]%Z;
     alphas := [3; 5; 7; 7];
     coeffs := [4; 6; 8; 9];
     nelmts := [1; 1]%nat |}.

Definition basis_with_hydrogen : CGTOBasis :=
  {| fnameformat := name_of; res_memory := {[ 1%Z := hydrogen_res ]} |}.

Definition world_after_load : CgtoBasis.world :=
  {| files := disk; nopen := 1; next_id := 1 |}.

(** ** A stand-in for torch and a diagonal operator *)

Import Eigpairs.

(** A reduced "QR factor" with the right shape and orthonormal columns: the
    leading identity columns. *)
Definition toy_qr (m : mat) : mat :=
  eye (nrows m) (Nat.min (nrows m) (length m)).

Fixpoint insert_sorted (x : Q) (l : list Q) : list Q :=
  match l with
  | [] => [x]
  | y :: l' => if Qle_bool x y then x :: l else y :: insert_sorted x l'
  end.

Definition sort_ascending (l : list Q) : list Q := fold_right insert_sorted [] l.

Definition diagonal_of (m : mat) : vec :=
  map (fun i => nth i (nth i m []) 0) (seq 0 (length m)).

(** The eigendecomposition of a diagonal matrix: its diagonal, sorted. *)
Definition toy_symeig (T : mat) : vec * mat :=
  (sort_ascending (diagonal_of T), eye (length T) (length T)).

Definition toy_torch : torch :=
  {| manual_seed := fun z => Z.to_N z;
     randn := fun g nbatch na k => (repeat (repeat (repeat 1 na) k) nbatch, N.succ g);
     rand := fun g nbatch na k =>
       (repeat (repeat (repeat (1 # 2) na) k) nbatch, N.succ g);
     qr := toy_qr;
     symeig := toy_symeig;
     sqrt := fun x => 1 |}.

(** The operator with diagonal [d] and declared shape [(n, m)]. *)
Definition diagonal_operator (d : vec) (n m : nat) : LinearModule :=
  {| shape := (n, m);
     forward := fun x _ => map (map (fun c => zip_with Qmult d c)) x;
     diag := fun ps =>
       repeat d (match ps with
                 | p :: _ => hd 0%nat (pshape p)
                 | [] => 0%nat
                 end) |}.

Definition one_param : list param := [ {| pshape := [1%nat]; pdata := [0] |} ].

Definition start : Eigpairs.world := {| rng := 0; napply := 0 |}.
Definition elsewhere : Eigpairs.world := {| rng := 99; napply := 5 |}.

Definition eye_options : options :=
  {| method := None; max_niter := None; nguess := None; min_eps := None;
     eps_cond := None; v_init := Some "eye"%string; max_addition := None |}.

Definition operator3 : LinearModule := diagonal_operator [3; 1; 2] 3 3.
Definition operator2 : LinearModule := diagonal_operator [3; 1] 2 2.

(** A first guess as wide as [operator3]. *)
Definition full_eye_options : options :=
  {| method := None; max_niter := None; nguess := Some 3%nat; min_eps := None;
     eps_cond := None; v_init := Some "eye"%string; max_addition := None |}.

(** An operator whose diagonal meets the Ritz value of a slanted trial
    vector, and the loop state that holds this vector. *)
Definition operator_near : LinearModule := diagonal_operator [0; 25 # 8; 2] 3 3.

Definition slanted_state : lstate :=
  {| V := [[[3 # 5; 4 # 5; 0]]]; prev_eigvals := None;
     eigvalT := None; eigvecA := None |}.

(** An "eye" guess with the floor of the denominators set to zero. *)
Definition zero_eps_options : options :=
  {| method := None; max_niter := None; nguess := None; min_eps := None;
     eps_cond := Some 0; v_init := Some "eye"%string; max_addition := None |}.

(** The lines of [hydrogen_file] the parser of [loadbasis] starts on. *)
Definition hydrogen_lines : list string :=
  ["S 2 1"; "3 4"; "5 6"; "SP 1 1"; "7 8 9"; "****"; ""]%string.

(** ** A two-point radial grid *)

Import Grids.

(** Stand-ins for [exp], [log] and [pi]. *)
Definition toy_numeric : numeric :=
  {| exp := fun x => x; log := fun x => x; pi := 3 |}.

(** The grid [RadialShiftExp(1, 2, 2)] with these stand-ins. *)
Definition two_point_grid : RadialShiftExp :=
  {| _boxshape := 2; rmin := 1; rs := [0; 1]; _rgrid := [[0]; [1]];
     dlogr := 1; _scaling := [1; 2]; _dr := [1; 2]; _dvolume := [0; 24] |}.

(** A stand-in whose [exp] is never negative, and the grid
    [RadialShiftExp(1, 2, 2)] it gives. *)
Definition square_numeric : numeric :=
  {| exp := fun u => u * u; log := fun x => x; pi := 3 |}.

Definition wide_two_point_grid : RadialShiftExp :=
  {| _boxshape := 2; rmin := 1; rs := [0; 3]; _rgrid := [[0]; [3]];
     dlogr := 1; _scaling := [1; 4]; _dr := [1; 4]; _dvolume := [0; 432] |}.

(** ** A three-node Legendre grid *)

Import RadialGrid.

(** Stand-ins for numpy and torch: the nodes [0, 1, ...] with unit weights,
    the identity for [exp], [log] and the Legendre basis, and a "solve"
    that hands the right hand side back. *)
Definition toy_nodes (n : nat) : vec :=
  map (fun i => inject_Z (Z.of_nat i)) (seq 0 n).

Definition toy_numlib : numlib :=
  {| exp := fun x => x;
     log := fun x => x;
     pi := 3;
     leggauss := fun n =>
       match n with
       | O => Raise ValueError
       | _ => Ok (toy_nodes n, repeat 1 n)
       end;
     legvander := fun x order => eye (length x) (length x);
     inverse := fun m => Ok m;
     solve := fun B A => Ok B |}.

(** The grid [LegendreRadialShiftExp(1, 2, 3)] with these stand-ins, before
    and after the first interpolation. *)
Definition three_node_grid : LegendreRadialShiftExp :=
  {| rmin := 1; logrmin := 1; logrmax := 2; logrmm := 1;
     _spline_mat_inv_ := None;
     xleggauss := [0; 1; 2]; wleggauss := [1; 1; 1]; _boxshape := 3;
     rs := [1 # 2; 2 # 2; 3 # 2]; _rgrid := [[1 # 2]; [2 # 2]; [3 # 2]];
     _scaling := [3 # 4; 4 # 4; 5 # 4]; _dr := [3 # 4; 4 # 4; 5 # 4];
     _dvolume := [36 # 16; 192 # 16; 540 # 16];
     basis := [[1; 0; 0]; [0; 1; 0]; [0; 0; 1]];
     inv_basis := [[1; 0; 0]; [0; 1; 0]; [0; 0; 1]] |}.

Definition three_node_slopes : rmat :=
  [[- (3); 3; 0]; [- (3); 0; 3]; [0; - (3); 3]].

Definition three_node_grid_used : LegendreRadialShiftExp :=
  with_spline_mat_inv three_node_grid three_node_slopes.

(** The slopes that solve the spline system of the nodes [0, 1, 2], and a
    [torch.solve] that answers with them. *)
Definition exact_slopes : rmat :=
  [[- (5 # 4); 3 # 2; - (1 # 4)]; [- (1 # 2); 0; 1 # 2];
   [1 # 4; - (3 # 2); 5 # 4]].

Definition exact_numlib : numlib :=
  {| exp := fun x => x;
     log := fun x => x;
     pi := 3;
     leggauss := leggauss toy_numlib;
     legvander := legvander toy_numlib;
     inverse := fun m => Ok m;
     solve := fun B A => Ok exact_slopes |}.

Definition three_node_grid_solved : LegendreRadialShiftExp :=
  with_spline_mat_inv three_node_grid exact_slopes.

(** ** A radial Hamiltonian on two Gaussian widths *)

Import HatomRadial.

(** Stand-ins for [exp], [sqrt], the power and [pi]. *)
Definition toy_hlib : HatomRadial.numlib :=
  {| HatomRadial.exp := fun x => x;
     HatomRadial.sqrt := fun x => x;
     HatomRadial.pow := fun x p => x;
     HatomRadial.pi := 3 |}.

Definition two_point_rgrid : HatomRadial.grid :=
  {| HatomRadial.rgrid := [[0]; [1]] |}.

(** [HamiltonAtomRadial(grid, [1, 2], angmom=1)] with these stand-ins. *)
Definition two_width_hamilton : HamiltonAtomRadial :=
  {| HatomRadial._grid := two_point_rgrid;
     HatomRadial.shape := (2%nat, 2%nat);
     is_symmetric := true;
     is_real := true;
     gwidths := [1; 2];
     HatomRadial.rs := [0; 1];
     angmom := 1;
     HatomRadial.basis := [[0 # 24; (-1) # 24]; [0 # 192; (-1) # 192]];
     kin := [[[76 # 128; 23840 # 50000]; [23840 # 50000; 1835008 # 2097152]]];
     olp := [[[4 # 8; 256 # 250]; [256 # 250; 16384 # 2048]]];
     coul := [[[(-4) # 12; (-16) # 60]; [(-16) # 60; (-64) # 192]]] |}.

(** ** A store of energy functionals *)

(** A functional with one parameter, named after the prefix it is given. *)
Definition one_name (name prefix : string) : list string :=
  [(prefix ++ name)%string].

(** Two leaf functionals, the second of which needs the density gradient,
    their sum, and a functional that is no part of it. *)
Definition eks_store : EksObjects.heap :=
  [ EksObjects.Leaf None None false (one_name "x");
    EksObjects.Leaf None None true (one_name "c");
    EksObjects.Sum None None 0 1 true;
    EksObjects.Leaf None None false (one_name "k") ].

Definition toy_hmodel : EksObjects.hmodel_obj :=
  {| EksObjects.hmodel_id := 7;
     EksObjects.hmodel_grid := 4;
     EksObjects.hmodel_getparamnames :=
       fun methodname prefix => [(prefix ++ methodname)%string] |}.

(** The store after [set_hmodel] on the sum. *)
Definition eks_store_with_model : EksObjects.heap :=
  [ EksObjects.Leaf (Some 4%nat) (Some toy_hmodel) false (one_name "x");
    EksObjects.Leaf (Some 4%nat) (Some toy_hmodel) true (one_name "c");
    EksObjects.Sum (Some 4%nat) (Some toy_hmodel) 0 1 true;
    EksObjects.Leaf None None false (one_name "k") ].

End Fixtures.

(** * Theorems *)

(** ** The optimisation engine *)

Section OptimizeFacts.

Import Optimize.







End OptimizeFacts.

(** ** Sums of energy functionals *)

Section BaseEksFacts.

Import BaseEks.

Lemma zip_add_pairs (l : list (Q * Q)) :
  zip_add (map fst l) (map snd l) = map (fun p => fst p + snd p) l.
Proof.
  induction l as [|[x y] l IH]; [reflexivity|].
  cbn [map zip_add fst snd]. now rewrite IH.
Qed.

Lemma tensor_add_pairs (l : list (Q * Q)) :
  tensor_add (map fst l) (map snd l) = Ok (map (fun p => fst p + snd p) l).
Proof.
  unfold tensor_add. rewrite !length_map, Nat.eqb_refl.
  now rewrite zip_add_pairs.
Qed.

(** C10: for every functional [a], every right operand and every pair of
    density inputs: if the operand is a functional [b], [a + b] is a
    functional whose [forward] is [a.forward(...) + b.forward(...)] and whose
    [potential] is the pair of the sums of the two potentials' components,
    the sum of two tensors of one size being the tensor of the sums of their
    entries; if the operand is anything else, [a + b] raises [TypeError]. *)
Theorem AddEKS_is_the_pointwise_sum
    (a : eks) (other : pyobj) (densinfo_u densinfo_d : densinfo) :
  match other with
  | PyEKS b =>
      exists c,
        __add__ a other = Ok c /\
        forward c densinfo_u densinfo_d =
          (let! ea := forward a densinfo_u densinfo_d in
           let! eb := forward b densinfo_u densinfo_d in
           tensor_add ea eb) /\
        potential c densinfo_u densinfo_d =
          (let! apot := potential a densinfo_u densinfo_d in
           let! bpot := potential b densinfo_u densinfo_d in
           let! pu := tensor_add (fst apot) (fst bpot) in
           let! pd := tensor_add (snd apot) (snd bpot) in
           Ok (pu, pd))
  | _ => __add__ a other = Raise TypeError
  end /\
  forall l : list (Q * Q),
    tensor_add (map fst l) (map snd l) = Ok (map (fun p => fst p + snd p) l).
Proof.
  split; [|apply tensor_add_pairs].
  destruct other; try reflexivity.
  exists (AddEKS a e). repeat split; reflexivity.
Qed.

End BaseEksFacts.

(** ** The restricted Kohn-Sham driver *)

Section RksFacts.

Import Rks Fixtures.

Lemma run_sets_attributes (self self' : RKS) dm0 eo fo bo :
  run self dm0 eo fo bo = Ok self' ->
  has_run self' = true /\
  (exists dm, _dm self' = Some dm) /\
  (exists opts, eigen_options self' = Some opts).
Proof.
  unfold run. cbv zeta.
  match goal with
  | |- rbind ?m _ = _ -> _ => destruct m as [scp|e]
  end; cbn [rbind]; [|discriminate].
  match goal with
  | |- rbind ?m _ = _ -> _ => destruct m as [dm|e]
  end; cbn [rbind]; [|discriminate].
  intros H. injection H as <-. cbn.
  repeat split; eauto.
Qed.

(** C1: after any run that completes, [RKS.energy()] does not return the
    total energy: the line that adds the terms subtracts the
    exchange-correlation operator [vxc] itself, not its trace [e_vxc], from
    the exchange-correlation energy, a tensor minus a linear operator, and
    the call ends in [TypeError]. *)
Theorem energy_after_run_raises (self self' : RKS)
    (dm0 : option matrix) (eo fo bo : option options) :
  run self dm0 eo fo bo = Ok self' ->
  energy self' = Raise TypeError.
Proof.
  intros H. destruct (run_sets_attributes _ _ _ _ _ _ H) as (_ & [dm Hdm] & [opts Ho]).
  unfold energy, __diagonalize_fock. rewrite Hdm, Ho. cbn [rbind].
  destruct (lsymeig _ _ _ _ _) as [eivals eivecs]. reflexivity.
Qed.

(** C6: on an object that [__init__] has just built, before any [run], the
    run-completed flag is already [True]; asking for the energy raises
    [AttributeError], [_dm] not being there yet. *)
Theorem fresh_RKS_reports_a_completed_run
    (system0 : system) (xc0 : string) (vext : option (list Q)) (self : RKS) :
  RKS_init system0 xc0 vext = Ok self ->
  has_run self = true /\ energy self = Raise AttributeError.
Proof.
  unfold RKS_init. cbv zeta.
  match goal with
  | |- rbind ?m _ = _ -> _ => destruct m as [kn|e]
  end; cbn [rbind]; [|discriminate].
  intros H. injection H as <-. split; reflexivity.
Qed.

Lemma energy_after_run_raises_witness :
  run one_orbital_rks None None None None = Ok one_orbital_after_run /\
  energy one_orbital_after_run = Raise TypeError /\
  energy_as_specified one_orbital_after_run [[2]] [] == - (5 # 6).
Proof.
  split; [reflexivity|]. split.
  - apply (energy_after_run_raises one_orbital_rks one_orbital_after_run
             None None None None).
    reflexivity.
  - reflexivity.
Defined.

Lemma fresh_RKS_reports_a_completed_run_witness :
  RKS_init one_orbital_system "lda_x" None = Ok one_orbital_rks /\
  has_run one_orbital_rks = true /\
  energy one_orbital_rks = Raise AttributeError.
Proof.
  split; [reflexivity|].
  apply (fresh_RKS_reports_a_completed_run one_orbital_system "lda_x" None).
  reflexivity.
Defined.

End RksFacts.

(** ** The memoised basis loader *)

Section CgtoBasisFacts.

Import CgtoBasis.

Variable ext : externals.

Lemma read_elements_shorter (n : nat) (spdf : string) :
  forall lines alpha coeff angmom lines' alpha' coeff' angmom',
    read_elements ext n spdf lines alpha coeff angmom
      = Ok (lines', alpha', coeff', angmom') ->
    (length lines' <= length lines)%nat.
Proof.
  induction n as [|n IH]; intros lines alpha coeff angmom lines' a' c' g'.
  - cbn. intros [= <- _ _ _]. lia.
  - cbn [read_elements]. destruct lines as [|line rest]; [discriminate|].
    destruct (floats_of ext (py_split line)) as [elmts|e]; cbn [rbind];
      [|discriminate].
    assert (Hrec : forall a c g,
               read_elements ext n spdf rest a c g = Ok (lines', a', c', g') ->
               (length lines' <= length (line :: rest))%nat).
    { intros a c g H. apply IH in H. cbn [length]. lia. }
    destruct elmts as [|e0 [|e1 [|e2 [|e3 more]]]]; try apply Hrec.
    + destruct (to_angmom ext spdf); cbn [rbind]; [apply Hrec|discriminate].
    + destruct (str_index spdf 0); cbn [rbind]; [|discriminate].
      destruct (to_angmom ext _); cbn [rbind]; [|discriminate].
      destruct (str_index spdf 1); cbn [rbind]; [|discriminate].
      destruct (to_angmom ext _); cbn [rbind]; [apply Hrec|discriminate].
Qed.

(** The fuel [loadbasis] gives to the [while] loop is never used up. *)
Lemma read_shells_fuel (fuel : nat) :
  forall lines spdfs alphas coeffs,
    (length lines <= fuel)%nat ->
    read_shells ext fuel lines spdfs alphas coeffs <> None.
Proof.
  induction fuel as [|fuel IH]; intros lines spdfs alphas coeffs Hlen.
  - destruct lines; [discriminate|cbn in Hlen; lia].
  - destruct lines as [|line rest]; [discriminate|].
    cbn [read_shells].
    destruct (String.prefix "**" line); [discriminate|].
    destruct (py_split line) as [|spdf [|nelmt_str [|z [|y more]]]];
      try discriminate.
    destruct (py_int nelmt_str) as [nelmt|e]; [|discriminate].
    destruct (read_elements ext (Z.to_nat nelmt) spdf rest [] [] [])
      as [[[[lines2 alpha] coeff] angmom]|e] eqn:Hre; [|discriminate].
    apply IH. apply read_elements_shorter in Hre. cbn in Hlen. lia.
Qed.

Lemma loadbasis_loop_has_fuel (lines : list string) :
  read_shells ext (length lines) lines [] [] [] <> None.
Proof. apply read_shells_fuel. apply Nat.le_refl. Qed.

(** A call leaves every entry of [res_memory] where it is. *)
Lemma loadbasis_keeps_entries (self : CGTOBasis) (z atomz : Z) (c : bool)
    (w : world) (res : basis_res) :
  res_memory self !! atomz = Some res ->
  res_memory (snd (fst (loadbasis ext self z c w))) !! atomz = Some res.
Proof.
  intros Hin. unfold loadbasis.
  destruct (res_memory self !! z) as [r|] eqn:Hz; [exact Hin|].
  destruct (files w !! fnameformat self z) as [content|]; [|exact Hin].
  match goal with
  | |- context [match ?m with Ok _ => _ | Raise _ => _ end] =>
      destruct m as [[[i a] co]|e]
  end; [|exact Hin].
  cbn [fst snd res_memory].
  rewrite lookup_insert_ne; [exact Hin|].
  intros ->. rewrite Hin in Hz. discriminate.
Qed.

Lemma later_calls_keep_entries (calls : list (Z * bool * world)) :
  forall (self : CGTOBasis) (atomz : Z) (res : basis_res),
    res_memory self !! atomz = Some res ->
    res_memory (later_calls ext self calls) !! atomz = Some res.
Proof.
  induction calls as [|[[z c] w] calls IH]; intros self atomz res Hin;
    [exact Hin|].
  cbn [later_calls]. apply IH. now apply loadbasis_keeps_entries.
Qed.

Lemma loadbasis_success_is_cached (self self1 : CGTOBasis) (atomz : Z)
    (c : bool) (w w1 : world) (res : basis_res) :
  loadbasis ext self atomz c w = (Ok res, self1, w1) ->
  res_memory self1 !! atomz = Some res.
Proof.
  unfold loadbasis.
  destruct (res_memory self !! atomz) as [r|] eqn:Hz.
  - intros [= <- <- _]. exact Hz.
  - destruct (files w !! fnameformat self atomz) as [content|];
      [|discriminate].
    match goal with
    | |- context [match ?m with Ok _ => _ | Raise _ => _ end] =>
        destruct m as [[[i a] co]|e]
    end; [|discriminate].
    intros [= <- <- _]. cbn [res_memory]. apply lookup_insert_eq.
Qed.

(** C9: once [loadbasis(atomz, cartesian)] has succeeded, every later call
    with the same [atomz], after any further calls and whatever the value of
    [cartesian] and the state of the disk, returns the very same result object
    and leaves the object and the world as they are: no file is opened.  And
    a call for an [atomz] that is not cached and whose file does not exist
    raises [RuntimeError]. *)
Theorem loadbasis_caches_on_atomz_alone
    (self self1 : CGTOBasis) (atomz : Z) (cartesian : bool) (w w1 : world)
    (res : basis_res) :
  loadbasis ext self atomz cartesian w = (Ok res, self1, w1) ->
  (forall (calls : list (Z * bool * world)) (cartesian' : bool) (w' : world),
      loadbasis ext (later_calls ext self1 calls) atomz cartesian' w'
        = (Ok res, later_calls ext self1 calls, w')) /\
  (forall (self0 : CGTOBasis) (z : Z) (c : bool) (w0 : world),
      match res_memory self0 !! z, files w0 !! fnameformat self0 z with
      | None, None => loadbasis ext self0 z c w0 = (Raise RuntimeError, self0, w0)
      | _, _ => True
      end).
Proof.
  intros H. split.
  - intros calls c' w'.
    apply loadbasis_success_is_cached in H.
    apply (later_calls_keep_entries calls) in H.
    unfold loadbasis. now rewrite H.
  - intros self0 z c w0.
    destruct (res_memory self0 !! z) eqn:Hmem; [exact I|].
    destruct (files w0 !! fnameformat self0 z) eqn:Hfile; [exact I|].
    unfold loadbasis. now rewrite Hmem, Hfile.
Qed.

End CgtoBasisFacts.

(** ** The eigensolvers *)

Section EigpairsFacts.

Import Eigpairs.

Variable t : torch.

(** *** Which exceptions can come out *)

Lemma rbind_not_type_error {A B : Type} (m : result A) (k : A -> result B) :
  not_type_error m -> (forall a, not_type_error (k a)) ->
  not_type_error (rbind m k).
Proof.
  intros Hm Hk. destruct m as [a|e]; cbn; [apply Hk|].
  intros [= ->]. now apply Hm.
Qed.

Lemma bind_never_type_error {A B : Type} (m : M A) (k : A -> M B) :
  never_type_error m -> (forall a, never_type_error (k a)) ->
  never_type_error (bind m k).
Proof.
  intros Hm Hk w. unfold bind. specialize (Hm w).
  destruct (m w) as [[a|e] w']; cbn in *; [apply Hk|].
  intros [= ->]. now apply Hm.
Qed.

Lemma lift_never_type_error {A : Type} (r : result A) :
  not_type_error r -> never_type_error (lift r).
Proof. intros H w. exact H. Qed.

Lemma ret_never_type_error {A : Type} (a : A) : never_type_error (ret a).
Proof. intros w. discriminate. Qed.

Lemma zip_withM_not_type_error {A B C : Type} (f : A -> B -> result C) :
  (forall x y, not_type_error (f x y)) ->
  forall a b, not_type_error (zip_withM f a b).
Proof.
  intros Hf a. induction a as [|x a IH]; intros [|y b]; try discriminate.
  cbn [zip_withM]. apply rbind_not_type_error; [apply Hf|]. intros z.
  apply rbind_not_type_error; [apply IH|]. discriminate.
Qed.

Lemma mapM_not_type_error {A B : Type} (f : A -> result B) :
  (forall x, not_type_error (f x)) -> forall a, not_type_error (mapM f a).
Proof.
  intros Hf a. induction a as [|x a IH]; [discriminate|].
  cbn [mapM]. apply rbind_not_type_error; [apply Hf|]. intros z.
  apply rbind_not_type_error; [apply IH|]. discriminate.
Qed.

Lemma bcast_not_type_error {A B C : Type} (f : A -> B -> result C) :
  (forall x y, not_type_error (f x y)) ->
  forall a b, not_type_error (bcast f a b).
Proof.
  intros Hf a b. unfold bcast.
  destruct (Nat.eqb (length a) (length b));
    [now apply zip_withM_not_type_error|].
  destruct a as [|x [|x' a]], b as [|y [|y' b]];
    try discriminate; try (apply mapM_not_type_error; intros; apply Hf).
Qed.

Lemma bvec_op_not_type_error (f : Q -> Q -> Q) (a b : bvec) :
  not_type_error (bvec_op f a b).
Proof.
  apply bcast_not_type_error. intros x y.
  apply bcast_not_type_error. discriminate.
Qed.

Lemma abs_max_not_type_error (x : bvec) : not_type_error (abs_max x).
Proof. unfold abs_max. destruct (concat x); discriminate. Qed.

Lemma column_not_type_error (i : nat) (x : bmat) : not_type_error (column i x).
Proof.
  apply mapM_not_type_error. intros m. destruct (nth_error m i); discriminate.
Qed.

Lemma cat2_not_type_error (x y : bmat) : not_type_error (cat2 x y).
Proof.
  unfold cat2. destruct (Nat.eqb (length x) (length y)); [|discriminate].
  apply zip_withM_not_type_error. intros xm ym.
  destruct (uniformb (xm ++ ym)); discriminate.
Qed.

Lemma cat_list_not_type_error (ts : list bmat) : not_type_error (cat_list ts).
Proof.
  induction ts as [|x ts IH]; [discriminate|].
  cbn [cat_list]. destruct ts as [|y ts]; [discriminate|].
  apply rbind_not_type_error; [exact IH|]. intros r. apply cat2_not_type_error.
Qed.

Lemma converged_not_type_error neig eps evalT prev :
  not_type_error (converged neig eps evalT prev).
Proof.
  unfold converged. destruct prev as [p|]; [|discriminate].
  apply rbind_not_type_error; [apply bvec_op_not_type_error|]. intros d.
  apply rbind_not_type_error; [apply abs_max_not_type_error|]. discriminate.
Qed.

Lemma forM_never_type_error {A B : Type} (f : A -> M B) :
  (forall x, never_type_error (f x)) -> forall l, never_type_error (forM f l).
Proof.
  intros Hf l. induction l as [|x l IH]; [apply ret_never_type_error|].
  cbn [forM]. apply bind_never_type_error; [apply Hf|]. intros y.
  apply bind_never_type_error; [apply IH|]. intros ys.
  apply ret_never_type_error.
Qed.

Lemma for_loop_never_type_error {S : Type} (body : nat -> S -> M (ctl S)) :
  (forall m st, never_type_error (body m st)) ->
  forall ms st, never_type_error (for_loop body ms st).
Proof.
  intros Hb ms. induction ms as [|m ms IH]; intros st;
    [apply ret_never_type_error|].
  cbn [for_loop]. apply bind_never_type_error; [apply Hb|].
  intros [s|s]; [apply IH|apply ret_never_type_error].
Qed.

Lemma apply3_never_type_error A x params :
  never_type_error (apply3 A x params).
Proof. intros w. discriminate. Qed.

Lemma apply2_never_type_error A v params :
  never_type_error (apply2 A v params).
Proof. intros w. discriminate. Qed.

Lemma set_initial_v_never_type_error vinit nbatch na k :
  never_type_error (_set_initial_v t vinit nbatch na k).
Proof.
  intros w. unfold _set_initial_v.
  destruct (String.eqb vinit "eye"); [discriminate|].
  destruct (String.eqb vinit "randn");
    [destruct (randn t _ _ _ _); discriminate|].
  destruct (String.eqb vinit "random" || String.eqb vinit "rand");
    [destruct (rand t _ _ _ _); discriminate|discriminate].
Qed.

Lemma get_nbatch_not_type_error params : not_type_error (get_nbatch params).
Proof.
  unfold get_nbatch. destruct params as [|p ps]; [discriminate|].
  destruct (pshape p); discriminate.
Qed.

Lemma range3_not_type_error a b c : not_type_error (range3 a b c).
Proof. unfold range3. destruct (Nat.eqb c 0); discriminate. Qed.

Lemma loop_result_never_type_error neig st :
  never_type_error (loop_result neig st).
Proof.
  unfold loop_result. destruct (eigvalT st), (eigvecA st);
    intros w; discriminate.
Qed.

Ltac no_type_error :=
  repeat first
    [ apply ret_never_type_error
    | apply apply3_never_type_error
    | apply apply2_never_type_error
    | apply loop_result_never_type_error
    | apply set_initial_v_never_type_error
    | apply lift_never_type_error
    | apply converged_not_type_error
    | apply bvec_op_not_type_error
    | apply column_not_type_error
    | apply cat2_not_type_error
    | apply cat_list_not_type_error
    | apply get_nbatch_not_type_error
    | apply range3_not_type_error
    | solve [unfold not_type_error; discriminate]
    | (apply bind_never_type_error; [|intros ?]) ].

Lemma ritz_vector_never_type_error A params eps dA evalT evecA i :
  never_type_error (ritz_vector A params eps dA evalT evecA i).
Proof. unfold ritz_vector, finv_raw. no_type_error. Qed.

Lemma davidson_body_never_type_error A neig params e1 e2 ma na dA m st :
  never_type_error (davidson_body t A neig params e1 e2 ma na dA m st).
Proof.
  unfold davidson_body. cbv zeta. no_type_error.
  destruct a0; [no_type_error|].
  destruct (Nat.eqb _ na); no_type_error.
  apply forM_never_type_error. intros i. apply ritz_vector_never_type_error.
Qed.

Lemma lanczos_body_never_type_error A neig params e1 i st :
  never_type_error (lanczos_body t A neig params e1 i st).
Proof.
  unfold lanczos_body. cbv zeta. no_type_error.
  destruct (Nat.ltb (i + 1) neig); no_type_error.
  destruct a3; no_type_error.
Qed.

Lemma solve_never_type_error_when_square v A neig params opts na :
  _check_and_get_shape A = Ok na ->
  never_type_error (solve t v A neig params opts).
Proof.
  intros Hshape.
  destruct v; cbn [solve];
    unfold davidson, davidson_setup, lanczos, exacteig; cbv zeta;
    rewrite Hshape.
  - no_type_error. destruct a as [[[na' dA] ms] st0]. no_type_error.
    apply for_loop_never_type_error. intros m st.
    apply davidson_body_never_type_error.
  - no_type_error.
    apply for_loop_never_type_error. intros m st.
    apply lanczos_body_never_type_error.
  - no_type_error.
Qed.

(** C7: for each of the three variants: an operator whose declared shape
    [(n, m)] has [n <> m] makes the solver raise [TypeError] with the world
    untouched, so before any iteration, any application of the operator and
    even the seeding of the generator; and when [n = m] the shape check
    passes and the solver does not end in [TypeError], whatever else
    happens. *)
Theorem shape_mismatch_raises_before_anything
    (v : variant) (A : LinearModule) (neig : nat) (params : list param)
    (opts : options) (w : world) :
  if Nat.eqb (fst (shape A)) (snd (shape A))
  then _check_and_get_shape A = Ok (fst (shape A)) /\
       not_type_error (fst (solve t v A neig params opts w))
  else solve t v A neig params opts w = (Raise TypeError, w).
Proof.
  destruct (Nat.eqb (fst (shape A)) (snd (shape A))) eqn:E.
  - assert (Hc : _check_and_get_shape A = Ok (fst (shape A))).
    { unfold _check_and_get_shape. destruct (shape A) as [na nc]. cbn in *.
      now rewrite E. }
    split; [exact Hc|].
    apply (solve_never_type_error_when_square v A neig params opts _ Hc).
  - assert (Hc : _check_and_get_shape A = Raise TypeError).
    { unfold _check_and_get_shape. destruct (shape A) as [na nc]. cbn in *.
      now rewrite E. }
    destruct v; cbn [solve];
      unfold davidson, davidson_setup, lanczos, exacteig; cbv zeta;
      unfold bind, lift; now rewrite Hc.
Qed.

(** *** The preconditioner of the Davidson correction *)

Lemma Qltb_true (x y : Q) : Qltb x y = true <-> x < y.
Proof.
  unfold Qltb. rewrite negb_true_iff. split.
  - intros H. apply Qnot_le_lt. intros Hle.
    apply Qle_bool_iff in Hle. congruence.
  - intros H. destruct (Qle_bool y x) eqn:E; [|reflexivity].
    apply Qle_bool_iff in E. exfalso. exact (Qlt_not_le _ _ H E).
Qed.

Lemma Qltb_false (x y : Q) : Qltb x y = false <-> y <= x.
Proof.
  unfold Qltb. rewrite negb_false_iff. apply Qle_bool_iff.
Qed.

Lemma clamp_entry_floor (eps x : Q) :
  0 < eps -> eps <= Qabs (clamp_entry eps x).
Proof.
  intros Hpos. unfold clamp_entry.
  destruct (Qltb (Qabs x) eps) eqn:E.
  - rewrite Qabs_pos; [apply Qle_refl|]. now apply Qlt_le_weak.
  - now apply Qltb_false.
Qed.

Lemma clamp_entry_nonzero (eps x : Q) :
  0 < eps -> ~ clamp_entry eps x == 0.
Proof.
  intros Hpos Hz. pose proof (clamp_entry_floor eps x Hpos) as H.
  rewrite Hz in H. change (Qabs 0) with 0 in H.
  exact (Qlt_not_le _ _ Hpos H).
Qed.

(** *** Inversion of monadic steps *)

Lemma bind_ok {A B : Type} (m : M A) (k : A -> M B) w b w' :
  bind m k w = (Ok b, w') ->
  exists a w1, m w = (Ok a, w1) /\ k a w1 = (Ok b, w').
Proof.
  unfold bind. destruct (m w) as [[a|e] w1]; [|discriminate].
  intros H. now exists a, w1.
Qed.

Lemma lift_ok {A : Type} (r : result A) w a w' :
  lift r w = (Ok a, w') -> r = Ok a /\ w' = w.
Proof. unfold lift. now intros [= -> ->]. Qed.

Lemma ret_ok {A : Type} (x : A) w a w' :
  ret x w = (Ok a, w') -> a = x /\ w' = w.
Proof. unfold ret. now intros [= -> ->]. Qed.

Ltac minv H :=
  repeat match type of H with
    | bind _ _ _ = (Ok _, _) =>
        let a := fresh "a" in let w := fresh "w" in
        let H1 := fresh "Hstep" in
        apply bind_ok in H as (a & w & H1 & H)
    end.

(** *** Invariants of loops *)


Lemma Forall_repeat {A : Type} (P : A -> Prop) (x : A) (n : nat) :
  P x -> Forall P (repeat x n).
Proof. intros H. induction n; constructor; assumption. Qed.

Lemma zip_withM_length {A B C : Type} (f : A -> B -> result C) :
  forall x y z,
    zip_withM f x y = Ok z -> length x = length y -> length z = length x.
Proof.
  induction x as [|xm x IH]; intros [|ym y] z; cbn [zip_withM length];
    try discriminate.
  - now intros [= <-].
  - destruct (f xm ym) as [zb|e]; cbn [rbind]; [|discriminate].
    destruct (zip_withM f x y) as [zs|e] eqn:Hz; cbn [rbind]; [|discriminate].
    intros [= <-] [= Hlen]. cbn [length]. f_equal. exact (IH _ _ Hz Hlen).
Qed.

Lemma cat2_length (x y z : bmat) : cat2 x y = Ok z -> length z = length x.
Proof.
  unfold cat2. destruct (Nat.eqb_spec (length x) (length y)) as [Hl|];
    [|discriminate].
  intros H. exact (zip_withM_length _ _ _ _ H Hl).
Qed.

Lemma apply3_ok A x params w y w' :
  apply3 A x params w = (Ok y, w') -> y = forward A x params.
Proof. unfold apply3, bind, tick, ret. now intros [= <- _]. Qed.

(** *** Broadcasting goes by the shapes *)

Lemma zip_withM_alike {A A' B C C' : Type} (P : A -> A' -> Prop)
    (R : C -> C' -> Prop) (f : A -> B -> result C) (f' : A' -> B -> result C') :
  (forall x x' y, P x x' ->
     is_ok (f x y) = is_ok (f' x' y) /\
     forall c c', f x y = Ok c -> f' x' y = Ok c' -> R c c') ->
  forall a a', Forall2 P a a' ->
  forall b,
    is_ok (zip_withM f a b) = is_ok (zip_withM f' a' b) /\
    forall c c', zip_withM f a b = Ok c -> zip_withM f' a' b = Ok c' ->
                 Forall2 R c c'.
Proof.
  intros Hf a a' Ha. induction Ha as [|x x' a a' Hx _ IH]; intros b.
  - cbn [zip_withM]. split; [reflexivity|].
    intros c c' [= <-] [= <-]. constructor.
  - destruct b as [|y b]; cbn [zip_withM].
    { split; [reflexivity|]. intros c c' [= <-] [= <-]. constructor. }
    destruct (Hf x x' y Hx) as [Hok HR].
    destruct (f x y) as [z|e], (f' x' y) as [z'|e']; try discriminate;
      cbn [rbind]; [|split; [reflexivity|discriminate]].
    destruct (IH b) as [Hok' HR'].
    destruct (zip_withM f a b) as [zs|e], (zip_withM f' a' b) as [zs'|e'];
      try discriminate; cbn [rbind]; [|split; [reflexivity|discriminate]].
    split; [reflexivity|]. intros c c' [= <-] [= <-].
    constructor; [now apply HR|now apply HR'].
Qed.

Lemma mapM_left_as_zip {A B C : Type} (f : A -> B -> result C) (y : B)
    (a : list A) :
  mapM (fun x => f x y) a = zip_withM f a (repeat y (length a)).
Proof.
  induction a as [|x a IH]; [reflexivity|].
  cbn [mapM length repeat zip_withM]. now rewrite IH.
Qed.

Lemma mapM_right_as_zip {A B C : Type} (f : A -> B -> result C) (x : A)
    (b : list B) :
  mapM (fun y => f x y) b = zip_withM f (repeat x (length b)) b.
Proof.
  induction b as [|y b IH]; [reflexivity|].
  cbn [mapM length repeat zip_withM]. now rewrite IH.
Qed.

Lemma Forall2_repeat {A A' : Type} (P : A -> A' -> Prop) (x : A) (x' : A')
    (n : nat) :
  P x x' -> Forall2 P (repeat x n) (repeat x' n).
Proof. intros H. induction n; cbn [repeat]; constructor; assumption. Qed.

Lemma bcast_unequal {A B C : Type} (f : A -> B -> result C)
    (a : list A) (b : list B) :
  Nat.eqb (length a) (length b) = false ->
  bcast f a b =
    match b with
    | [y] => mapM (fun x => f x y) a
    | _ => match a with
           | [x] => mapM (fun y => f x y) b
           | _ => Raise RuntimeError
           end
    end.
Proof.
  intros H. unfold bcast. rewrite H.
  destruct a as [|x [|x2 a]], b as [|y [|y2 b]]; reflexivity.
Qed.

Lemma bcast_alike {A A' B C C' : Type} (P : A -> A' -> Prop)
    (R : C -> C' -> Prop) (f : A -> B -> result C) (f' : A' -> B -> result C') :
  (forall x x' y, P x x' ->
     is_ok (f x y) = is_ok (f' x' y) /\
     forall c c', f x y = Ok c -> f' x' y = Ok c' -> R c c') ->
  forall a a' b, Forall2 P a a' ->
    is_ok (bcast f a b) = is_ok (bcast f' a' b) /\
    forall c c', bcast f a b = Ok c -> bcast f' a' b = Ok c' ->
                 Forall2 R c c'.
Proof.
  intros Hf a a' b Ha.
  pose proof (Forall2_length _ _ _ Ha) as Hlen.
  destruct (Nat.eqb (length a) (length b)) eqn:E.
  { unfold bcast. rewrite <- Hlen, E. now apply (zip_withM_alike P R). }
  rewrite (bcast_unequal f a b E).
  rewrite (bcast_unequal f' a' b) by (rewrite <- Hlen; exact E).
  destruct b as [|y [|y' b]].
  - destruct Ha as [|x x' a a' Hx Ha]; [split; [reflexivity|discriminate]|].
    destruct Ha as [|x2 x2' a a' Hx2 Ha];
      [|split; [reflexivity|discriminate]].
    cbn [mapM]. split; [reflexivity|]. intros c c' [= <-] [= <-]. constructor.
  - rewrite !mapM_left_as_zip, <- Hlen.
    now apply (zip_withM_alike P R).
  - destruct Ha as [|x x' a a' Hx Ha]; [split; [reflexivity|discriminate]|].
    destruct Ha as [|x2 x2' a a' Hx2 Ha];
      [|split; [reflexivity|discriminate]].
    rewrite !mapM_right_as_zip.
    apply (zip_withM_alike P R); [exact Hf|].
    apply Forall2_repeat. exact Hx.
Qed.

Lemma bvec_op_alike (f g : Q -> Q -> Q) (a a' b : bvec) :
  shaped_alike a a' ->
  is_ok (bvec_op f a b) = is_ok (bvec_op g a' b) /\
  forall c c', bvec_op f a b = Ok c -> bvec_op g a' b = Ok c' ->
               shaped_alike c c'.
Proof.
  intros Ha. unfold bvec_op, shaped_alike.
  apply (bcast_alike (fun r r' : vec => length r = length r')
           (fun r r' : vec => length r = length r')); [|exact Ha].
  intros x x' y Hx.
  assert (Hx2 : Forall2 (fun _ _ : Q => True) x x').
  { clear -Hx. revert x' Hx. induction x as [|q x IH]; intros [|q' x'] H;
      try discriminate; constructor; [exact I|].
    apply IH. now injection H. }
  destruct (bcast_alike (fun _ _ : Q => True) (fun _ _ : Q => True)
              (fun p q : Q => Ok (f p q)) (fun p q : Q => Ok (g p q))
              ltac:(intros; split; [reflexivity|trivial]) x x' y Hx2)
    as [Hok HR].
  split; [exact Hok|]. intros c c' Hc Hc'.
  exact (Forall2_length _ _ _ (HR c c' Hc Hc')).
Qed.

Lemma clamp_reciprocal_shape (eps : Q) (a : bvec) :
  shaped_alike a (reciprocal (clamp eps a)).
Proof.
  unfold shaped_alike, reciprocal, clamp.
  induction a as [|r a IH]; cbn [map]; constructor; [|exact IH].
  now rewrite !length_map.
Qed.

Lemma shaped_alike_sym (a b : bvec) : shaped_alike a b -> shaped_alike b a.
Proof. unfold shaped_alike. induction 1; constructor; auto. Qed.

Lemma shaped_alike_trans (a b c : bvec) :
  shaped_alike a b -> shaped_alike b c -> shaped_alike a c.
Proof.
  unfold shaped_alike. intros H. revert c.
  induction H as [|x y a b Hxy _ IH]; intros c Hc; inversion Hc; subst;
    constructor; [congruence|now apply IH].
Qed.

(** *** The correction vector of one Ritz pair *)

Lemma apply2_ok A v params w y w' :
  apply2 A v params w = (Ok y, w') ->
  y = squeeze (forward A (unsqueeze v) params).
Proof. unfold apply2, apply3, bind, tick, ret. now intros [= <- _]. Qed.

(** What [ritz_vector] answers, apart from the count of applications. *)
Lemma ritz_vector_result A params eps dA evalT evecA i w :
  fst (ritz_vector A params eps dA evalT evecA i w) =
    (let! finv0 := finv_raw dA evalT i in
     let! d := ritz_residual A params evalT evecA i in
     let! q := bvec_op Qmult (reciprocal (clamp eps finv0)) d in
     Ok (unsqueeze q)).
Proof.
  cbv beta delta [ritz_vector ritz_residual bind lift apply2 apply3 tick ret].
  cbv zeta.
  destruct (finv_raw dA evalT i) as [finv0|e]; cbn [rbind fst];
    [|reflexivity].
  destruct (column i evecA) as [phi|e]; cbn [rbind fst]; [|reflexivity].
  destruct (bvec_op Qmult (slice1 i evalT) phi) as [lam|e]; cbn [rbind fst];
    [|reflexivity].
  destruct (bvec_op Qminus _ lam) as [d|e]; cbn [rbind fst]; [|reflexivity].
  destruct (bvec_op Qmult _ d) as [q|e]; reflexivity.
Qed.

Lemma ritz_vector_ok A params eps dA evalT evecA i w r w' :
  ritz_vector A params eps dA evalT evecA i w = (Ok r, w') ->
  exists finv0 d q : bvec,
    finv_raw dA evalT i = Ok finv0 /\
    ritz_residual A params evalT evecA i = Ok d /\
    bvec_op Qmult (reciprocal (clamp eps finv0)) d = Ok q /\
    r = unsqueeze q.
Proof.
  intros H. apply (f_equal fst) in H. rewrite ritz_vector_result in H.
  cbn [fst] in H.
  destruct (finv_raw dA evalT i) as [finv0|e]; cbn [rbind] in H;
    [|discriminate].
  destruct (ritz_residual A params evalT evecA i) as [d|e]; cbn [rbind] in H;
    [|discriminate].
  destruct (bvec_op Qmult _ d) as [q|e] eqn:Hq; cbn [rbind] in H;
    [|discriminate].
  injection H as <-. now exists finv0, d, q.
Qed.

(** Whether the step raises goes by the shape of the diagonal, not by the
    values of the denominators or the floor. *)
Lemma ritz_vector_raises_by_shape A params eps eps' dA dA' evalT evecA i w :
  shaped_alike dA dA' ->
  is_ok (fst (ritz_vector A params eps' dA' evalT evecA i w))
  = is_ok (fst (ritz_vector A params eps dA evalT evecA i w)).
Proof.
  intros Hs. rewrite !ritz_vector_result. unfold finv_raw.
  destruct (bvec_op_alike Qminus Qminus dA dA' (slice1 i evalT) Hs)
    as [Hok Hshape].
  destruct (bvec_op Qminus dA (slice1 i evalT)) as [finv0|e],
           (bvec_op Qminus dA' (slice1 i evalT)) as [finv0'|e'];
    try discriminate; cbn [rbind]; [|reflexivity].
  specialize (Hshape _ _ eq_refl eq_refl).
  destruct (ritz_residual A params evalT evecA i) as [d|e]; cbn [rbind];
    [|reflexivity].
  assert (Hs2 : shaped_alike (reciprocal (clamp eps finv0))
                  (reciprocal (clamp eps' finv0'))).
  { eapply shaped_alike_trans;
      [apply shaped_alike_sym, clamp_reciprocal_shape|].
    eapply shaped_alike_trans; [exact Hshape|apply clamp_reciprocal_shape]. }
  destruct (bvec_op_alike Qmult Qmult _ _ d Hs2) as [Hok2 _].
  destruct (bvec_op Qmult (reciprocal (clamp eps finv0)) d),
           (bvec_op Qmult (reciprocal (clamp eps' finv0')) d);
    try discriminate; reflexivity.
Qed.

Lemma forM_ok {A B : Type} (f : A -> M B) :
  forall l w ys w',
    forM f l w = (Ok ys, w') ->
    Forall2 (fun x y => exists w1 w2, f x w1 = (Ok y, w2)) l ys.
Proof.
  induction l as [|x l IH]; intros w ys w'; cbn [forM].
  - intros H. apply ret_ok in H as [-> _]. constructor.
  - intros H. apply bind_ok in H as (y & w1 & Hy & H).
    apply bind_ok in H as (ys' & w2 & Hys & H).
    apply ret_ok in H as [-> _]. constructor; [now exists w, w1|].
    exact (IH _ _ _ Hys).
Qed.

Lemma clamp_pointwise (eps : Q) (finv0 : bvec) :
  Forall2 (Forall2 (fun x y =>
             y = (if Qltb (Qabs x) eps then eps else x)))
    finv0 (clamp eps finv0).
Proof.
  unfold clamp. induction finv0 as [|r rs IH]; constructor; [|exact IH].
  induction r as [|x r IHr]; constructor; [reflexivity|exact IHr].
Qed.

Lemma clamp_floor (eps : Q) (finv0 : bvec) :
  0 < eps ->
  Forall (Forall (fun y => eps <= Qabs y /\ ~ y == 0)) (clamp eps finv0).
Proof.
  intros Hpos. unfold clamp.
  induction finv0 as [|r rs IH]; constructor; [|exact IH].
  induction r as [|x r IHr]; constructor; [|exact IHr].
  split; [now apply clamp_entry_floor|now apply clamp_entry_nonzero].
Qed.

Lemma reciprocal_inverts (eps : Q) (finv0 : bvec) :
  0 < eps ->
  Forall2 (Forall2 (fun y f => y * f == 1))
    (clamp eps finv0) (reciprocal (clamp eps finv0)).
Proof.
  intros Hpos. unfold clamp, reciprocal.
  induction finv0 as [|r rs IH]; constructor; [|exact IH].
  induction r as [|x r IHr]; constructor; [|exact IHr].
  apply Qmult_inv_r. now apply clamp_entry_nonzero.
Qed.

(** C4, as amended: with a positive [eps_cond], in every iteration of
    [davidson] that goes on to a next one and for every Ritz pair [i] it
    corrects: the correction appended to [ritz_list] is the residual
    [A phi - lambda_i phi] times the reciprocal of the clamped denominators,
    where an entry of [dA - eigvalT[:,i:i+1]] whose magnitude is below
    [eps_cond] has been replaced by [eps_cond] and every other entry kept;
    every clamped entry has magnitude at least [eps_cond], none is zero, and
    the reciprocal is a true inverse of each.  The next trial basis is the
    QR factor of [V] extended by these corrections, normalised.  Whether the
    step of a Ritz pair raises goes by the shape of the diagonal alone,
    never by the values of the denominators or by [eps_cond]. *)
Theorem davidson_denominators_clamped
    (A : LinearModule) (neig : nat) (params : list param)
    (min_eps0 eps_cond0 : Q) (max_addition0 na : nat) (dA : bvec)
    (m : nat) (st st' : lstate) (w w' : world) :
  0 < eps_cond0 ->
  davidson_body t A neig params min_eps0 eps_cond0 max_addition0 na dA m st w
    = (Ok (Continue st'), w') ->
  let T := projected Davidson A params (V st) in
  let evalT := symeig_vals t T in
  let evecA := bmm (V st) (symeig_vecs t T) in
  exists (ritz_list : list bmat) (ritz0 Va : bmat),
    Forall2
      (fun (i : nat) (r : bmat) =>
         exists finv0 d q : bvec,
           finv_raw dA evalT i = Ok finv0 /\
           ritz_residual A params evalT evecA i = Ok d /\
           Forall2 (Forall2 (fun x y =>
                      y = (if Qltb (Qabs x) eps_cond0 then eps_cond0 else x)))
             finv0 (clamp eps_cond0 finv0) /\
           Forall (Forall (fun y => eps_cond0 <= Qabs y /\ ~ y == 0))
             (clamp eps_cond0 finv0) /\
           Forall2 (Forall2 (fun y f => y * f == 1))
             (clamp eps_cond0 finv0) (reciprocal (clamp eps_cond0 finv0)) /\
           bvec_op Qmult (reciprocal (clamp eps_cond0 finv0)) d = Ok q /\
           r = unsqueeze q)
      (seq 0 (Nat.min (ncols evalT) max_addition0)) ritz_list /\
    cat_list ritz_list = Ok ritz0 /\
    cat2 (V st) (normalize_cols t ritz0) = Ok Va /\
    V st' = map (qr t) Va /\
    forall (i : nat) (w1 : world) (eps' : Q) (dA' : bvec),
      shaped_alike dA dA' ->
      is_ok (fst (ritz_vector A params eps' dA' evalT evecA i w1))
      = is_ok (fst (ritz_vector A params eps_cond0 dA evalT evecA i w1)).
Proof.
  intros Hpos H. cbv zeta. cbn [projected].
  unfold davidson_body in H. cbv zeta in H.
  apply bind_ok in H as (AV & w1 & HAV & H).
  apply apply3_ok in HAV. subst AV.
  apply bind_ok in H as (conv & w2 & _ & H).
  destruct conv.
  { apply ret_ok in H as [[=] _]. }
  destruct (Nat.eqb _ na).
  { apply ret_ok in H as [[=] _]. }
  apply bind_ok in H as (ritz_list & w3 & Hritz & H).
  apply bind_ok in H as (ritz0 & w4 & Hcat & H).
  apply lift_ok in Hcat as [Hcat _].
  apply bind_ok in H as (Va & w5 & HVa & H).
  apply lift_ok in HVa as [HVa _].
  apply ret_ok in H as [[= ->] _].
  exists ritz_list, ritz0, Va.
  split; [|split; [exact Hcat|split; [exact HVa|split; [reflexivity|]]]].
  - apply forM_ok in Hritz.
    eapply List.Forall2_impl; [|exact Hritz].
    intros i r (u1 & u2 & Hr).
    apply ritz_vector_ok in Hr as (finv0 & d & q & H1 & H2 & H3 & H4).
    exists finv0, d, q.
    split; [exact H1|]. split; [exact H2|].
    split; [apply clamp_pointwise|]. split; [now apply clamp_floor|].
    split; [now apply reciprocal_inverts|]. now split.
  - intros i u eps' dA' Hs. now apply ritz_vector_raises_by_shape.
Qed.

(** *** Prefixes of ascending lists *)





Section Ascending.

(** What [torch.symeig] promises: as many eigenvalues as the matrix has
    columns, in ascending order; and the shape of random tensors. *)
Hypothesis symeig_ascending : forall T : mat, Sorted Qle (fst (symeig t T)).
Hypothesis symeig_count : forall T : mat, length (fst (symeig t T)) = length T.
Hypothesis randn_shape :
  forall g nbatch na k, has_shape (fst (randn t g nbatch na k)) nbatch na k.
Hypothesis rand_shape :
  forall g nbatch na k, has_shape (fst (rand t g nbatch na k)) nbatch na k.










End Ascending.

(** *** The identity columns *)

Lemma zip_with_map_same {A B C D : Type} (f : B -> C -> D)
    (g : A -> B) (h : A -> C) (l : list A) :
  zip_with f (map g l) (map h l) = map (fun x => f (g x) (h x)) l.
Proof.
  induction l as [|x l IH]; [reflexivity|]. cbn [map zip_with]. now rewrite IH.
Qed.

Lemma qsum_cons (x : Q) (l : vec) : qsum (x :: l) = x + qsum l.
Proof. reflexivity. Qed.

Ltac nat_tests :=
  repeat match goal with
    | |- context [Nat.eqb ?a ?b] => destruct (Nat.eqb_spec a b)
    | |- context [Nat.leb ?a ?b] => destruct (Nat.leb_spec a b)
    | |- context [Nat.ltb ?a ?b] => destruct (Nat.ltb_spec a b)
    end.

Lemma qsum_unit_products (i j n : nat) :
  forall s,
    qsum (map (fun k => (if Nat.eqb k i then 1 else 0) *
                        (if Nat.eqb k j then 1 else 0)) (seq s n))
    == if Nat.eqb i j && Nat.leb s i && Nat.ltb i (s + n) then 1 else 0.
Proof.
  induction n as [|n IH]; intros s.
  - cbn [seq map]. nat_tests; cbn; try reflexivity; exfalso; lia.
  - cbn [seq map]. rewrite qsum_cons, IH.
    nat_tests; cbn; try reflexivity; exfalso; lia.
Qed.

Lemma dot_eye_cols (na i j : nat) :
  dot (eye_col na i) (eye_col na j)
  == if Nat.eqb i j && Nat.ltb i na then 1 else 0.
Proof.
  unfold dot, eye_col. rewrite zip_with_map_same, qsum_unit_products.
  nat_tests; cbn; try reflexivity; exfalso; lia.
Qed.

Lemma nth_error_eye (na k i : nat) (c : vec) :
  nth_error (eye na k) i = Some c -> (i < k)%nat /\ c = eye_col na i.
Proof.
  unfold eye. rewrite nth_error_map, nth_error_seq.
  destruct (Nat.ltb_spec i k); cbn; [|discriminate].
  intros [= <-]. now split.
Qed.

Lemma eye_orthonormal (na k : nat) : (k <= na)%nat -> orthonormal (eye na k).
Proof.
  intros Hk i j ci cj Hi Hj.
  apply nth_error_eye in Hi as [Hi ->]. apply nth_error_eye in Hj as [Hj ->].
  rewrite dot_eye_cols. nat_tests; cbn; try reflexivity; exfalso; lia.
Qed.

Lemma eye_col_length (na j : nat) : length (eye_col na j) = na.
Proof. unfold eye_col. now rewrite length_map, length_seq. Qed.

Lemma eye_columns (na k : nat) :
  length (eye na k) = k /\ Forall (fun c => length c = na) (eye na k).
Proof.
  unfold eye. split; [now rewrite length_map, length_seq|].
  induction (seq 0 k) as [|j l IH]; constructor;
    [apply eye_col_length|exact IH].
Qed.

Lemma Forall_map_intro {A B : Type} (P : B -> Prop) (f : A -> B) (l : list A) :
  Forall (fun x => P (f x)) l -> Forall P (map f l).
Proof. induction 1; constructor; assumption. Qed.

(** *** The initial subspace *)

Section InitialSubspace.

(** What torch promises: the shape of random tensors, the shape of the
    reduced QR factor of an [n]-row matrix, and that its columns are
    orthonormal. *)
Hypothesis randn_shape :
  forall g nbatch na k, has_shape (fst (randn t g nbatch na k)) nbatch na k.
Hypothesis rand_shape :
  forall g nbatch na k, has_shape (fst (rand t g nbatch na k)) nbatch na k.
Hypothesis qr_reduced :
  forall (m : mat) (n : nat),
    Forall (fun c => length c = n) m ->
    length (qr t m) = Nat.min n (length m) /\
    Forall (fun c => length c = n) (qr t m).
Hypothesis qr_orthonormal : forall m : mat, orthonormal (qr t m).

Lemma qr_of_shape (x : bmat) (nbatch na k : nat) :
  has_shape x nbatch na k ->
  has_shape (map (qr t) x) nbatch na (Nat.min na k).
Proof.
  intros [Hlen Hall]. split; [now rewrite length_map|].
  apply Forall_map_intro. eapply Forall_impl; [exact Hall|].
  cbn. intros m [Hk Hc]. destruct (qr_reduced m na Hc) as [H1 H2].
  split; [exact (eq_trans H1 (f_equal (Nat.min na) Hk))|exact H2].
Qed.

(** C8: with [nguess <= na]: for a known strategy, [_set_initial_v] returns
    the same tensor and leaves the generator in the same state from whatever
    two worlds it is called in, the tensor has shape [(nbatch, na, nguess)]
    and its columns are orthonormal in every batch; for any other name it
    raises [ValueError]. *)
Theorem initial_subspace_is_deterministic_and_orthonormal
    (vinit_type : string) (nbatch na nguess : nat) (w1 w2 : world) :
  (nguess <= na)%nat ->
  if known_strategy vinit_type then
    exists V0 : bmat,
      fst (_set_initial_v t vinit_type nbatch na nguess w1) = Ok V0 /\
      fst (_set_initial_v t vinit_type nbatch na nguess w2) = Ok V0 /\
      rng (snd (_set_initial_v t vinit_type nbatch na nguess w1)) =
        rng (snd (_set_initial_v t vinit_type nbatch na nguess w2)) /\
      has_shape V0 nbatch na nguess /\
      Forall orthonormal V0
  else
    fst (_set_initial_v t vinit_type nbatch na nguess w1) = Raise ValueError.
Proof.
  intros Hle. unfold known_strategy, _set_initial_v. cbn [rng napply].
  destruct (String.eqb vinit_type "eye"); cbn [orb].
  { exists (repeat (eye na nguess) nbatch). repeat split.
    - apply repeat_length.
    - apply Forall_repeat. apply eye_columns.
    - apply Forall_repeat. now apply eye_orthonormal. }
  destruct (String.eqb vinit_type "randn"); cbn [orb].
  { pose proof (randn_shape (manual_seed t 12421) nbatch na nguess) as Hs.
    destruct (randn t _ _ _ _) as [R g]. cbn [fst snd rng] in *.
    exists (map (qr t) R). repeat split.
    - now rewrite length_map; destruct Hs.
    - apply qr_of_shape in Hs. rewrite (Nat.min_r _ _ Hle) in Hs. apply Hs.
    - apply Forall_map_intro, Forall_forall. intros m _. apply qr_orthonormal. }
  destruct (String.eqb vinit_type "random" || String.eqb vinit_type "rand");
    [|reflexivity].
  pose proof (rand_shape (manual_seed t 12421) nbatch na nguess) as Hs.
  destruct (rand t _ _ _ _) as [R g]. cbn [fst snd rng] in *.
  exists (map (qr t) R). repeat split.
  - now rewrite length_map; destruct Hs.
  - apply qr_of_shape in Hs. rewrite (Nat.min_r _ _ Hle) in Hs. apply Hs.
  - apply Forall_map_intro, Forall_forall. intros m _. apply qr_orthonormal.
Qed.

(** *** The width of the Davidson subspace *)

Lemma zip_withM_ok {A B C : Type} (f : A -> B -> result C) :
  forall x y z,
    zip_withM f x y = Ok z ->
    Forall (fun zb => exists xm ym, In xm x /\ f xm ym = Ok zb) z.
Proof.
  induction x as [|xm x IH]; intros [|ym y] z; cbn [zip_withM];
    try (intros [= <-]; constructor).
  destruct (f xm ym) as [zb|e] eqn:Hf; cbn [rbind]; [|discriminate].
  destruct (zip_withM f x y) as [zs|e] eqn:Hz; cbn [rbind]; [|discriminate].
  intros [= <-]. constructor.
  - exists xm, ym. split; [now left|exact Hf].
  - eapply Forall_impl; [exact (IH _ _ Hz)|].
    cbn. intros zb' (xm' & ym' & Hin & H).
    exists xm', ym'. split; [now right|exact H].
Qed.

Lemma cat2_ok (x y z : bmat) :
  cat2 x y = Ok z ->
  Forall (fun zb => exists xm ym,
              In xm x /\ zb = xm ++ ym /\ uniformb (xm ++ ym) = true) z.
Proof.
  unfold cat2. destruct (Nat.eqb (length x) (length y)); [|discriminate].
  intros H. apply zip_withM_ok in H.
  eapply Forall_impl; [exact H|]. cbn. intros zb (xm & ym & Hin & Hf).
  exists xm, ym. destruct (uniformb (xm ++ ym)); [|discriminate].
  injection Hf as <-. now repeat split.
Qed.

Lemma uniformb_columns (c0 : vec) (m : mat) :
  uniformb (c0 :: m) = true ->
  Forall (fun c => length c = length c0) (c0 :: m).
Proof.
  unfold uniformb, nrows. cbn [hd]. intros H.
  induction (c0 :: m) as [|c l IH]; constructor; cbn [forallb] in H;
    apply andb_true_iff in H as [H1 H2].
  - now apply Nat.eqb_eq.
  - now apply IH.
Qed.

Lemma ncols_of_ok (na : nat) (x : bmat) :
  subspace_ok na x -> na = 0%nat -> ncols x = 0%nat.
Proof.
  intros Hok ->. unfold ncols. destruct Hok as [|m x [Hlen _] _]; cbn [hd].
  - reflexivity.
  - apply Nat.le_0_r in Hlen. exact Hlen.
Qed.

Lemma for_trace_invariant {S : Type} (P : S -> Prop)
    (body : nat -> S -> M (ctl S)) :
  (forall m st w s w',
      P st -> body m st w = (Ok (Continue s), w') -> P s) ->
  forall ms st w, P st -> Forall P (for_trace body ms st w).
Proof.
  intros Hbody ms. induction ms as [|m ms IH]; intros st w HP; cbn [for_trace].
  - constructor.
  - constructor; [exact HP|].
    destruct (body m st w) as [[[s|s]|e] w'] eqn:Hb; try constructor.
    apply IH. exact (Hbody _ _ _ _ _ HP Hb).
Qed.

Lemma davidson_body_keeps_subspace_ok A neig params e1 e2 ma na dA m st w s w' :
  subspace_ok na (V st) ->
  davidson_body t A neig params e1 e2 ma na dA m st w = (Ok (Continue s), w') ->
  subspace_ok na (V s).
Proof.
  unfold davidson_body. cbv zeta. intros Hok H.
  apply bind_ok in H as (AV & wa & _ & H).
  apply bind_ok in H as (conv & wb & _ & H).
  destruct conv; [apply ret_ok in H as [[=] _]|].
  destruct (Nat.eqb_spec (ncols (V st)) na) as [|Hne];
    [apply ret_ok in H as [[=] _]|].
  assert (Hna : na <> 0%nat).
  { intros Hz. apply Hne. rewrite (ncols_of_ok na _ Hok Hz). now symmetry. }
  apply bind_ok in H as (ritz_list & wc & _ & H).
  apply bind_ok in H as (ritz0 & wd & _ & H).
  apply bind_ok in H as (Va & we & Hcat & H).
  apply lift_ok in Hcat as [Hcat _]. apply ret_ok in H as [[= ->] _].
  cbn [V]. apply cat2_ok in Hcat.
  apply Forall_map_intro. eapply Forall_impl; [exact Hcat|].
  cbn. intros zb (xm & ym & Hin & -> & Hu).
  unfold subspace_ok in Hok. rewrite List.Forall_forall in Hok.
  destruct (Hok _ Hin) as (Hlen & Hcols & Hnil).
  destruct xm as [|c0 xm]; [now specialize (Hnil eq_refl)|].
  assert (Hc0 : length c0 = na) by now inversion Hcols.
  cbn [app] in Hu |- *. apply uniformb_columns in Hu. rewrite Hc0 in Hu.
  destruct (qr_reduced _ na Hu) as [H1 H2].
  repeat split.
  - eapply Nat.le_trans; [apply Nat.eq_le_incl; exact H1|apply Nat.le_min_l].
  - exact H2.
  - intros Hq. apply (f_equal (@length vec)) in Hq.
    pose proof (eq_trans (eq_sym H1) Hq) as H0. cbn [length] in H0. lia.
Qed.

Lemma set_initial_v_subspace_ok vinit nbatch na nguess w V0 w' :
  nguess <> 0%nat ->
  (vinit = "eye"%string -> (nguess <= na)%nat) ->
  _set_initial_v t vinit nbatch na nguess w = (Ok V0, w') ->
  subspace_ok na V0.
Proof.
  intros Hn Heye. unfold _set_initial_v.
  destruct (String.eqb_spec vinit "eye") as [Hv|_].
  { intros [= <- _]. apply Forall_repeat.
    destruct (eye_columns na nguess) as [H1 H2]. repeat split.
    - eapply Nat.le_trans; [apply Nat.eq_le_incl; exact H1|now apply Heye].
    - exact H2.
    - intros Hnil. apply (f_equal (@length vec)) in Hnil.
      pose proof (eq_trans (eq_sym H1) Hnil) as H0. cbn [length] in H0. lia. }
  assert (Hqr : forall R, has_shape R nbatch na nguess ->
                          subspace_ok na (map (qr t) R)).
  { intros R HR. apply qr_of_shape in HR as [_ HR].
    eapply Forall_impl; [exact HR|]. cbn. intros q [H1 H2]. repeat split.
    - eapply Nat.le_trans; [apply Nat.eq_le_incl; exact H1|apply Nat.le_min_l].
    - exact H2.
    - intros Hnil. apply (f_equal (@length vec)) in Hnil.
      pose proof (eq_trans (eq_sym H1) Hnil) as H0. cbn [length] in H0. lia. }
  destruct (String.eqb vinit "randn").
  { pose proof (randn_shape (manual_seed t 12421) nbatch na nguess) as Hs.
    cbn [rng]. destruct (randn t _ _ _ _) as [R g]. intros [= <- _].
    now apply Hqr. }
  destruct (String.eqb vinit "random" || String.eqb vinit "rand");
    [|discriminate].
  pose proof (rand_shape (manual_seed t 12421) nbatch na nguess) as Hs.
  cbn [rng]. destruct (rand t _ _ _ _) as [R g]. intros [= <- _].
  now apply Hqr.
Qed.

(** X5: the subspace [davidson] starts an iteration with has at most [na]
    columns in every batch, [na] being the operator dimension, unless the
    first guess is "eye" with more than [na] columns: the reduced QR at the
    end of each iteration keeps it so. *)
Theorem davidson_subspace_bounded_after_valid_guess
    (A : LinearModule) (neig : nat) (params : list param) (opts : options)
    (w : world) :
  (lower (get_or (v_init opts) "randn") = "eye"%string ->
   (get_or (nguess opts) (neig + 1) <= fst (shape A))%nat) ->
  Forall (fun st => Forall (fun m => (length m <= fst (shape A))%nat) (V st))
    (davidson_iterates t A neig params opts w).
Proof.
  intros Heye. unfold davidson_iterates. cbv zeta.
  destruct (davidson_setup t A neig params opts w)
    as [[[[[na dA] ms] st0]|e] w0] eqn:Hsetup; [|constructor].
  unfold davidson_setup in Hsetup. cbv zeta in Hsetup.
  apply bind_ok in Hsetup as (na' & wa & Hshape & Hsetup).
  apply bind_ok in Hsetup as (nbatch & wb & _ & Hsetup).
  apply bind_ok in Hsetup as (V0 & wc & Hinit & Hsetup).
  apply bind_ok in Hsetup as (ms' & wd & Hrange & Hsetup).
  apply ret_ok in Hsetup as [[= -> -> -> ->] _].
  apply lift_ok in Hshape as [Hshape _]. apply lift_ok in Hrange as [Hrange _].
  assert (Hna : na' = fst (shape A)).
  { unfold _check_and_get_shape in Hshape. destruct (shape A) as [n1 n2].
    destruct (negb (Nat.eqb n1 n2)); [discriminate|]. now injection Hshape. }
  assert (Hn : get_or (nguess opts) (neig + 1)%nat <> 0%nat).
  { unfold range3 in Hrange. intros Hz. rewrite Hz in Hrange. discriminate. }
  rewrite <- Hna in *.
  apply set_initial_v_subspace_ok in Hinit; [|exact Hn|exact Heye].
  eapply Forall_impl.
  - apply (for_trace_invariant (fun st => subspace_ok na' (V st)));
      [|exact Hinit].
    intros m st w1 s w1'. apply davidson_body_keeps_subspace_ok.
  - cbn. intros st Hok. eapply Forall_impl; [exact Hok|].
    cbn. now intros q [H _].
Qed.

End InitialSubspace.

End EigpairsFacts.

(** ** The statements at concrete inputs *)

Section Instances.

Import Eigpairs Fixtures.

(** *** The stand-in for torch keeps torch's promises *)




Lemma constant_shape (x : Q) (nbatch na k : nat) :
  has_shape (repeat (repeat (repeat x na) k) nbatch) nbatch na k.
Proof.
  split; [apply repeat_length|]. apply Forall_repeat.
  split; [apply repeat_length|]. apply Forall_repeat, repeat_length.
Qed.

Lemma toy_randn_shape g nbatch na k :
  has_shape (fst (randn toy_torch g nbatch na k)) nbatch na k.
Proof. apply constant_shape. Qed.

Lemma toy_rand_shape g nbatch na k :
  has_shape (fst (rand toy_torch g nbatch na k)) nbatch na k.
Proof. apply constant_shape. Qed.

Lemma toy_qr_reduced (m : mat) (n : nat) :
  Forall (fun c => length c = n) m ->
  length (qr toy_torch m) = Nat.min n (length m) /\
  Forall (fun c => length c = n) (qr toy_torch m).
Proof.
  intros Hm. cbn [qr toy_torch]. unfold toy_qr, nrows.
  destruct Hm as [|c m Hc Hm]; cbn [hd].
  - cbn. split; [symmetry; apply Nat.min_0_r|constructor].
  - rewrite Hc. apply eye_columns.
Qed.

Lemma toy_qr_orthonormal (m : mat) : orthonormal (qr toy_torch m).
Proof. cbn [qr toy_torch]. apply eye_orthonormal, Nat.le_min_l. Qed.

(** *** Runs on the concrete instances *)

Lemma loadbasis_caches_on_atomz_alone_witness :
  CgtoBasis.loadbasis toy_externals fresh_basis 1 true fresh_world
    = (Ok hydrogen_res, basis_with_hydrogen, world_after_load) /\
  (let later :=
     CgtoBasis.later_calls toy_externals basis_with_hydrogen
       [(2%Z, false, fresh_world)] in
   CgtoBasis.loadbasis toy_externals later 1 false empty_world
     = (Ok hydrogen_res, later, empty_world)) /\
  CgtoBasis.loadbasis toy_externals fresh_basis 2 true fresh_world
    = (Raise RuntimeError, fresh_basis, fresh_world).
Proof.
  assert (H : CgtoBasis.loadbasis toy_externals fresh_basis 1 true fresh_world
              = (Ok hydrogen_res, basis_with_hydrogen, world_after_load))
    by (vm_compute; reflexivity).
  destruct (loadbasis_caches_on_atomz_alone toy_externals _ _ _ _ _ _ _ H)
    as [H1 H2].
  split; [exact H|]. split.
  - apply H1.
  - exact (H2 fresh_basis 2%Z true fresh_world).
Defined.







Lemma davidson_denominators_clamped_witness :
  0 < default_eps /\
  exists (st' : lstate) (w' : Eigpairs.world),
    davidson_body toy_torch operator_near 1 one_param default_eps default_eps
      1 3 (diag operator_near one_param) 1 slanted_state start
      = (Ok (Continue st'), w') /\
    let T := projected Davidson operator_near one_param (V slanted_state) in
    let evalT := symeig_vals toy_torch T in
    let evecA := bmm (V slanted_state) (symeig_vecs toy_torch T) in
    exists (ritz_list : list bmat) (ritz0 Va : bmat),
      Forall2
        (fun (i : nat) (r : bmat) =>
           exists finv0 d q : bvec,
             finv_raw (diag operator_near one_param) evalT i = Ok finv0 /\
             ritz_residual operator_near one_param evalT evecA i = Ok d /\
             Forall (Forall (fun y => default_eps <= Qabs y /\ ~ y == 0))
               (clamp default_eps finv0) /\
             bvec_op Qmult (reciprocal (clamp default_eps finv0)) d = Ok q /\
             r = unsqueeze q)
        (seq 0 (Nat.min (ncols evalT) 1)) ritz_list /\
      cat_list ritz_list = Ok ritz0 /\
      cat2 (V slanted_state) (normalize_cols toy_torch ritz0) = Ok Va /\
      V st' = map (qr toy_torch) Va.
Proof.
  assert (Hpos : 0 < default_eps) by reflexivity.
  split; [exact Hpos|].
  destruct (davidson_body toy_torch operator_near 1 one_param default_eps
              default_eps 1 3 (diag operator_near one_param) 1 slanted_state
              start) as [[[st'|st']|e] w'] eqn:H;
    [|vm_compute in H; discriminate..].
  exists st', w'. split; [reflexivity|].
  destruct (davidson_denominators_clamped toy_torch _ _ _ _ _ _ _ _ _ _ _ _ _
              Hpos H) as (ritz_list & ritz0 & Va & H1 & H2 & H3 & H4 & _).
  exists ritz_list, ritz0, Va.
  split; [|split; [exact H2|split; [exact H3|exact H4]]].
  eapply List.Forall2_impl; [|exact H1].
  intros i r (finv0 & d & q & F1 & F2 & _ & F4 & _ & F6 & F7).
  exists finv0, d, q. repeat split; assumption.
Defined.

(** C4, counterexample: with [eps_cond=0] nothing is clamped.  On the
    operator with diagonal [3, 1, 2] and the guess "eye", the first
    iteration of [davidson] for one eigenpair finds the Ritz values [1, 3];
    for the first of them the denominators are [dA - 1 = [2, 0, 1]], they
    pass the clamp as they are, and the step takes the reciprocal of the
    zero among them without raising. *)
Lemma zero_eps_cond_leaves_a_zero_denominator :
  exists (st : lstate) (rest : list lstate),
    davidson_iterates toy_torch operator3 1 one_param zero_eps_options start
      = st :: rest /\
    get_or (eps_cond zero_eps_options) default_eps = 0 /\
    let T := projected Davidson operator3 one_param (V st) in
    let evalT := symeig_vals toy_torch T in
    let evecA := bmm (V st) (symeig_vecs toy_torch T) in
    evalT = [[1; 3]] /\
    finv_raw (diag operator3 one_param) evalT 0 = Ok [[2; 0; 1]] /\
    clamp 0 [[2; 0; 1]] = [[2; 0; 1]] /\
    ~ Forall (Forall (fun y => ~ y == 0)) (clamp 0 [[2; 0; 1]]) /\
    is_ok (fst (ritz_vector operator3 one_param 0 (diag operator3 one_param)
                  evalT evecA 0 start)) = true.
Proof.
  eexists. eexists. split; [vm_compute; reflexivity|].
  split; [reflexivity|]. cbv zeta.
  split; [vm_compute; reflexivity|]. split; [vm_compute; reflexivity|].
  split; [reflexivity|]. split; [|vm_compute; reflexivity].
  intros H. apply Forall_inv in H. apply Forall_inv_tail in H.
  apply Forall_inv in H. apply H. reflexivity.
Qed.

Lemma initial_subspace_is_deterministic_and_orthonormal_witness :
  (2 <= 3)%nat /\
  exists V0 : bmat,
    fst (_set_initial_v toy_torch "randn" 1 3 2 start) = Ok V0 /\
    fst (_set_initial_v toy_torch "randn" 1 3 2 elsewhere) = Ok V0 /\
    rng (snd (_set_initial_v toy_torch "randn" 1 3 2 start)) =
      rng (snd (_set_initial_v toy_torch "randn" 1 3 2 elsewhere)) /\
    has_shape V0 1 3 2 /\
    Forall orthonormal V0.
Proof.
  assert (Hle : (2 <= 3)%nat) by lia.
  split; [exact Hle|].
  exact (initial_subspace_is_deterministic_and_orthonormal toy_torch
           toy_randn_shape toy_rand_shape toy_qr_reduced toy_qr_orthonormal
           "randn" 1 3 2 start elsewhere Hle).
Defined.

(** *** The Davidson subspace after an "eye" guess *)

(** C5, at a failing input: [davidson] on an operator of dimension 2, asked
    for 2 eigenpairs with [v_init="eye"], takes [nguess = 3] by default and
    starts its first iteration on [torch.eye(2, 3)], a subspace of 3
    columns, whatever torch computes afterwards; the truncation at the end of
    the iteration is applied to [V], which the QR factor then replaces. *)
Lemma davidson_eye_guess_wider_than_operator :
  forall (t : torch) (w : Eigpairs.world),
    fst (shape operator2) = 2%nat /\
    exists (st : lstate) (rest : list lstate),
      davidson_iterates t operator2 2 one_param eye_options w = st :: rest /\
      V st = [eye 2 3] /\
      map (@length vec) (V st) = [3%nat].
Proof.
  intros t w. split; [reflexivity|].
  eexists. eexists. split; [reflexivity|]. split; reflexivity.
Qed.

End Instances.

(** * Further properties of the code *)

(** ** Eigensolvers: runs without a diagonalisation *)

Section EigpairsEdges.

Import Eigpairs.

Variable t : torch.

Lemma set_initial_v_known (vinit_type : string) (nbatch na k : nat) (w : world) :
  known_strategy vinit_type = true ->
  exists V0 g,
    _set_initial_v t vinit_type nbatch na k w
      = (Ok V0, {| rng := g; napply := napply w |}).
Proof.
  unfold known_strategy, _set_initial_v. cbn [rng napply].
  destruct (String.eqb vinit_type "eye"); cbn [orb]; [now eauto|].
  destruct (String.eqb vinit_type "randn"); cbn [orb].
  { destruct (randn t _ _ _ _) as [R g]. now eauto. }
  destruct (String.eqb vinit_type "random" || String.eqb vinit_type "rand");
    [|discriminate].
  destruct (rand t _ _ _ _) as [R g]. now eauto.
Qed.

(** X1: on a square operator with a batched parameter and a known first
    guess, [davidson] whose [max_niter] does not exceed [nguess] (with the
    defaults, [neig >= 119]) enters no iteration and fails with
    [UnboundLocalError] on [eigvalT]; with [nguess = 0] it fails with
    [ValueError] on the zero step of [range].  In both cases the operator has
    not been applied. *)
Theorem davidson_without_iterations_raises
    (A : LinearModule) (neig : nat) (params : list param) (opts : options)
    (w : world) (na nbatch : nat) :
  _check_and_get_shape A = Ok na ->
  get_nbatch params = Ok nbatch ->
  known_strategy (lower (get_or (v_init opts) "randn")) = true ->
  match Nat.eqb (get_or (nguess opts) (neig + 1)%nat) 0,
        Nat.leb (get_or (max_niter opts) 120%nat)
                (get_or (nguess opts) (neig + 1)%nat) with
  | true, _ =>
      fst (davidson t A neig params opts w) = Raise ValueError /\
      napply (snd (davidson t A neig params opts w)) = napply w
  | false, true =>
      fst (davidson t A neig params opts w) = Raise UnboundLocalError /\
      napply (snd (davidson t A neig params opts w)) = napply w
  | false, false => True
  end.
Proof.
  intros Hshape Hbatch Hknown.
  destruct (set_initial_v_known _ nbatch na
              (get_or (nguess opts) (neig + 1)%nat) w Hknown) as (V0 & g & HV).
  set (nguess0 := get_or (nguess opts) (neig + 1)%nat) in *.
  set (max_niter0 := get_or (max_niter opts) 120%nat).
  assert (E : davidson t A neig params opts w =
              match range3 nguess0 max_niter0 nguess0 with
              | Ok [] => (Raise UnboundLocalError,
                          {| rng := g; napply := napply w |})
              | Ok (_ :: _) => davidson t A neig params opts w
              | Raise e => (Raise e, {| rng := g; napply := napply w |})
              end).
  { destruct (range3 nguess0 max_niter0 nguess0) as [[|m ms]|e] eqn:Hr;
      [|reflexivity|];
      unfold davidson, davidson_setup, bind, lift; cbv zeta;
      fold nguess0; fold max_niter0;
      rewrite Hshape, Hbatch, HV, Hr; reflexivity. }
  destruct (Nat.eqb_spec nguess0 0) as [Hz|Hnz].
  { rewrite E. unfold range3. rewrite Hz. cbn. now split. }
  destruct (Nat.leb_spec max_niter0 nguess0) as [Hle|Hlt]; [|exact I].
  rewrite E. unfold range3.
  destruct (Nat.eqb_spec nguess0 0) as [|_]; [contradiction|].
  replace (max_niter0 - nguess0 + nguess0 - 1)%nat with (nguess0 - 1)%nat
    by lia.
  rewrite Nat.div_small by lia. cbn. now split.
Qed.

Ltac steps H :=
  repeat match type of H with
    | bind _ _ _ = (Ok _, _) =>
        let a := fresh "a" in let w := fresh "w" in
        let H1 := fresh "Hstep" in
        apply bind_ok in H as (a & w & H1 & H)
    end.

Lemma for_loop_invariant_in {S : Type} (P : S -> Prop)
    (body : nat -> S -> M (ctl S)) (ms : list nat) :
  (forall m st w c w',
      In m ms -> P st -> body m st w = (Ok c, w') -> P (ctl_state c)) ->
  forall st w st' w',
    P st -> for_loop body ms st w = (Ok st', w') -> P st'.
Proof.
  induction ms as [|m ms IH]; intros Hbody st w st' w' HP H.
  - apply ret_ok in H as [-> _]. exact HP.
  - cbn [for_loop] in H. apply bind_ok in H as (c & w1 & Hb & H).
    pose proof (Hbody _ _ _ _ _ (or_introl eq_refl) HP Hb) as Hc.
    destruct c as [s|s]; cbn in Hc.
    + refine (IH _ _ _ _ _ Hc H). intros m' st0 w0 c0 w0' Hin.
      apply Hbody. now right.
    + apply ret_ok in H as [-> _]. exact Hc.
Qed.

Lemma lanczos_body_early (A : LinearModule) (neig : nat) (params : list param)
    (eps : Q) (i : nat) (st : lstate) (w : world) (c : ctl lstate) (w' : world) :
  (i + 1 < neig)%nat ->
  eigvalT st = None ->
  lanczos_body t A neig params eps i st w = (Ok c, w') ->
  eigvalT (ctl_state c) = None.
Proof.
  intros Hi Hnone. unfold lanczos_body. cbv zeta. intros H. steps H.
  destruct (Nat.ltb_spec (i + 1) neig) as [_|Hge]; [|lia].
  apply ret_ok in H as [-> _]. exact Hnone.
Qed.

(** X2: [lanczos] asked for more eigenpairs than it may run iterations
    ([max_niter < neig]) never returns a result: no iteration reaches the
    diagonalisation, so what is left after the loop is [UnboundLocalError]
    on [eigvalT], unless an iteration has raised before. *)
Theorem lanczos_with_too_few_iterations_never_returns
    (A : LinearModule) (neig : nat) (params : list param) (opts : options)
    (w : world) :
  (get_or (max_niter opts) 120 < neig)%nat ->
  is_ok (fst (lanczos t A neig params opts w)) = false.
Proof.
  intros Hlt.
  destruct (lanczos t A neig params opts w) as [[[evals evecs]|e] w'] eqn:H;
    [|reflexivity].
  exfalso. unfold lanczos in H. cbv zeta in H.
  apply bind_ok in H as (na & w1 & _ & H).
  apply bind_ok in H as (nbatch & w2 & _ & H).
  apply bind_ok in H as (V0 & w3 & _ & H).
  apply bind_ok in H as (st & w4 & Hloop & H).
  assert (Hnone : eigvalT st = None).
  { refine (for_loop_invariant_in (fun s => eigvalT s = None) _ _ _ _ _ _ _
              _ Hloop); [|reflexivity].
    intros m s w0 c w0' Hin. apply lanczos_body_early.
    apply in_seq in Hin. lia. }
  unfold loop_result in H. rewrite Hnone in H. discriminate.
Qed.

(** ** Eigensolvers: how often the operator is applied *)

Section OperatorApplications.

Import EigpairsMore.

Hypothesis randn_shape :
  forall g nbatch na k, has_shape (fst (randn t g nbatch na k)) nbatch na k.
Hypothesis rand_shape :
  forall g nbatch na k, has_shape (fst (rand t g nbatch na k)) nbatch na k.
Hypothesis qr_reduced :
  forall (m : mat) (n : nat),
    Forall (fun c => length c = n) m ->
    length (qr t m) = Nat.min n (length m) /\
    Forall (fun c => length c = n) (qr t m).

Lemma mapM_ok_all {A B : Type} (f : A -> result B) :
  forall l r, mapM f l = Ok r -> Forall (fun x => exists y, f x = Ok y) l.
Proof.
  induction l as [|x l IH]; intros r; cbn [mapM]; [constructor|].
  destruct (f x) as [y|e] eqn:Hf; cbn [rbind]; [|discriminate].
  destruct (mapM f l) as [ys|e] eqn:Hm; cbn [rbind]; [|discriminate].
  intros _. constructor; [now exists y|exact (IH _ eq_refl)].
Qed.

Lemma column_ok_all (i : nat) (x : bmat) (v : bvec) :
  column i x = Ok v -> Forall (fun m => (i < length m)%nat) x.
Proof.
  intros H. apply mapM_ok_all in H.
  eapply Forall_impl; [exact H|]. cbn. intros m [c Hc].
  destruct (nth_error m i) as [c'|] eqn:Hn; [|discriminate].
  apply nth_error_Some. congruence.
Qed.

Lemma krylov_step (na nbatch i : nat) (x y z : bmat) (v : bvec) :
  krylov_ok na nbatch x ->
  column i x = Ok v ->
  cat2 x y = Ok z ->
  krylov_ok na nbatch (map (qr t) z).
Proof.
  intros [Hlen Hall] Hcol Hcat. split.
  - rewrite length_map, (cat2_length _ _ _ Hcat). exact Hlen.
  - apply column_ok_all in Hcol. apply cat2_ok in Hcat.
    apply Forall_map_intro. eapply Forall_impl; [exact Hcat|].
    cbn. intros zb (xm & ym & Hin & -> & Hu).
    rewrite List.Forall_forall in Hall, Hcol.
    destruct (Hall _ Hin) as [_ Hcols]. specialize (Hcol _ Hin).
    destruct xm as [|c0 xm]; [cbn in Hcol; lia|].
    assert (Hc0 : length c0 = na) by now inversion Hcols.
    cbn [app] in Hu |- *. apply uniformb_columns in Hu. rewrite Hc0 in Hu.
    destruct (qr_reduced _ na Hu) as [H1 H2]. split; [|exact H2].
    eapply Nat.le_trans; [apply Nat.eq_le_incl; exact H1|]. lia.
Qed.

Lemma krylov_start (vinit : string) (nbatch na : nat) (w w' : world) (V0 : bmat) :
  _set_initial_v t vinit nbatch na 1 w = (Ok V0, w') ->
  krylov_ok na nbatch V0 /\ napply w' = napply w.
Proof.
  unfold _set_initial_v.
  destruct (String.eqb vinit "eye").
  { intros [= <- <-]. split; [|reflexivity]. split; [apply repeat_length|].
    apply Forall_repeat. destruct (eye_columns na 1) as [H1 H2].
    split; [|exact H2].
    eapply Nat.le_trans; [apply Nat.eq_le_incl; exact H1|]. lia. }
  assert (Hqr : forall R, has_shape R nbatch na 1 ->
                          krylov_ok na nbatch (map (qr t) R)).
  { intros R [HRl HR]. split; [now rewrite length_map|].
    apply Forall_map_intro. eapply Forall_impl; [exact HR|].
    cbn. intros m [Hk Hc]. destruct (qr_reduced m na Hc) as [H1 H2].
    split; [|exact H2].
    eapply Nat.le_trans; [apply Nat.eq_le_incl; exact H1|]. lia. }
  destruct (String.eqb vinit "randn").
  { pose proof (randn_shape (manual_seed t 12421) nbatch na 1) as Hs.
    cbn [rng napply]. destruct (randn t _ _ _ _) as [R g].
    intros [= <- <-]. split; [now apply Hqr|reflexivity]. }
  destruct (String.eqb vinit "random" || String.eqb vinit "rand");
    [|discriminate].
  pose proof (rand_shape (manual_seed t 12421) nbatch na 1) as Hs.
  cbn [rng napply]. destruct (rand t _ _ _ _) as [R g].
  intros [= <- <-]. split; [now apply Hqr|reflexivity].
Qed.

Lemma set_initial_v_keeps_count (vinit : string) (nbatch na k : nat) (w : world) :
  napply (snd (_set_initial_v t vinit nbatch na k w)) = napply w.
Proof.
  unfold _set_initial_v.
  destruct (String.eqb vinit "eye"); [reflexivity|].
  destruct (String.eqb vinit "randn");
    [destruct (randn t _ _ _ _); reflexivity|].
  destruct (String.eqb vinit "random" || String.eqb vinit "rand");
    [destruct (rand t _ _ _ _); reflexivity|reflexivity].
Qed.

(** One pass through the body of the loop of [lanczos]: at most two
    applications, none when column [i] is missing, and a pass that goes on
    has made two and leaves a basis as required. *)
Lemma lanczos_body_count (A : LinearModule) (neig : nat) (params : list param)
    (eps : Q) (na nbatch i : nat) (st : lstate) (w : world) :
  krylov_ok na nbatch (V st) ->
  let r := lanczos_body t A neig params eps i st w in
  (napply (snd r) <= napply w + 2)%nat /\
  (napply (snd r) = napply w \/ exists v, column i (V st) = Ok v) /\
  (forall s, fst r = Ok (Continue s) ->
             napply (snd r) = (napply w + 2)%nat /\ krylov_ok na nbatch (V s)).
Proof.
  intros Hok. unfold lanczos_body. cbv zeta.
  unfold bind, lift, apply2, apply3, bind, tick, ret.
  destruct (column i (V st)) as [v|e] eqn:Hcol; cbn [fst snd napply].
  2:{ split; [lia|]. split; [now left|discriminate]. }
  destruct (cat2 (V st) _) as [V1|e] eqn:Hcat; cbn [fst snd napply].
  2:{ split; [lia|]. split; [right; now exists v|discriminate]. }
  pose proof (krylov_step _ _ _ _ _ _ _ Hok Hcol Hcat) as Hnext.
  destruct (Nat.ltb (i + 1) neig); cbn [fst snd napply].
  { split; [lia|]. split; [right; now exists v|].
    intros s [= <-]. split; [lia|exact Hnext]. }
  destruct (converged _ _ _ _) as [[|]|e]; cbn [fst snd napply];
    (split; [lia|]); (split; [right; now exists v|]); try discriminate.
  intros s [= <-]. split; [lia|exact Hnext].
Qed.

Lemma lanczos_loop_count (A : LinearModule) (neig : nat) (params : list param)
    (eps : Q) (na nbatch : nat) (n : nat) :
  forall i st w,
    krylov_ok na (S nbatch) (V st) ->
    (napply (snd (for_loop (lanczos_body t A neig params eps) (seq i n) st w))
     <= napply w + 2 * (Nat.max na 1 - i))%nat.
Proof.
  induction n as [|n IH]; intros i st w Hok; [cbn; lia|].
  cbn [seq for_loop]. unfold bind at 1.
  destruct (lanczos_body_count A neig params eps na (S nbatch) i st w Hok)
    as (Hle & Hcol & Hcont).
  assert (Hi : napply (snd (lanczos_body t A neig params eps i st w))
               = napply w \/ (i < Nat.max na 1)%nat).
  { destruct Hcol as [Hsame|[v Hv]]; [now left|right].
    apply column_ok_all in Hv. destruct Hok as [Hlen Hall].
    destruct (V st) as [|m x]; [discriminate|].
    inversion Hv as [|? ? Hm _]; subst. inversion Hall as [|? ? [Hm' _] _]; subst.
    exact (Nat.lt_le_trans _ _ _ Hm Hm'). }
  destruct (lanczos_body t A neig params eps i st w) as [[[s|s]|e] w1];
    cbn [fst snd] in *.
  - destruct (Hcont s eq_refl) as [Hw1 Hs].
    specialize (IH (S i) s w1 Hs).
    assert (i < Nat.max na 1)%nat by (destruct Hi; lia). lia.
  - cbn. destruct Hi; lia.
  - destruct Hi; lia.
Qed.

(** X3: whatever the options and the outcome, [lanczos] on a batch of at
    least one system applies the operator at most [2 * max n 1] times, [n]
    being the operator dimension: the reduced QR never lets the Krylov basis
    exceed [n] columns, so iteration [i >= n] finds no column [i] and the run
    ends there with [IndexError] if it has not converged or hit [max_niter]
    before. *)
Theorem lanczos_applies_operator_at_most_2n_times
    (A : LinearModule) (neig : nat) (params : list param) (opts : options)
    (w : world) (nbatch : nat) :
  get_nbatch params = Ok (S nbatch) ->
  (napply (snd (lanczos t A neig params opts w))
   <= napply w + 2 * Nat.max (fst (shape A)) 1)%nat.
Proof.
  intros Hbatch. unfold lanczos. cbv zeta.
  unfold bind at 1. unfold lift at 1.
  destruct (_check_and_get_shape A) as [na|e] eqn:Hshape; [|cbn; lia].
  assert (Hna : na = fst (shape A)).
  { unfold _check_and_get_shape in Hshape. destruct (shape A) as [n1 n2].
    destruct (negb (Nat.eqb n1 n2)); [discriminate|]. now injection Hshape. }
  rewrite <- Hna. rewrite Hbatch. unfold bind at 1. unfold lift at 1.
  unfold bind at 1.
  destruct (_set_initial_v t _ (S nbatch) na 1 w) as [[V0|e] w1] eqn:Hinit.
  2:{ cbn. pose proof (set_initial_v_keeps_count
                         (lower (get_or (v_init opts) "randn"))
                         (S nbatch) na 1 w) as Hc.
      rewrite Hinit in Hc. cbn in Hc. lia. }
  apply krylov_start in Hinit as [Hok Hw1].
  unfold bind at 1.
  pose proof (lanczos_loop_count A neig params
                (get_or (min_eps opts) default_eps) na nbatch
                (get_or (max_niter opts) 120%nat) 0
                {| V := V0; prev_eigvals := None;
                   eigvalT := None; eigvecA := None |} w1 Hok) as Hloop.
  destruct (for_loop _ _ _ w1) as [[st|e] w2]; cbn [fst snd] in *.
  - unfold loop_result. destruct (eigvalT st), (eigvecA st); cbn; lia.
  - lia.
Qed.

Lemma range3_first (start stop : nat) :
  start <> 0%nat -> (start < stop)%nat ->
  exists ms, range3 start stop start = Ok (start :: ms).
Proof.
  intros Hs Hlt. unfold range3.
  destruct (Nat.eqb_spec start 0) as [|_]; [contradiction|].
  assert (Hk : (1 <= (stop - start + start - 1) / start)%nat).
  { apply Nat.div_le_lower_bound; lia. }
  destruct ((stop - start + start - 1) / start)%nat as [|k]; [lia|].
  cbn [seq map]. rewrite Nat.mul_0_l, Nat.add_0_r. now eexists.
Qed.

Lemma full_guess_width (vinit : string) (nbatch na k : nat) (w w' : world)
    (V0 : bmat) :
  (if String.eqb vinit "eye" then k = na else (na <= k)%nat) ->
  _set_initial_v t vinit (S nbatch) na k w = (Ok V0, w') ->
  ncols V0 = na /\ napply w' = napply w.
Proof.
  unfold _set_initial_v, ncols.
  destruct (String.eqb vinit "eye").
  { intros -> [= <- <-]. cbn [repeat hd napply]. split; [|reflexivity].
    apply eye_columns. }
  intros Hle.
  assert (Hqr : forall R, has_shape R (S nbatch) na k ->
                          length (hd [] (map (qr t) R)) = na).
  { intros R [HRl HR]. destruct R as [|m R]; [discriminate|].
    cbn [map hd]. inversion HR as [|? ? [Hk Hc] _]; subst.
    destruct (qr_reduced m na Hc) as [H1 _].
    refine (eq_trans H1 _). apply Nat.min_l. exact Hle. }
  destruct (String.eqb vinit "randn").
  { pose proof (randn_shape (manual_seed t 12421) (S nbatch) na k) as Hs.
    cbn [rng napply]. destruct (randn t _ _ _ _) as [R g].
    intros [= <- <-]. split; [now apply Hqr|reflexivity]. }
  destruct (String.eqb vinit "random" || String.eqb vinit "rand");
    [|discriminate].
  pose proof (rand_shape (manual_seed t 12421) (S nbatch) na k) as Hs.
  cbn [rng napply]. destruct (rand t _ _ _ _) as [R g].
  intros [= <- <-]. split; [now apply Hqr|reflexivity].
Qed.

(** X4: when the first guess of [davidson] already has as many columns as
    the operator has dimensions ("eye" with [nguess = n], or a random guess
    with [nguess >= n], which the reduced QR cuts to [n] columns), the solver
    applies the operator once, diagonalises the projected matrix once and
    stops as "full_rank": it returns the first [neig] eigenpairs of that one
    diagonalisation. *)
Theorem davidson_stops_on_a_full_guess
    (A : LinearModule) (neig : nat) (params : list param) (opts : options)
    (w : world) (na nbatch : nat) :
  _check_and_get_shape A = Ok na ->
  get_nbatch params = Ok (S nbatch) ->
  (if String.eqb (lower (get_or (v_init opts) "randn")) "eye"
   then get_or (nguess opts) (neig + 1)%nat = na
   else (na <= get_or (nguess opts) (neig + 1))%nat) ->
  get_or (nguess opts) (neig + 1)%nat <> 0%nat ->
  (get_or (nguess opts) (neig + 1) < get_or (max_niter opts) 120)%nat ->
  forall (V0 : bmat) (w0 : world),
    _set_initial_v t (lower (get_or (v_init opts) "randn")) (S nbatch) na
      (get_or (nguess opts) (neig + 1)%nat) w = (Ok V0, w0) ->
    let T := bmm (map transpose V0) (forward A V0 params) in
    davidson t A neig params opts w =
      (Ok (take_cols neig (symeig_vals t T),
           take_cols neig (bmm V0 (symeig_vecs t T))),
       {| rng := rng w0; napply := S (napply w) |}).
Proof.
  intros Hshape Hbatch Hfull Hnz Hlt V0 w0 Hinit T.
  destruct (full_guess_width _ _ _ _ _ _ _ Hfull Hinit) as [Hcols Hw0].
  destruct (range3_first _ _ Hnz Hlt) as [ms Hms].
  unfold davidson, davidson_setup, bind, lift. cbv zeta.
  rewrite Hshape, Hbatch, Hinit, Hms.
  cbn [ret for_loop]. unfold bind, davidson_body. cbv zeta.
  unfold bind, apply3, bind, tick, ret, lift. cbn [V prev_eigvals converged].
  rewrite Hcols, Nat.eqb_refl. cbn [loop_result eigvalT eigvecA ret].
  unfold ret. now rewrite Hw0.
Qed.

End OperatorApplications.

End EigpairsEdges.


(** ** The basis loader: what a call changes, and what the parser hands on *)

Section CgtoBasisMore.

Import CgtoBasis.

Variable ext : externals.

(** X6: a call of [loadbasis] that raises leaves the object as it was, so
    nothing is cached for that [atomz] and the next call reads the file
    again; a call that succeeds leaves the cache with exactly the entry
    [atomz -> result] set and every other entry untouched.  The files on disk
    are never changed.  A cache hit leaves the world alone; a load from disk
    opens one file and gives the result a fresh identity. *)
Theorem loadbasis_caches_exactly_on_success
    (self : CGTOBasis) (atomz : Z) (cartesian : bool) (w : world) :
  match loadbasis ext self atomz cartesian w with
  | (Raise _, self', w') =>
      self' = self /\ files w' = files w /\ next_id w' = next_id w
  | (Ok res, self', w') =>
      res_memory self' = <[atomz := res]> (res_memory self) /\
      fnameformat self' = fnameformat self /\
      files w' = files w /\
      match res_memory self !! atomz with
      | Some _ => w' = w
      | None =>
          nopen w' = S (nopen w) /\
          obj_id res = next_id w /\
          next_id w' = S (next_id w)
      end
  end.
Proof.
  unfold loadbasis.
  destruct (res_memory self !! atomz) as [r|] eqn:Hz.
  { repeat split. symmetry. now apply insert_id. }
  destruct (files w !! fnameformat self atomz) as [content|];
    [|now repeat split].
  match goal with
  | |- context [match ?m with Ok _ => _ | Raise _ => _ end] =>
      destruct m as [[[i a] co]|e]
  end; cbn; now repeat split.
Qed.

Lemma read_elements_aligned (n : nat) (spdf : string) :
  forall lines alpha coeff angmom lines' alpha' coeff' angmom',
    length alpha = length coeff ->
    read_elements ext n spdf lines alpha coeff angmom
      = Ok (lines', alpha', coeff', angmom') ->
    length alpha' = length coeff'.
Proof.
  induction n as [|n IH]; intros lines alpha coeff angmom lines' a' c' g' Hlen.
  - cbn. now intros [= _ <- <- _].
  - cbn [read_elements]. destruct lines as [|line rest]; [discriminate|].
    destruct (floats_of ext (py_split line)) as [elmts|e]; cbn [rbind];
      [|discriminate].
    assert (Hrec : forall a c g,
               length a = length c ->
               read_elements ext n spdf rest a c g = Ok (lines', a', c', g') ->
               length a' = length c').
    { intros a c g Hac H. exact (IH _ _ _ _ _ _ _ _ Hac H). }
    destruct elmts as [|e0 [|e1 [|e2 [|e3 more]]]]; try (apply Hrec; exact Hlen).
    + destruct (to_angmom ext spdf); cbn [rbind]; [|discriminate].
      apply Hrec. rewrite !length_app. cbn. lia.
    + destruct (str_index spdf 0); cbn [rbind]; [|discriminate].
      destruct (to_angmom ext _); cbn [rbind]; [|discriminate].
      destruct (str_index spdf 1); cbn [rbind]; [|discriminate].
      destruct (to_angmom ext _); cbn [rbind]; [|discriminate].
      apply Hrec. rewrite !length_app. cbn. lia.
Qed.

Lemma read_shells_aligned (fuel : nat) :
  forall lines spdfs alphas coeffs spdfs' alphas' coeffs',
    length spdfs = length alphas ->
    Forall2 (fun a c : list Q => length a = length c) alphas coeffs ->
    read_shells ext fuel lines spdfs alphas coeffs
      = Some (Ok (spdfs', alphas', coeffs')) ->
    length spdfs' = length alphas' /\
    Forall2 (fun a c : list Q => length a = length c) alphas' coeffs'.
Proof.
  induction fuel as [|fuel IH];
    intros lines spdfs alphas coeffs s' a' c' Hlen Hall;
    (destruct lines as [|line rest]; [now intros [= <- <- <-]|]);
    cbn [read_shells];
    (destruct (String.prefix "**" line); [now intros [= <- <- <-]|]);
    (destruct (py_split line) as [|spdf [|nelmt_str [|z [|y more]]]];
       try discriminate);
    (destruct (py_int nelmt_str) as [nelmt|e]; [|discriminate]);
    (destruct (read_elements ext (Z.to_nat nelmt) spdf rest [] [] [])
       as [[[[lines2 alpha] coeff] angmom]|e] eqn:Hre; [|discriminate]);
    [discriminate|].
  apply IH.
  - rewrite !length_app. cbn. lia.
  - apply Forall2_app; [exact Hall|]. constructor; [|constructor].
    exact (read_elements_aligned _ _ _ _ _ _ _ _ _ _ eq_refl Hre).
Qed.

(** X7: whatever the file holds, what the parser of [loadbasis] hands to
    [expand_basis] is aligned: as many lists of exponents and of
    coefficients as shell names, and in every shell as many coefficients as
    exponents (an SP line gives two of each, a line with neither two nor
    three numbers gives none). *)
Theorem parsed_shells_are_aligned
    (lines spdfs : list string) (alphas coeffs : list (list Q)) :
  read_shells ext (length lines) lines [] [] []
    = Some (Ok (spdfs, alphas, coeffs)) ->
  length spdfs = length alphas /\
  length spdfs = length coeffs /\
  Forall2 (fun a c : list Q => length a = length c) alphas coeffs.
Proof.
  intros H.
  destruct (read_shells_aligned (length lines) lines [] [] [] _ _ _
              eq_refl (List.Forall2_nil _) H) as [H1 H2].
  split; [exact H1|]. split; [|exact H2].
  rewrite H1. clear -H2. induction H2; cbn; congruence.
Qed.

End CgtoBasisMore.

(** ** The radial grid: antiderivatives and the Poisson solve *)

Section GridsFacts.

Import Eigpairs Grids.

(** *** Entry-wise equality *)

Lemma veq_refl (a : vec) : veq a a.
Proof. induction a; constructor; [reflexivity|assumption]. Qed.

Lemma veq_sym (a b : vec) : veq a b -> veq b a.
Proof. induction 1; constructor; [now symmetry|assumption]. Qed.

Lemma veq_trans (a b c : vec) : veq a b -> veq b c -> veq a c.
Proof.
  intros H. revert c. induction H as [|x y a b Hxy _ IH]; intros c Hc.
  - exact Hc.
  - inversion Hc as [|? z ? c' Hyz Hbc]; subst. constructor.
    + now rewrite Hxy.
    + now apply IH.
Qed.

Lemma veq_length (a b : vec) : veq a b -> length a = length b.
Proof. induction 1; cbn; congruence. Qed.

Lemma qsum_veq (a b : vec) : veq a b -> qsum a == qsum b.
Proof.
  induction 1 as [|x y a b Hxy _ IH]; cbn; [reflexivity|].
  now rewrite Hxy, IH.
Qed.

Lemma zip_with_veq (g : Q -> Q -> Q) :
  (forall x x' y y', x == x' -> y == y' -> g x y == g x' y') ->
  forall a a' b b' : vec,
    veq a a' -> veq b b' -> veq (zip_with g a b) (zip_with g a' b').
Proof.
  intros Hg a a' b b' Ha. revert b b'.
  induction Ha as [|x x' a a' Hx _ IH]; intros b b' Hb; [constructor|].
  destruct Hb as [|y y' b b' Hy Hb]; cbn; constructor.
  - now apply Hg.
  - now apply IH.
Qed.

Lemma map_veq (g : Q -> Q) :
  (forall x x', x == x' -> g x == g x') ->
  forall a a' : vec, veq a a' -> veq (map g a) (map g a').
Proof.
  intros Hg a a'. induction 1; cbn; constructor; [now apply Hg|assumption].
Qed.

Lemma cumsum_from_veq (a a' : vec) :
  veq a a' ->
  forall acc acc', acc == acc' ->
    veq (cumsum_from acc a) (cumsum_from acc' a').
Proof.
  induction 1 as [|x x' a a' Hx _ IH]; intros acc acc' Hacc; cbn;
    constructor.
  - now rewrite Hx, Hacc.
  - apply IH. now rewrite Hx, Hacc.
Qed.

Lemma suffix_sums_veq (a a' : vec) :
  veq a a' -> veq (suffix_sums a) (suffix_sums a').
Proof.
  induction 1 as [|x x' a a' Hx Ha IH]; cbn [suffix_sums]; constructor.
  - apply qsum_veq. now constructor.
  - exact IH.
Qed.

Lemma dot_veq (a a' b b' : vec) : veq a a' -> veq b b' -> dot a b == dot a' b'.
Proof.
  intros Ha Hb. apply qsum_veq, zip_with_veq; [|assumption|assumption].
  intros x x' y y' Hx Hy. now rewrite Hx, Hy.
Qed.

(** *** Lengths *)

Lemma zip_with_len {A B C : Type} (g : A -> B -> C) (a : list A) (b : list B) :
  length (zip_with g a b) = Nat.min (length a) (length b).
Proof.
  revert b. induction a as [|x a IH]; intros [|y b]; cbn; [reflexivity..|].
  now rewrite IH.
Qed.

Lemma cumsum_from_len (l : vec) (acc : Q) :
  length (cumsum_from acc l) = length l.
Proof.
  revert acc. induction l as [|x l IH]; intros acc; cbn; [reflexivity|].
  now rewrite IH.
Qed.

Lemma suffix_sums_len (l : vec) : length (suffix_sums l) = length l.
Proof. induction l as [|x l IH]; cbn [suffix_sums length]; congruence. Qed.

(** *** Broadcasting on aligned shapes *)

Lemma zip_withM_pure {A B C : Type} (g : A -> B -> C) (a : list A)
    (b : list B) :
  zip_withM (fun x y => Ok (g x y)) a b = Ok (zip_with g a b).
Proof.
  revert b. induction a as [|x a IH]; intros [|y b]; cbn; [reflexivity..|].
  now rewrite IH.
Qed.

Lemma rows_op_aligned (g : Q -> Q -> Q) (x : bvec) (v : vec) :
  rows_of (length v) x ->
  rows_op g x v = Ok (map (fun row => zip_with g row v) x).
Proof.
  unfold rows_of, rows_op. induction 1 as [|row x Hrow _ IH]; cbn [mapM map].
  - reflexivity.
  - unfold bcast at 1. rewrite Hrow, Nat.eqb_refl, zip_withM_pure.
    cbn [rbind]. now rewrite IH.
Qed.

(** *** Running sums *)

Lemma cumsum_from_snoc (l : vec) (x acc : Q) :
  cumsum_from acc (l ++ [x])
    = cumsum_from acc l ++ [fold_left Qplus l acc + x].
Proof.
  revert acc. induction l as [|y l IH]; intros acc; cbn; [reflexivity|].
  now rewrite IH.
Qed.

Lemma qsum_app (a b : vec) : qsum (a ++ b) == qsum a + qsum b.
Proof.
  induction a as [|x a IH].
  - change (qsum b == 0 + qsum b). ring.
  - change (x + qsum (a ++ b) == x + qsum a + qsum b). rewrite IH. ring.
Qed.

Lemma fold_left_plus (l : vec) (acc : Q) :
  fold_left Qplus l acc == acc + qsum (rev l).
Proof.
  revert acc. induction l as [|y l IH]; intros acc; cbn [fold_left rev].
  - change (acc == acc + 0). ring.
  - rewrite IH, qsum_app. change (qsum [y]) with (y + 0). ring.
Qed.

Lemma qsum_rev (l : vec) : qsum (rev l) == qsum l.
Proof.
  induction l as [|x l IH]; [reflexivity|].
  cbn [rev]. rewrite qsum_app, IH.
  change (qsum l + (x + 0) == x + qsum l). ring.
Qed.

Lemma rev_cumsum_rev (l : vec) : veq (rev (cumsum (rev l))) (suffix_sums l).
Proof.
  unfold cumsum. induction l as [|x l IH]; cbn [rev suffix_sums].
  - constructor.
  - rewrite cumsum_from_snoc, rev_unit. constructor; [|exact IH].
    rewrite fold_left_plus, rev_involutive.
    change (0 + qsum l + x == x + qsum l). ring.
Qed.

Lemma neg_cumsum_flipped_suffix (l : vec) :
  veq (neg_cumsum_flipped l) (map Qopp (suffix_sums l)).
Proof.
  unfold neg_cumsum_flipped. apply map_veq; [|apply rev_cumsum_rev].
  intros x x' Hx. now rewrite Hx.
Qed.

Lemma neg_cumsum_flipped_len (l : vec) :
  length (neg_cumsum_flipped l) = length l.
Proof.
  unfold neg_cumsum_flipped, cumsum.
  now rewrite length_map, length_rev, cumsum_from_len, length_rev.
Qed.

Lemma nth_cumsum_from (l : vec) :
  forall (i : nat) (acc : Q),
    (i < length l)%nat ->
    nth i (cumsum_from acc l) 0 == acc + qsum (firstn (S i) l).
Proof.
  induction l as [|x l IH]; intros i acc Hi; [cbn in Hi; lia|].
  destruct i as [|i].
  - change (acc + x == acc + (x + 0)). ring.
  - cbn [cumsum_from nth]. rewrite IH by (cbn in Hi; lia).
    change (acc + x + qsum (firstn (S i) l)
            == acc + (x + qsum (firstn (S i) l))). ring.
Qed.

Lemma nth_suffix_sums (l : vec) :
  forall i : nat, nth i (suffix_sums l) 0 == qsum (skipn i l).
Proof.
  induction l as [|x l IH]; intros i.
  - destruct i; reflexivity.
  - destruct i as [|i]; [reflexivity|]. cbn [suffix_sums nth skipn]. apply IH.
Qed.

Lemma nth_veq (a b : vec) :
  veq a b -> forall i : nat, nth i a 0 == nth i b 0.
Proof.
  induction 1 as [|x y a b Hxy _ IH]; intros i.
  - reflexivity.
  - destruct i; [exact Hxy|apply IH].
Qed.


Lemma dot_cons (x y : Q) (a b : vec) : dot (x :: a) (y :: b) = x * y + dot a b.
Proof. reflexivity. Qed.

(** Summation by parts: a running sum on one side of a product is a sum of
    the rest on the other side. *)
Lemma dot_cumsum_from (a : vec) :
  forall (y : vec) (acc : Q),
    length a = length y ->
    dot (cumsum_from acc a) y == acc * qsum y + dot a (suffix_sums y).
Proof.
  induction a as [|x a IH]; intros [|y0 y] acc Hlen; try discriminate.
  - change (0 == acc * 0 + 0). ring.
  - cbn [cumsum_from suffix_sums]. rewrite !dot_cons, !qsum_cons.
    rewrite IH by (cbn in Hlen; lia). ring.
Qed.

Lemma dot_map_opp (a b : vec) : dot a (map Qopp b) == - dot a b.
Proof.
  revert b. induction a as [|x a IH]; intros [|y b]; cbn [map];
    try (change (0 == - 0); ring).
  rewrite !dot_cons, IH. ring.
Qed.

Lemma dot_neg_cumsum_flipped (a y : vec) :
  length a = length y ->
  dot a (neg_cumsum_flipped y) == - dot (cumsum a) y.
Proof.
  intros Hlen.
  rewrite (dot_veq _ _ _ _ (veq_refl a) (neg_cumsum_flipped_suffix y)).
  rewrite dot_map_opp. unfold cumsum. rewrite dot_cumsum_from by exact Hlen.
  ring.
Qed.

(** *** The Poisson solve, row by row *)

Lemma solve_poisson_rows (self : RadialShiftExp) (f : bvec) :
  length (_dr self) = length (rs self) ->
  rows_of (length (rs self)) f ->
  solve_poisson self f = Ok (map (poisson_row self) f).
Proof.
  intros Hdr Hf. unfold solve_poisson, antiderivative. cbv zeta.
  assert (Hmap : forall (g : vec -> vec) (x : bvec),
             (forall row, length (g row) = length row) ->
             rows_of (length (rs self)) x ->
             rows_of (length (rs self)) (map g x)).
  { intros g x Hg Hx. unfold rows_of in *. induction Hx; cbn; constructor.
    - now rewrite Hg.
    - assumption. }
  assert (Hzip : forall (g : Q -> Q -> Q) (v row : vec),
             length v = length (rs self) ->
             length row = length (rs self) ->
             length (zip_with g row v) = length (rs self)).
  { intros g v row Hv Hrow. rewrite zip_with_len, Hv, Hrow. apply Nat.min_id. }
  assert (Hzips : forall (g : Q -> Q -> Q) (v : vec) (x : bvec),
             length v = length (rs self) ->
             rows_of (length (rs self)) x ->
             rows_of (length (rs self)) (map (fun row => zip_with g row v) x)).
  { intros g v x Hv Hx. unfold rows_of in *. induction Hx; cbn; constructor.
    - now apply Hzip.
    - assumption. }
  rewrite (rows_op_aligned Qmult f (rs self) Hf). cbn [rbind].
  pose proof (Hzips Qmult (rs self) f eq_refl Hf) as H1.
  rewrite (rows_op_aligned Qmult _ (rs self) H1). cbn [rbind].
  pose proof (Hzips Qmult (rs self) _ eq_refl H1) as H2.
  rewrite <- Hdr in H2 at 1.
  rewrite (rows_op_aligned Qmult _ (_dr self) H2). rewrite Hdr in H2.
  cbn [rbind String.eqb Ascii.eqb Bool.eqb as_tensor].
  pose proof (Hzips Qmult (_dr self) _ Hdr H2) as H3.
  pose proof (Hmap cumsum _ (fun row => cumsum_from_len row 0) H3) as H4.
  set (rr := map (fun r => r * r + poisson_eps) (rs self)).
  assert (Hrr : length rr = length (rs self)) by apply length_map.
  rewrite <- Hrr in H4 at 1.
  rewrite (rows_op_aligned Qdiv _ rr H4). rewrite Hrr in H4.
  cbn [rbind].
  pose proof (Hzips Qdiv rr _ Hrr H4) as H5.
  rewrite <- Hdr in H5 at 1.
  rewrite (rows_op_aligned Qmult _ (_dr self) H5).
  cbn [rbind String.eqb Ascii.eqb Bool.eqb as_tensor].
  rewrite !map_map. reflexivity.
Qed.

Lemma init_shape (np : numeric) (rmin0 rmax : Q) (nr : nat)
    (self : RadialShiftExp) :
  RadialShiftExp_init np rmin0 rmax nr = Ok self ->
  _boxshape self = nr /\ length (rs self) = nr /\ length (_dr self) = nr /\
  length (_rgrid self) = nr /\ length (_dvolume self) = nr.
Proof.
  unfold RadialShiftExp_init. cbv zeta.
  assert (Hlin : forall a b, length (linspace a b nr) = nr).
  { intros a b. unfold linspace. destruct nr as [|[|n]]; [reflexivity..|].
    now rewrite length_map, length_seq. }
  destruct (item _ 1); cbn [rbind]; [|discriminate].
  destruct (item _ 0); cbn [rbind]; [|discriminate].
  intros [= <-]. cbn [_boxshape rs _dr _rgrid _dvolume].
  rewrite zip_with_len, !length_map, Hlin, Nat.min_id. tauto.
Qed.

Lemma init_lengths (np : numeric) (rmin0 rmax : Q) (nr : nat)
    (self : RadialShiftExp) :
  RadialShiftExp_init np rmin0 rmax nr = Ok self ->
  length (rs self) = nr /\ length (_dr self) = nr.
Proof.
  intros H. destruct (init_shape _ _ _ _ _ H) as (_ & H1 & H2 & _).
  now split.
Qed.

(** *** The bilinear form behind the Poisson solve *)

Lemma zip3_swap (u p w : vec) :
  qsum (zip_with Qmult (zip_with Qmult u p) w) == dot (zip_with Qmult u w) p.
Proof.
  revert p w. induction u as [|x u IH]; intros [|y p] [|z w];
    try reflexivity.
  change (x * y * z + qsum (zip_with Qmult (zip_with Qmult u p) w)
          == x * z * y + dot (zip_with Qmult u w) p).
  rewrite IH. ring.
Qed.

Lemma zip3_swap_l (u p w : vec) :
  qsum (zip_with Qmult (zip_with Qmult p u) w) == dot (zip_with Qmult u w) p.
Proof.
  revert p w. induction u as [|x u IH]; intros [|y p] [|z w];
    try reflexivity.
  change (y * x * z + qsum (zip_with Qmult (zip_with Qmult p u) w)
          == x * z * y + dot (zip_with Qmult u w) p).
  rewrite IH. ring.
Qed.

Lemma weighted_row (u r d : vec) :
  veq (zip_with Qmult u (zip_with (fun a b => a * a * b) r d))
      (zip_with Qmult (zip_with Qmult (zip_with Qmult u r) r) d).
Proof.
  revert r d. induction u as [|x u IH]; intros [|a r] [|b d];
    try constructor.
  - ring.
  - apply IH.
Qed.

Lemma weighted_form_sym (a b r d : vec) :
  dot a (zip_with Qmult (zip_with Qdiv b r) d)
  == dot b (zip_with Qmult (zip_with Qdiv a r) d).
Proof.
  revert b r d. induction a as [|x a IH]; intros [|y b] [|z r] [|e d];
    try reflexivity.
  change (x * (y / z * e) + dot a (zip_with Qmult (zip_with Qdiv b r) d)
          == y * (x / z * e) + dot b (zip_with Qmult (zip_with Qdiv a r) d)).
  rewrite IH. unfold Qdiv. ring.
Qed.


Lemma radial_inner_poisson_r (self : RadialShiftExp) (u v : vec) :
  length (_dr self) = length (rs self) ->
  length u = length (rs self) -> length v = length (rs self) ->
  let X := fun row =>
    cumsum (zip_with Qmult
              (zip_with Qmult (zip_with Qmult row (rs self)) (rs self))
              (_dr self)) in
  let rr := map (fun r => r * r + poisson_eps) (rs self) in
  radial_inner self u (poisson_row self v)
  == - dot (X u) (zip_with Qmult (zip_with Qdiv (X v) rr) (_dr self)).
Proof.
  intros Hdr Hu Hv X rr. unfold radial_inner. rewrite zip3_swap.
  unfold poisson_row. cbv zeta. fold rr. fold (X v).
  assert (Hlen : forall row, length row = length (rs self) ->
                             length (X row) = length (rs self)).
  { intros row Hrow. unfold X, cumsum.
    rewrite cumsum_from_len, !zip_with_len, Hrow, Hdr, !Nat.min_id.
    reflexivity. }
  rewrite dot_neg_cumsum_flipped.
  2:{ rewrite !zip_with_len, (Hlen v Hv), Hu. unfold rr.
      rewrite length_map, Hdr, !Nat.min_id. reflexivity. }
  apply Qopp_comp. apply dot_veq; [|apply veq_refl].
  unfold X, cumsum. apply cumsum_from_veq; [|reflexivity].
  apply weighted_row.
Qed.

(** X9: the Poisson solve is symmetric for the radial weight [r^2 dr], as
    the comment in [solve_poisson] announces: on every grid the constructor
    builds and for every two rows [u], [v] of the grid's length, the solve
    returns and [sum_i u_i (P v)_i r_i^2 dr_i] equals
    [sum_i (P u)_i v_i r_i^2 dr_i]. *)
Theorem solve_poisson_is_symmetric
    (np : numeric) (rmin0 rmax : Q) (nr : nat) (self : RadialShiftExp)
    (u v : vec) :
  RadialShiftExp_init np rmin0 rmax nr = Ok self ->
  length u = nr -> length v = nr ->
  exists pu pv : vec,
    solve_poisson self [u; v] = Ok [pu; pv] /\
    radial_inner self u pv == radial_inner self pu v.
Proof.
  intros Hinit Hu Hv. destruct (init_lengths _ _ _ _ _ Hinit) as [Hrs Hdr].
  rewrite <- Hrs in Hu, Hv, Hdr.
  exists (poisson_row self u), (poisson_row self v). split.
  - apply solve_poisson_rows; [exact Hdr|]. now repeat constructor.
  - rewrite (radial_inner_poisson_r self u v Hdr Hu Hv). cbv zeta.
    unfold radial_inner at 1. rewrite zip3_swap_l.
    pose proof (radial_inner_poisson_r self v u Hdr Hv Hu) as H.
    cbv zeta in H. unfold radial_inner in H. rewrite zip3_swap in H.
    rewrite H. apply Qopp_comp. apply weighted_form_sym.
Qed.


(** *** Linearity *)

Lemma lincomb_veq (c : Q) (f f' h h' : vec) :
  veq f f' -> veq h h' -> veq (lincomb c f h) (lincomb c f' h').
Proof.
  apply zip_with_veq. intros x x' y y' Hx Hy. now rewrite Hx, Hy.
Qed.

Lemma lin_zip (g : Q -> Q -> Q) :
  (forall x x' r, x == x' -> g x r == g x' r) ->
  (forall c x y r, g (c * x + y) r == c * g x r + g y r) ->
  forall (v x : vec) (c : Q) (f h : vec),
    veq x (lincomb c f h) ->
    veq (zip_with g x v) (lincomb c (zip_with g f v) (zip_with g h v)).
Proof.
  intros Hproper Hlin v. induction v as [|r v IH]; intros x c f h Hx.
  - destruct x, f, h; constructor.
  - destruct f as [|a f], h as [|b h]; inversion Hx as [|x0 ? x' ? H0 Hx']; subst;
      try constructor.
    + rewrite (Hproper _ _ r H0). apply Hlin.
    + now apply IH.
Qed.

Lemma lin_cumsum_from (x : vec) :
  forall (c : Q) (f h : vec) (acc a1 a2 : Q),
    acc == c * a1 + a2 ->
    veq x (lincomb c f h) ->
    veq (cumsum_from acc x)
        (lincomb c (cumsum_from a1 f) (cumsum_from a2 h)).
Proof.
  induction x as [|x0 x IH]; intros c f h acc a1 a2 Hacc Hx;
    destruct f as [|a f], h as [|b h]; inversion Hx as [|? ? ? ? H0 Hx']; subst;
    try constructor.
  - cbn [cumsum_from]. rewrite Hacc, H0. ring.
  - apply IH; [|exact Hx']. rewrite Hacc, H0. ring.
Qed.

Lemma qsum_lincomb (c : Q) (f h : vec) :
  length f = length h -> qsum (lincomb c f h) == c * qsum f + qsum h.
Proof.
  revert h. induction f as [|a f IH]; intros [|b h] Hlen; try discriminate.
  - change (0 == c * 0 + 0). ring.
  - change (c * a + b + qsum (lincomb c f h)
            == c * (a + qsum f) + (b + qsum h)).
    rewrite IH by (cbn in Hlen; lia). ring.
Qed.

Lemma lin_suffix_sums (c : Q) (f : vec) :
  forall h x : vec,
    length f = length h ->
    veq x (lincomb c f h) ->
    veq (suffix_sums x) (lincomb c (suffix_sums f) (suffix_sums h)).
Proof.
  induction f as [|a f IH]; intros [|b h] x Hlen Hx; try discriminate.
  - inversion Hx. constructor.
  - inversion Hx as [|x0 ? x' ? H0 Hx']; subst.
    cbn [suffix_sums]. constructor.
    + rewrite (qsum_veq _ _ Hx).
      exact (qsum_lincomb c (a :: f) (b :: h) Hlen).
    + apply IH; [cbn in Hlen; lia|exact Hx'].
Qed.

Lemma lin_map_opp (c : Q) (x f h : vec) :
  veq x (lincomb c f h) ->
  veq (map Qopp x) (lincomb c (map Qopp f) (map Qopp h)).
Proof.
  revert f h. induction x as [|x0 x IH]; intros [|a f] [|b h] Hx;
    inversion Hx as [|? ? ? ? H0 Hx']; subst; try constructor.
  - rewrite H0. ring.
  - now apply IH.
Qed.

Lemma poisson_row_linear (self : RadialShiftExp) (c : Q) (f h : vec) :
  length (_dr self) = length (rs self) ->
  length f = length (rs self) -> length h = length (rs self) ->
  veq (poisson_row self (lincomb c f h))
      (lincomb c (poisson_row self f) (poisson_row self h)).
Proof.
  intros Hdr Hf Hh.
  assert (Hmul : forall (v x : vec) (c0 : Q) (f0 h0 : vec),
             veq x (lincomb c0 f0 h0) ->
             veq (zip_with Qmult x v)
                 (lincomb c0 (zip_with Qmult f0 v) (zip_with Qmult h0 v))).
  { apply lin_zip.
    - intros x x' r Hx. now rewrite Hx.
    - intros. ring. }
  assert (Hdiv : forall (v x : vec) (c0 : Q) (f0 h0 : vec),
             veq x (lincomb c0 f0 h0) ->
             veq (zip_with Qdiv x v)
                 (lincomb c0 (zip_with Qdiv f0 v) (zip_with Qdiv h0 v))).
  { apply lin_zip.
    - intros x x' r Hx. now rewrite Hx.
    - intros. unfold Qdiv. ring. }
  eapply veq_trans; [apply neg_cumsum_flipped_suffix|].
  eapply veq_trans.
  2:{ apply lincomb_veq; apply veq_sym, neg_cumsum_flipped_suffix. }
  apply lin_map_opp. apply lin_suffix_sums.
  { unfold cumsum.
    rewrite !zip_with_len, !cumsum_from_len, !zip_with_len, Hf, Hh.
    reflexivity. }
  apply Hmul, Hdiv. unfold cumsum.
  apply lin_cumsum_from; [ring|].
  apply Hmul, Hmul, Hmul, veq_refl.
Qed.

(** X10: the Poisson solve is linear: on every grid the constructor builds,
    for rows [f], [h] of the grid's length and every factor [c], the solve
    returns on [f], [h] and [c f + h], and its value on [c f + h] is [c]
    times its value on [f] plus its value on [h], entry by entry. *)
Theorem solve_poisson_is_linear
    (np : numeric) (rmin0 rmax : Q) (nr : nat) (self : RadialShiftExp)
    (c : Q) (f h : vec) :
  RadialShiftExp_init np rmin0 rmax nr = Ok self ->
  length f = nr -> length h = nr ->
  exists pf ph p : vec,
    solve_poisson self [f; h] = Ok [pf; ph] /\
    solve_poisson self [lincomb c f h] = Ok [p] /\
    veq p (lincomb c pf ph).
Proof.
  intros Hinit Hf Hh. destruct (init_lengths _ _ _ _ _ Hinit) as [Hrs Hdr].
  rewrite <- Hrs in Hf, Hh, Hdr.
  exists (poisson_row self f), (poisson_row self h),
         (poisson_row self (lincomb c f h)).
  split; [|split].
  - apply solve_poisson_rows; [exact Hdr|]. now repeat constructor.
  - apply solve_poisson_rows; [exact Hdr|]. constructor; [|constructor].
    unfold lincomb. rewrite zip_with_len, Hf, Hh. apply Nat.min_id.
  - now apply poisson_row_linear.
Qed.


(** *** The antiderivative and the constructor *)

(** X11: on a row of the grid's length, [antiderivative] with
    [zeroat="left"] returns the running sums of [intgn * dr] including the
    current point (so entry 0 is [intgn_0 dr_0], not zero), with
    [zeroat="right"] minus the sums from the current point to the end, and
    with any other [zeroat] it returns [None] without raising. *)
Theorem antiderivative_gives_running_sums
    (np : numeric) (rmin0 rmax : Q) (nr : nat) (self : RadialShiftExp)
    (row : vec) :
  RadialShiftExp_init np rmin0 rmax nr = Ok self ->
  length row = nr ->
  (exists out : vec,
      antiderivative self [row] "left" = Ok (Some [out]) /\
      length out = nr /\
      forall i : nat, (i < nr)%nat ->
        nth i out 0 == qsum (firstn (S i) (zip_with Qmult row (_dr self)))) /\
  (exists out : vec,
      antiderivative self [row] "right" = Ok (Some [out]) /\
      length out = nr /\
      forall i : nat, (i < nr)%nat ->
        nth i out 0 == - qsum (skipn i (zip_with Qmult row (_dr self)))) /\
  (forall zeroat : string,
      zeroat <> "left"%string -> zeroat <> "right"%string ->
      antiderivative self [row] zeroat = Ok None).
Proof.
  intros Hinit Hrow. destruct (init_lengths _ _ _ _ _ Hinit) as [Hrs Hdr].
  assert (Hop : rows_op Qmult [row] (_dr self)
                = Ok [zip_with Qmult row (_dr self)]).
  { apply (rows_op_aligned Qmult [row]). constructor; [|constructor].
    now rewrite Hdr. }
  assert (Hw : length (zip_with Qmult row (_dr self)) = nr).
  { rewrite zip_with_len, Hrow, Hdr. apply Nat.min_id. }
  unfold antiderivative. rewrite Hop. cbn [rbind map].
  split; [|split].
  - eexists. split; [reflexivity|]. unfold cumsum. split.
    + now rewrite cumsum_from_len.
    + intros i Hi. rewrite nth_cumsum_from by (rewrite Hw; exact Hi). ring.
  - eexists. split; [reflexivity|]. split.
    + now rewrite neg_cumsum_flipped_len.
    + intros i Hi.
      rewrite (nth_veq _ _ (neg_cumsum_flipped_suffix _) i).
      assert (Hopp : forall (l : vec) (j : nat),
                 nth j (map Qopp l) 0 == - nth j l 0).
      { induction l as [|x l IH]; intros [|j]; cbn [map nth];
          try reflexivity. apply IH. }
      rewrite Hopp. apply Qopp_comp, nth_suffix_sums.
  - intros zeroat Hl Hr.
    destruct (String.eqb_spec zeroat "left"); [contradiction|].
    destruct (String.eqb_spec zeroat "right"); [contradiction|].
    reflexivity.
Qed.

Lemma Qnat_S_nonzero (n : nat) : ~ Qnat (S n) == 0.
Proof.
  unfold Qnat, Qeq. cbn [Qnum Qden inject_Z]. lia.
Qed.

(** X12: a [RadialShiftExp] grid needs two points: the constructor raises
    [IndexError] (at [logr[1]]) exactly when [nr < 2]; otherwise it returns
    a grid of [nr] points, with [nr] volume elements and a logarithmic
    step [dlogr] that takes [log rmin] to [log rmax] in [nr - 1] steps. *)
Theorem RadialShiftExp_needs_two_points
    (np : numeric) (rmin0 rmax : Q) (nr : nat) :
  match RadialShiftExp_init np rmin0 rmax nr with
  | Raise e => e = IndexError /\ (nr < 2)%nat
  | Ok self =>
      (2 <= nr)%nat /\
      boxshape self = nr /\
      length (rs self) = nr /\
      length (rgrid self) = nr /\
      length (get_dvolume self) = nr /\
      dlogr self * Qnat (nr - 1) == log np rmax - log np rmin0
  end.
Proof.
  destruct (RadialShiftExp_init np rmin0 rmax nr) as [self|e] eqn:Hinit.
  - destruct (init_shape _ _ _ _ _ Hinit) as (Hbox & Hrs & _ & Hgrid & Hvol).
    unfold boxshape, rgrid, get_dvolume.
    assert (Hstep : (2 <= nr)%nat /\
                    dlogr self * Qnat (nr - 1) == log np rmax - log np rmin0).
    { clear Hbox Hrs Hgrid Hvol. revert Hinit.
      unfold RadialShiftExp_init. cbv zeta.
      destruct nr as [|[|n]]; [discriminate..|].
      unfold linspace, item. cbn [seq map nth_error rbind].
      intros [= <-]. cbn [dlogr]. split; [lia|].
      replace (S (S n) - 1)%nat with (S n) by lia.
      pose proof (Qnat_S_nonzero n) as Hnz.
      change (Qnat 1) with 1. change (Qnat 0) with 0. field. exact Hnz. }
    tauto.
  - revert Hinit. unfold RadialShiftExp_init. cbv zeta.
    destruct nr as [|[|n]].
    + cbn. intros [= <-]. split; [reflexivity|lia].
    + cbn. intros [= <-]. split; [reflexivity|lia].
    + unfold linspace, item. cbn [seq map nth_error rbind]. discriminate.
Qed.

End GridsFacts.

(** ** The radial grid: the sign of the Poisson solve *)

Section GridsSigns.

Import Eigpairs Grids.

Lemma qsum_nonnegative (l : vec) : nonnegative l -> 0 <= qsum l.
Proof.
  induction 1 as [|x l Hx _ IH]; [apply Qle_refl|].
  rewrite qsum_cons. lra.
Qed.

Lemma qsum_skipn_decreases (l : vec) :
  nonnegative l ->
  forall i j : nat, (i <= j)%nat -> qsum (skipn j l) <= qsum (skipn i l).
Proof.
  induction 1 as [|x l Hx Hl IH]; intros i j Hij.
  - destruct i, j; apply Qle_refl.
  - destruct j as [|j].
    + replace i with 0%nat by lia. apply Qle_refl.
    + destruct i as [|i].
      * cbn [skipn]. rewrite qsum_cons.
        pose proof (IH 0%nat j ltac:(lia)) as H0.
        change (skipn 0 l) with l in H0. lra.
      * cbn [skipn]. apply IH. lia.
Qed.

Lemma cumsum_from_nonnegative (l : vec) :
  nonnegative l ->
  forall acc : Q, 0 <= acc -> nonnegative (cumsum_from acc l).
Proof.
  induction 1 as [|x l Hx _ IH]; intros acc Hacc; cbn [cumsum_from];
    constructor.
  - lra.
  - apply IH. lra.
Qed.

Lemma weighted_source_nonnegative (f : vec) :
  nonnegative f ->
  forall r d : vec,
    nonnegative d ->
    nonnegative
      (zip_with Qmult (zip_with Qmult (zip_with Qmult f r) r) d).
Proof.
  induction 1 as [|x f Hx _ IH]; intros [|a r] d Hd; try constructor;
    destruct Hd as [|b d Hb Hd]; constructor.
  - assert (E : x * a * a * b == x * (a * a) * b) by ring. rewrite E.
    assert (Ha : 0 <= a * a) by nra.
    apply Qmult_le_0_compat; [apply Qmult_le_0_compat|]; assumption.
  - now apply IH.
Qed.

Lemma scaled_back_nonnegative (c : vec) :
  nonnegative c ->
  forall r d : vec,
    nonnegative d ->
    nonnegative
      (zip_with Qmult
         (zip_with Qdiv c (map (fun a => a * a + poisson_eps) r)) d).
Proof.
  induction 1 as [|x c Hx _ IH]; intros [|a r] d Hd; try constructor;
    destruct Hd as [|b d Hb Hd]; constructor.
  - assert (Hpos : 0 < a * a + poisson_eps).
    { assert (0 < poisson_eps) by reflexivity. nra. }
    assert (Hq : 0 <= x / (a * a + poisson_eps)).
    { unfold Qdiv. apply Qmult_le_0_compat; [exact Hx|].
      apply Qlt_le_weak, Qinv_lt_0_compat, Hpos. }
    apply Qmult_le_0_compat; assumption.
  - now apply IH.
Qed.

Lemma init_dr_nonnegative (np : numeric) (rmin0 rmax : Q) (nr : nat)
    (self : RadialShiftExp) :
  RadialShiftExp_init np rmin0 rmax nr = Ok self ->
  (forall u : Q, 0 <= exp np u) ->
  log np rmin0 <= log np rmax ->
  nonnegative (_dr self).
Proof.
  intros Hinit Hexp Hlog.
  pose proof (RadialShiftExp_needs_two_points np rmin0 rmax nr) as Hsteps.
  rewrite Hinit in Hsteps. destruct Hsteps as (Hnr & _ & _ & _ & _ & Hstep).
  assert (Hd : 0 <= dlogr self).
  { assert (Hn : 0 < Qnat (nr - 1)).
    { unfold Qnat, Qlt. cbn [Qnum Qden inject_Z]. lia. }
    nra. }
  revert Hinit. unfold RadialShiftExp_init. cbv zeta.
  destruct (item _ 1) as [l1|]; cbn [rbind]; [|discriminate].
  destruct (item _ 0) as [l0|]; cbn [rbind]; [|discriminate].
  intros [= <-]. cbn [_dr dlogr] in *. unfold nonnegative.
  rewrite !map_map. apply List.Forall_forall. intros q Hq.
  apply in_map_iff in Hq as (u & <- & _).
  pose proof (Hexp u). nra.
Qed.

(** X21: the potential of a nonnegative source is nonpositive and rises
    towards the outer end.  On a grid the constructor has built with
    [exp] nonnegative and [log rmin <= log rmax], [solve_poisson] of a row
    without negative entries returns a row without positive entries, whose
    entries do not decrease along the grid. *)
Theorem solve_poisson_of_a_nonnegative_source
    (np : numeric) (rmin0 rmax : Q) (nr : nat) (self : RadialShiftExp)
    (f : vec) :
  RadialShiftExp_init np rmin0 rmax nr = Ok self ->
  (forall u : Q, 0 <= exp np u) ->
  log np rmin0 <= log np rmax ->
  length f = nr ->
  Forall (fun q => 0 <= q) f ->
  exists pf : vec,
    solve_poisson self [f] = Ok [pf] /\
    length pf = nr /\
    Forall (fun v => v <= 0) pf /\
    forall i j : nat, (i <= j)%nat -> (j < nr)%nat ->
      nth i pf 0 <= nth j pf 0.
Proof.
  intros Hinit Hexp Hlog Hf Hpos.
  destruct (init_lengths _ _ _ _ _ Hinit) as [Hrs Hdr].
  pose proof (init_dr_nonnegative _ _ _ _ _ Hinit Hexp Hlog) as Hdrpos.
  exists (poisson_row self f). split.
  { apply solve_poisson_rows; [congruence|]. constructor; [congruence|constructor]. }
  unfold poisson_row. cbv zeta.
  set (w := zip_with Qmult
              (zip_with Qdiv
                 (cumsum (zip_with Qmult
                            (zip_with Qmult (zip_with Qmult f (rs self))
                               (rs self)) (_dr self)))
                 (map (fun r => r * r + poisson_eps) (rs self)))
              (_dr self)).
  assert (Hw : nonnegative w).
  { apply scaled_back_nonnegative; [|exact Hdrpos].
    apply cumsum_from_nonnegative; [|apply Qle_refl].
    now apply weighted_source_nonnegative. }
  assert (Hlen : length w = nr).
  { unfold w, cumsum.
    rewrite !zip_with_len, length_map, cumsum_from_len, !zip_with_len.
    rewrite Hf, Hrs, Hdr, !Nat.min_id. reflexivity. }
  assert (Hnth : forall i : nat,
             nth i (neg_cumsum_flipped w) 0 == - qsum (skipn i w)).
  { intros i. rewrite (nth_veq _ _ (neg_cumsum_flipped_suffix w) i).
    destruct (Nat.lt_ge_cases i (length w)) as [Hi|Hi].
    - rewrite (nth_indep _ 0 (- 0))
        by now rewrite length_map, suffix_sums_len.
      rewrite map_nth. apply Qopp_comp, nth_suffix_sums.
    - rewrite nth_overflow by now rewrite length_map, suffix_sums_len.
      rewrite skipn_all2 by exact Hi. reflexivity. }
  split; [now rewrite neg_cumsum_flipped_len|]. split.
  - apply List.Forall_forall. intros v Hv.
    apply (In_nth _ _ 0) in Hv as (i & _ & <-). rewrite Hnth.
    assert (0 <= qsum (skipn i w)).
    { apply qsum_nonnegative. unfold nonnegative in *.
      apply List.Forall_forall. intros q Hq.
      rewrite List.Forall_forall in Hw. apply Hw.
      rewrite <- (firstn_skipn i w). apply in_or_app. now right. }
    lra.
  - intros i j Hij Hj. rewrite !Hnth.
    pose proof (qsum_skipn_decreases w Hw i j Hij). lra.
Qed.

End GridsSigns.

(** ** The Legendre radial grid: the cubic spline *)

Section RadialGridFacts.

Import Eigpairs RadialGrid.

Variable lib : numlib.

(** *** Indexing *)

Lemma py_index_nth {A : Type} (l : list A) (i : Z) (d : A) :
  (0 <= i < Z.of_nat (length l))%Z ->
  py_index l i = Ok (nth (Z.to_nat i) l d).
Proof.
  intros [H0 H1]. unfold py_index.
  destruct (Z.ltb_spec i 0) as [|_]; [lia|].
  destruct (Z.ltb_spec i 0) as [|_]; [lia|].
  destruct (nth_error l (Z.to_nat i)) as [a|] eqn:Hn.
  - f_equal. symmetry. now apply nth_error_nth.
  - apply nth_error_None in Hn. lia.
Qed.

Lemma mapM_map_ok {A B : Type} (f : A -> result B) (g : A -> B) (l : list A) :
  Forall (fun a => f a = Ok (g a)) l -> mapM f l = Ok (map g l).
Proof.
  induction 1 as [|a l Ha _ IH]; cbn [mapM map]; [reflexivity|].
  now rewrite Ha, IH.
Qed.

Lemma zip_with_map2 {A B C D : Type} (f : B -> C -> D) (g : A -> B)
    (h : A -> C) (l : list A) :
  zip_with f (map g l) (map h l) = map (fun a => f (g a) (h a)) l.
Proof. induction l as [|a l IH]; cbn; [reflexivity|]. now rewrite IH. Qed.

Lemma zip_with_self_map {A C D : Type} (f : A -> C -> D) (h : A -> C)
    (l : list A) :
  zip_with f l (map h l) = map (fun a => f a (h a)) l.
Proof. induction l as [|a l IH]; cbn; [reflexivity|]. now rewrite IH. Qed.

Lemma zip_with_map_l {A B C D : Type} (f : B -> C -> D) (g : A -> B)
    (l : list A) (k : list C) :
  zip_with f (map g l) k = zip_with (fun a c => f (g a) c) l k.
Proof.
  revert k. induction l as [|a l IH]; intros [|c k]; cbn; [reflexivity..|].
  now rewrite IH.
Qed.

(** *** Where a query point falls *)

Lemma count_below_range (x : vec) (q : Q) :
  (0 <= count_below x q <= Z.of_nat (length x))%Z.
Proof.
  unfold count_below. split; [lia|].
  apply inj_le. induction x as [|a x IH]; cbn [List.filter length]; [lia|].
  destruct (negb (Qle_bool q a)); cbn [length]; lia.
Qed.

Lemma locate_range (x : vec) (q : Q) :
  (2 <= length x)%nat ->
  (1 <= locate (Z.of_nat (length x)) x q <= Z.of_nat (length x) - 1)%Z.
Proof.
  intros Hn. unfold locate. pose proof (count_below_range x q) as Hc.
  destruct (Z.eqb_spec (count_below x q) 0) as [Hz|Hz].
  - destruct (Z.eqb_spec 1 (Z.of_nat (length x))); lia.
  - destruct (Z.eqb_spec (count_below x q) (Z.of_nat (length x))); lia.
Qed.

(** On increasing nodes the count splits the nodes: those before it lie
    below the query point, the others do not. *)
Lemma count_below_splits (x : vec) (q : Q) :
  increasing x ->
  forall i : nat, (i < length x)%nat ->
    if Z.ltb (Z.of_nat i) (count_below x q) then nth i x 0 < q
    else q <= nth i x 0.
Proof.
  unfold increasing, count_below. induction 1 as [|a x Hs IH Ha]; intros i Hi.
  - cbn in Hi. lia.
  - cbn [List.filter]. destruct (Qle_bool q a) eqn:Hqa; cbn [negb].
    + apply Qle_bool_iff in Hqa.
      assert (Hnone : List.filter (fun xi => negb (Qle_bool q xi)) x = []).
      { clear IH Hi. induction x as [|b x IHx]; [reflexivity|].
        cbn [List.filter]. inversion Ha as [|? ? Hab Ha']; subst.
        inversion Hs as [|? ? Hs' Hb]; subst.
        assert (Hqb : Qle_bool q b = true).
        { apply Qle_bool_iff. apply Qlt_le_weak.
          eapply Qle_lt_trans; [exact Hqa|exact Hab]. }
        rewrite Hqb. cbn [negb]. now apply IHx. }
      rewrite Hnone. cbn [length].
      destruct (Z.ltb_spec (Z.of_nat i) (Z.of_nat 0)) as [|_]; [lia|].
      destruct i as [|i]; [exact Hqa|]. cbn [nth].
      apply Qlt_le_weak. eapply Qle_lt_trans; [exact Hqa|].
      rewrite List.Forall_forall in Ha. apply Ha, nth_In. cbn in Hi. lia.
    + assert (Haq : a < q).
      { apply Qnot_le_lt. intros Hle. apply Qle_bool_iff in Hle. congruence. }
      cbn [length]. destruct i as [|i].
      * destruct (Z.ltb_spec (Z.of_nat 0) (Z.of_nat (S (length
            (List.filter (fun xi => negb (Qle_bool q xi)) x))))) as [_|];
          [exact Haq|lia].
      * cbn [nth]. specialize (IH i ltac:(cbn in Hi; lia)).
        destruct (Z.ltb_spec (Z.of_nat i) (Z.of_nat (length
            (List.filter (fun xi => negb (Qle_bool q xi)) x))));
          destruct (Z.ltb_spec (Z.of_nat (S i)) (Z.of_nat (S (length
            (List.filter (fun xi => negb (Qle_bool q xi)) x)))));
          try lia; exact IH.
Qed.

Lemma increasing_nth (x : vec) :
  increasing x ->
  forall i j : nat, (i < j)%nat -> (j < length x)%nat -> nth i x 0 < nth j x 0.
Proof.
  unfold increasing. induction 1 as [|a x Hs IH Ha]; intros i j Hij Hj.
  - cbn in Hj. lia.
  - destruct j as [|j]; [lia|]. cbn [nth]. destruct i as [|i].
    + rewrite List.Forall_forall in Ha. apply Ha, nth_In. cbn in Hj. lia.
    + apply IH; [lia|cbn in Hj; lia].
Qed.

Lemma count_below_node (x : vec) (q : Q) (j : nat) :
  increasing x -> (j < length x)%nat -> q == nth j x 0 ->
  count_below x q = Z.of_nat j.
Proof.
  intros Hinc Hj Hq. pose proof (count_below_range x q) as Hr.
  pose proof (count_below_splits x q Hinc) as Hs.
  destruct (Z.lt_trichotomy (count_below x q) (Z.of_nat j)) as [Hlt|[Heq|Hgt]];
    [|exact Heq|].
  - (* node [count] is below [j], yet it is not below the query point *)
    specialize (Hs (Z.to_nat (count_below x q)) ltac:(lia)).
    rewrite Z2Nat.id in Hs by lia. rewrite Z.ltb_irrefl in Hs.
    pose proof (increasing_nth x Hinc (Z.to_nat (count_below x q)) j
                  ltac:(lia) Hj) as Hlt'.
    rewrite <- Hq in Hlt'. exfalso. eapply Qlt_not_le; eassumption.
  - specialize (Hs j Hj).
    destruct (Z.ltb_spec (Z.of_nat j) (count_below x q)) as [_|]; [|lia].
    rewrite <- Hq in Hs. exfalso. exact (Qlt_irrefl _ Hs).
Qed.


(** *** The spline, point by point *)

Lemma matmul_T_ok (n : nat) (y : bvec) (inv : rmat) :
  (0 < n)%nat -> square n inv -> Forall (fun row => length row = n) y ->
  matmul_T y inv = Ok (map (fun row => map (dot row) inv) y).
Proof.
  intros Hn [Hlen Hrows] Hy. unfold matmul_T. apply mapM_map_ok.
  eapply Forall_impl; [exact Hy|]. cbn. intros row Hrow.
  destruct inv as [|r inv]; [cbn in Hlen; lia|].
  inversion Hrows as [|? ? Hr _]; subst. cbn [hd].
  rewrite Hrow, Hr, Nat.eqb_refl. reflexivity.
Qed.

Lemma take_at_ok (n : nat) (y : bvec) (idx : list Z) :
  Forall (fun row => length row = n) y ->
  Forall (fun i => (0 <= i < Z.of_nat n)%Z) idx ->
  take_at y idx = Ok (map (fun row => map (fun i => nth (Z.to_nat i) row 0) idx) y).
Proof.
  intros Hy Hidx. unfold take_at. apply mapM_map_ok.
  eapply Forall_impl; [exact Hy|]. cbn. intros row Hrow.
  apply mapM_map_ok. eapply Forall_impl; [exact Hidx|]. cbn. intros i Hi.
  apply py_index_nth. now rewrite Hrow.
Qed.

Lemma cubic_spline_values (self self' : LegendreRadialShiftExp) (inv : rmat)
    (xq x : vec) (y : bvec) :
  _get_spline_mat_inverse lib self = (Ok inv, self') ->
  (2 <= length x)%nat ->
  square (length x) inv ->
  Forall (fun row => length row = length x) y ->
  _cubic_spline lib self xq x y
    = (Ok (map (fun row =>
                  map (spline_value x row (map (dot row) inv)) xq) y),
       self').
Proof.
  intros Hinv Hn Hsq Hy. unfold _cubic_spline. rewrite Hinv. f_equal.
  cbv zeta. cbn [rbind].
  rewrite (matmul_T_ok (length x) y inv ltac:(lia) Hsq Hy). cbn [rbind].
  set (nr := Z.of_nat (length x)).
  assert (Hir : forall q, (1 <= locate nr x q <= nr - 1)%Z).
  { intros q. apply locate_range. exact Hn. }
  assert (Hidxr : Forall (fun i => (0 <= i < nr)%Z) (map (locate nr x) xq)).
  { apply List.Forall_forall. intros i Hi. apply in_map_iff in Hi as (q & <- & _).
    specialize (Hir q). lia. }
  assert (Hidxl : Forall (fun i => (0 <= i < nr)%Z)
                    (map (fun i => (i - 1)%Z) (map (locate nr x) xq))).
  { apply List.Forall_forall. intros i Hi. apply in_map_iff in Hi as (i' & <- & Hi).
    apply in_map_iff in Hi as (q & <- & _).
    specialize (Hir q). lia. }
  rewrite (mapM_map_ok (py_index x) (fun i => nth (Z.to_nat i) x 0)).
  2:{ eapply Forall_impl; [exact Hidxl|]. cbn. intros i Hi.
      now apply py_index_nth. }
  cbn [rbind].
  rewrite (mapM_map_ok (py_index x) (fun i => nth (Z.to_nat i) x 0)).
  2:{ eapply Forall_impl; [exact Hidxr|]. cbn. intros i Hi.
      now apply py_index_nth. }
  cbn [rbind].
  assert (Hks : Forall (fun row => length row = length x)
                  (map (fun row => map (dot row) inv) y)).
  { apply List.Forall_forall. intros r Hr. apply in_map_iff in Hr as (row & <- & _).
    rewrite length_map. exact (proj1 Hsq). }
  rewrite (take_at_ok (length x) y _ Hy Hidxl). cbn [rbind].
  rewrite (take_at_ok (length x) y _ Hy Hidxr). cbn [rbind].
  rewrite (take_at_ok (length x) _ _ Hks Hidxl). cbn [rbind].
  rewrite (take_at_ok (length x) _ _ Hks Hidxr). cbn [rbind].
  f_equal. rewrite !map_map.
  repeat (rewrite ?zip_with_map2, ?map_map).
  apply map_ext. intros row.
  repeat (rewrite ?zip_with_map2, ?zip_with_self_map, ?map_map).
  apply map_ext. intros q. unfold spline_value. cbv zeta. fold nr.
  replace (Z.to_nat (locate nr x q - 1)) with (Z.to_nat (locate nr x q) - 1)%nat
    by (specialize (Hir q); lia).
  reflexivity.
Qed.


Lemma locate_node (x : vec) (q : Q) (j : nat) :
  increasing x -> (2 <= length x)%nat -> (j < length x)%nat ->
  q == nth j x 0 ->
  locate (Z.of_nat (length x)) x q = Z.of_nat (Nat.max j 1).
Proof.
  intros Hinc Hn Hj Hq. unfold locate.
  rewrite (count_below_node x q j Hinc Hj Hq).
  destruct (Z.eqb_spec (Z.of_nat j) 0) as [Hz|Hz].
  - destruct (Z.eqb_spec 1 (Z.of_nat (length x))); lia.
  - destruct (Z.eqb_spec (Z.of_nat j) (Z.of_nat (length x))); lia.
Qed.

Lemma spline_value_at_node (x yrow krow : vec) (q : Q) (j : nat) :
  increasing x -> (2 <= length x)%nat -> (j < length x)%nat ->
  q == nth j x 0 ->
  spline_value x yrow krow q == nth j yrow 0.
Proof.
  intros Hinc Hn Hj Hq. unfold spline_value. cbv zeta.
  rewrite (locate_node x q j Hinc Hn Hj Hq), Nat2Z.id.
  destruct j as [|j].
  - (* the first node: the left end of the first interval *)
    change (Nat.max 0 1) with 1%nat. change (1 - 1)%nat with 0%nat.
    set (d := nth 1 x 0 - nth 0 x 0).
    assert (Ht : (q - nth 0 x 0) / d == 0).
    { unfold Qdiv. rewrite Hq. ring. }
    rewrite Ht. ring.
  - (* a later node: the right end of the interval before it *)
    replace (Nat.max (S j) 1) with (S j) by lia.
    replace (S j - 1)%nat with j by lia.
    pose proof (increasing_nth x Hinc j (S j) ltac:(lia) Hj) as Hlt.
    set (d := nth (S j) x 0 - nth j x 0).
    assert (Hd : ~ d == 0).
    { unfold d, Qminus. intros Hz. apply Qlt_minus_iff in Hlt.
      rewrite Hz in Hlt. exact (Qlt_irrefl 0 Hlt). }
    assert (Ht : (q - nth j x 0) / d == 1).
    { rewrite Hq. fold d. now apply Qmult_inv_r. }
    rewrite Ht. ring.
Qed.

Lemma veq_of_nth (a b : vec) :
  length a = length b ->
  (forall j : nat, (j < length a)%nat -> nth j a 0 == nth j b 0) ->
  Grids.veq a b.
Proof.
  revert b. induction a as [|x a IH]; intros [|y b] Hlen Hnth;
    try discriminate; [constructor|].
  constructor.
  - apply (Hnth 0%nat). cbn. lia.
  - apply IH; [cbn in Hlen; lia|]. intros j Hj. apply (Hnth (S j)). cbn. lia.
Qed.

(** X14: whatever slopes the linear solve has produced, the cubic spline
    passes through the data: on strictly increasing nodes [x] (at least
    two), queried at the nodes themselves, [_cubic_spline] returns the rows
    of [y] unchanged. *)
Theorem cubic_spline_reproduces_the_nodes
    (self self' : LegendreRadialShiftExp) (inv : rmat) (xq x : vec) (y : bvec) :
  _get_spline_mat_inverse lib self = (Ok inv, self') ->
  increasing x ->
  (2 <= length x)%nat ->
  square (length x) inv ->
  Forall (fun row => length row = length x) y ->
  Grids.veq xq x ->
  exists out : bvec,
    _cubic_spline lib self xq x y = (Ok out, self') /\ Grids.beq out y.
Proof.
  intros Hinv Hinc Hn Hsq Hy Hxq. eexists. split.
  - now apply (cubic_spline_values self self' inv).
  - unfold Grids.beq. induction Hy as [|row y Hrow _ IH]; cbn [map];
      constructor; [|exact IH].
    pose proof (veq_length _ _ Hxq) as Hlen.
    apply veq_of_nth.
    + now rewrite length_map, Hlen, Hrow.
    + intros j Hj. rewrite length_map in Hj.
      rewrite (nth_indep _ 0 (spline_value x row (map (dot row) inv) 0))
        by now rewrite length_map.
      rewrite map_nth. apply spline_value_at_node; [exact Hinc|exact Hn|lia|].
      now apply nth_veq.
Qed.

(** X15: on at least two nodes and data of matching shape,
    [_cubic_spline] answers every query: no index leaves the nodes, the
    result has one row per row of [y] and one column per query point, and
    on strictly increasing nodes a query point between the first and the
    last node is evaluated on the interval that contains it. *)
Theorem cubic_spline_uses_the_bracketing_interval
    (self self' : LegendreRadialShiftExp) (inv : rmat) (xq x : vec) (y : bvec) :
  _get_spline_mat_inverse lib self = (Ok inv, self') ->
  increasing x ->
  (2 <= length x)%nat ->
  square (length x) inv ->
  Forall (fun row => length row = length x) y ->
  exists out : bvec,
    _cubic_spline lib self xq x y = (Ok out, self') /\
    length out = length y /\
    Forall (fun row => length row = length xq) out /\
    Forall (fun q =>
              let idxr := locate (Z.of_nat (length x)) x q in
              (1 <= idxr <= Z.of_nat (length x) - 1)%Z /\
              (nth 0 x 0 <= q -> q <= nth (length x - 1) x 0 ->
               nth (Z.to_nat (idxr - 1)) x 0 <= q /\
               q <= nth (Z.to_nat idxr) x 0)) xq.
Proof.
  intros Hinv Hinc Hn Hsq Hy. eexists. split; [|split; [|split]].
  - now apply (cubic_spline_values self self' inv).
  - apply length_map.
  - apply List.Forall_forall. intros r Hr.
    apply in_map_iff in Hr as (row & <- & _). apply length_map.
  - apply List.Forall_forall. intros q _. cbv zeta.
    pose proof (locate_range x q Hn) as Hr. split; [exact Hr|].
    intros Hlo Hhi.
    pose proof (count_below_range x q) as Hc.
    pose proof (count_below_splits x q Hinc) as Hs.
    unfold locate in *.
    destruct (Z.eqb_spec (count_below x q) 0) as [Hz|Hz].
    + (* nothing below the query point: it is the first node *)
      destruct (Z.eqb_spec 1 (Z.of_nat (length x))) as [|_]; [lia|].
      change (Z.to_nat (1 - 1)) with 0%nat. change (Z.to_nat 1) with 1%nat.
      split; [exact Hlo|].
      specialize (Hs 1%nat ltac:(lia)). rewrite Hz in Hs. exact Hs.
    + destruct (Z.eqb_spec (count_below x q) (Z.of_nat (length x))) as [Hfull|Hnf].
      * (* every node below the query point: excluded by the upper bound *)
        specialize (Hs (length x - 1)%nat ltac:(lia)).
        destruct (Z.ltb_spec (Z.of_nat (length x - 1)) (count_below x q));
          [|lia].
        exfalso. eapply Qlt_not_le; eassumption.
      * pose proof (Hs (Z.to_nat (count_below x q - 1)) ltac:(lia)) as Hl.
        pose proof (Hs (Z.to_nat (count_below x q)) ltac:(lia)) as Hu.
        rewrite Z2Nat.id in Hl, Hu by lia.
        destruct (Z.ltb_spec (count_below x q - 1) (count_below x q)); [|lia].
        rewrite Z.ltb_irrefl in Hu. split; [now apply Qlt_le_weak|exact Hu].
Qed.


(** *** The change of variable and the interpolation *)

(** X16: [invtransform] undoes [transform]: when [log] undoes [exp] and the
    two ends of the grid differ ([logrmm] is not zero), mapping Legendre
    points to radii and back gives the Legendre points again. *)
Theorem invtransform_undoes_transform
    (self : LegendreRadialShiftExp) (xlg : vec) :
  (forall u : Q, log lib (exp lib u) == u) ->
  (forall a b : Q, a == b -> log lib a == log lib b) ->
  ~ logrmm self == 0 ->
  Grids.veq (invtransform lib self (transform lib self xlg)) xlg.
Proof.
  intros Hlog Hproper Hmm. unfold invtransform, transform.
  induction xlg as [|x xlg IH]; cbn [map]; constructor; [|exact IH].
  set (u := (x + 1) * (1 # 2) * logrmm self + logrmin self).
  assert (Hu : log lib (exp lib u - rmin self + rmin self) == u).
  { rewrite <- (Hlog u) at 2. apply Hproper. ring. }
  rewrite Hu. unfold u. field. exact Hmm.
Qed.

Lemma concat_singletons {A : Type} (l : list A) :
  concat (map (fun r => [r]) l) = l.
Proof.
  induction l as [|r l IH]; [reflexivity|].
  cbn [map concat app]. now rewrite IH.
Qed.

Lemma first_coordinates (l : vec) :
  mapM (fun p : vec => py_index p 0) (map (fun r => [r]) l) = Ok l.
Proof.
  induction l as [|r l IH]; [reflexivity|].
  cbn [map mapM]. rewrite IH. reflexivity.
Qed.

Lemma Qmax_fold_bound (l : vec) :
  forall a : Q,
    a <= fold_left Qmax l a /\ Forall (fun r => r <= fold_left Qmax l a) l.
Proof.
  induction l as [|b l IH]; intros a; cbn [fold_left].
  - split; [apply Qle_refl|constructor].
  - destruct (IH (Qmax a b)) as [H1 H2].
    assert (Ha : a <= Qmax a b /\ b <= Qmax a b).
    { unfold Qmax. destruct (Qle_bool a b) eqn:E.
      - apply Qle_bool_iff in E. split; [exact E|apply Qle_refl].
      - split; [apply Qle_refl|]. apply Qlt_le_weak, Qnot_le_lt.
        intros Hle. apply Qle_bool_iff in Hle. congruence. }
    split; [|constructor; [|exact H2]]; eapply Qle_trans; try exact H1;
      apply Ha.
Qed.

Lemma init_attributes (rmin0 rmax : Q) (nr : nat)
    (self : LegendreRadialShiftExp) :
  LegendreRadialShiftExp_init lib rmin0 rmax nr = Ok self ->
  exists w : vec,
    leggauss lib nr = Ok (xleggauss self, w) /\
    rs self = transform lib self (xleggauss self) /\
    rgrid self = map (fun r => [r]) (rs self) /\
    _spline_mat_inv_ self = None /\
    logrmm self = log lib rmax - log lib rmin0.
Proof.
  unfold LegendreRadialShiftExp_init. cbv zeta.
  destruct (leggauss lib nr) as [[x w]|e]; cbn [rbind]; [|discriminate].
  destruct (inverse lib _) as [ib|e]; cbn [rbind]; [|discriminate].
  intros [= <-]. exists w. cbn. repeat split.
Qed.

(** X17: interpolating at the grid's own points gives the data back: on a
    grid the constructor has built from at least two strictly increasing
    Legendre nodes, with [log] undoing [exp], two different ends and a
    linear solve that succeeds with a matrix of the right shape,
    [interpolate(f, rgrid)] returns [f], whatever [extrap] is. *)
Theorem interpolate_at_the_grid_returns_the_data
    (rmin0 rmax : Q) (nr : nat) (self self' : LegendreRadialShiftExp)
    (inv : rmat) (f : bvec) (extrap : option (list vec -> bvec)) :
  LegendreRadialShiftExp_init lib rmin0 rmax nr = Ok self ->
  (forall n x w, leggauss lib n = Ok (x, w) -> length x = n /\ increasing x) ->
  (forall u : Q, log lib (exp lib u) == u) ->
  (forall a b : Q, a == b -> log lib a == log lib b) ->
  ~ log lib rmax == log lib rmin0 ->
  (2 <= nr)%nat ->
  _get_spline_mat_inverse lib self = (Ok inv, self') ->
  square nr inv ->
  Forall (fun row => length row = nr) f ->
  exists out : bvec,
    interpolate lib self f (rgrid self) extrap = (Ok out, self') /\
    Grids.beq out f.
Proof.
  intros Hinit Hgauss Hlog Hproper Hends Hnr Hinv Hsq Hf.
  destruct (init_attributes _ _ _ _ Hinit) as (w & Hlg & Hrs & Hgrid & _ & Hmm).
  destruct (Hgauss _ _ _ Hlg) as [Hlen Hinc].
  assert (Hmm' : ~ logrmm self == 0).
  { rewrite Hmm. intros Hz. apply Hends.
    rewrite <- (Qplus_0_l (log lib rmin0)), <- Hz. ring. }
  pose proof (invtransform_undoes_transform self (xleggauss self)
                Hlog Hproper Hmm') as Hround.
  rewrite <- Hrs in Hround.
  rewrite <- Hlen in Hnr, Hsq, Hf.
  destruct (cubic_spline_reproduces_the_nodes self self' inv
              (invtransform lib self (rs self)) (xleggauss self) f
              Hinv Hinc Hnr Hsq Hf Hround) as (out & Hout & Hbeq).
  exists out. split; [|exact Hbeq].
  unfold interpolate. rewrite Hgrid.
  rewrite concat_singletons.
  assert (Hne : rs self <> []).
  { rewrite Hrs. unfold transform. destruct (xleggauss self); [cbn in Hnr; lia|].
    discriminate. }
  destruct (rs self) as [|r0 rest] eqn:Ers; [contradiction|].
  cbn [tensor_max rbind].
  rewrite first_coordinates. cbn [rbind].
  destruct (Qmax_fold_bound rest r0) as [H0 Hrest].
  assert (Hall : forallb id (map (fun r => Qle_bool r (fold_left Qmax rest r0))
                               (r0 :: rest)) = true).
  { apply forallb_forall. intros b Hb. apply in_map_iff in Hb as (r & <- & Hr).
    apply Qle_bool_iff. destruct Hr as [<-|Hr]; [exact H0|].
    rewrite List.Forall_forall in Hrest. now apply Hrest. }
  rewrite Hall. rewrite Hout. reflexivity.
Qed.

End RadialGridFacts.

(** ** The Legendre radial grid: the linear system behind the spline *)

Section SplineSystem.

Import Eigpairs RadialGrid.

(** *** Entries of slices *)

Lemma length_diffs_tl (l : vec) : length (tl l) = (length l - 1)%nat.
Proof. destruct l; cbn; lia. Qed.

Lemma length_without_last (l : vec) :
  length (removelast l) = (length l - 1)%nat.
Proof.
  induction l as [|a l IH]; [reflexivity|].
  destruct l as [|b l]; [reflexivity|].
  change (removelast (a :: b :: l)) with (a :: removelast (b :: l)).
  cbn [length] in *. lia.
Qed.

Lemma nth_without_last (l : vec) :
  forall i : nat, (i < length l - 1)%nat ->
    nth i (removelast l) 0 = nth i l 0.
Proof.
  induction l as [|a l IH]; intros i Hi; [cbn in Hi; lia|].
  destruct l as [|b l]; [cbn in Hi; lia|].
  change (removelast (a :: b :: l)) with (a :: removelast (b :: l)).
  destruct i as [|i]; [reflexivity|].
  cbn [nth]. apply IH. cbn [length] in *. lia.
Qed.

Lemma nth_tl (l : vec) (i : nat) : nth i (tl l) 0 = nth (S i) l 0.
Proof. destruct l; [now destruct i|reflexivity]. Qed.

Lemma nth_zip_with (g : Q -> Q -> Q) (a : vec) :
  forall (b : vec) (i : nat),
    (i < length a)%nat -> (i < length b)%nat ->
    nth i (zip_with g a b) 0 = g (nth i a 0) (nth i b 0).
Proof.
  induction a as [|x a IH]; intros [|y b] i Ha Hb;
    try (cbn in Ha, Hb; lia).
  destruct i as [|i]; [reflexivity|].
  cbn [zip_with nth]. apply IH; cbn in Ha, Hb; lia.
Qed.

Lemma nth_map_Q (g : Q -> Q) (l : vec) (i : nat) :
  (i < length l)%nat -> nth i (map g l) 0 = g (nth i l 0).
Proof.
  intros Hi. rewrite (nth_indep _ 0 (g 0)) by now rewrite length_map.
  apply map_nth.
Qed.

Lemma length_diffs (x : vec) : length (diffs x) = (length x - 1)%nat.
Proof.
  unfold diffs. rewrite zip_with_len, length_diffs_tl, length_without_last.
  apply Nat.min_id.
Qed.

Lemma nth_diffs (x : vec) (i : nat) :
  (S i < length x)%nat -> nth i (diffs x) 0 = nth (S i) x 0 - nth i x 0.
Proof.
  intros Hi. unfold diffs.
  rewrite nth_zip_with
    by (rewrite ?length_diffs_tl, ?length_without_last; lia).
  rewrite nth_tl, nth_without_last by lia. reflexivity.
Qed.

(** *** Sums over a row with three entries *)

Lemma qsum_map_ext (g h : nat -> Q) (l : list nat) :
  (forall j, g j == h j) -> qsum (map g l) == qsum (map h l).
Proof.
  intros Hgh. induction l as [|j l IH]; [reflexivity|].
  cbn [map]. rewrite !qsum_cons, IH, Hgh. reflexivity.
Qed.

Lemma qsum_map_plus (g h : nat -> Q) (l : list nat) :
  qsum (map (fun j => g j + h j) l) == qsum (map g l) + qsum (map h l).
Proof.
  induction l as [|j l IH]; [reflexivity|].
  cbn [map]. rewrite !qsum_cons, IH. ring.
Qed.

Lemma qsum_map_at (k : nat) (v : Q) (n : nat) :
  forall s : nat,
    qsum (map (fun j => if Nat.eqb j k then v else 0) (seq s n))
    == if Nat.leb s k && Nat.ltb k (s + n) then v else 0.
Proof.
  induction n as [|n IH]; intros s.
  - cbn [seq map]. destruct (Nat.leb_spec s k), (Nat.ltb_spec k (s + 0));
      cbn [andb]; try reflexivity. lia.
  - cbn [seq map]. rewrite qsum_cons, IH.
    destruct (Nat.eqb_spec s k) as [->|Hne].
    + destruct (Nat.leb_spec (S k) k); [lia|].
      destruct (Nat.leb_spec k k); [|lia].
      destruct (Nat.ltb_spec k (k + S n)); [|lia]. cbn [andb]. ring.
    + destruct (Nat.leb_spec (S s) k), (Nat.leb_spec s k),
        (Nat.ltb_spec k (S s + n)), (Nat.ltb_spec k (s + S n));
        cbn [andb]; try lia; ring.
Qed.

(** Row [i] of a matrix with three diagonals sums to its three entries. *)
Lemma qsum_three_diagonals (n i : nat) (a b : Q) (c : nat -> Q) :
  (i < n)%nat ->
  qsum (map (fun j => if Nat.eqb j i then a
                      else if Nat.eqb j (S i) then b
                      else if Nat.eqb i (S j) then c j
                      else 0) (seq 0 n))
  == a + (if Nat.ltb (S i) n then b else 0)
       + (match i with O => 0 | S k => c k end).
Proof.
  intros Hi.
  rewrite (qsum_map_ext _
             (fun j => (if Nat.eqb j i then a else 0)
                       + ((if Nat.eqb j (S i) then b else 0)
                          + (if Nat.eqb j (Nat.pred i) then
                               match i with O => 0 | S k => c k end
                             else 0)))).
  2:{ intros j. destruct (Nat.eqb_spec j i) as [->|Hji].
      - destruct (Nat.eqb_spec i (S i)); [lia|].
        destruct (Nat.eqb_spec i (Nat.pred i)) as [Hp|_]; [|ring].
        destruct i; [ring|cbn in Hp; lia].
      - destruct (Nat.eqb_spec j (S i)) as [->|Hjs].
        + destruct (Nat.eqb_spec (S i) (Nat.pred i)); [lia|ring].
        + destruct (Nat.eqb_spec i (S j)) as [->|Hij].
          * cbn [Nat.pred]. rewrite Nat.eqb_refl. ring.
          * destruct (Nat.eqb_spec j (Nat.pred i)) as [->|_]; [|ring].
            destruct i; [ring|cbn in Hij; lia]. }
  rewrite !qsum_map_plus, !qsum_map_at. cbn [Nat.leb andb Nat.add].
  destruct (Nat.ltb_spec i n); [|lia].
  destruct (Nat.ltb_spec (Nat.pred i) n); [|lia].
  destruct (Nat.ltb_spec (S i) n); ring.
Qed.


(** *** The two matrices, entry by entry *)

Lemma tridiag_ok (n : nat) (d u l : vec) :
  length d = n -> length u = (n - 1)%nat -> length l = (n - 1)%nat ->
  tridiag n d u l = Ok (banded n d u l).
Proof.
  intros Hd Hu Hl. unfold tridiag, assign, expand.
  now rewrite Hd, Hu, Hl, !Nat.eqb_refl.
Qed.

Lemma banded_length (n : nat) (d u l : vec) : length (banded n d u l) = n.
Proof. unfold banded. now rewrite length_map, length_seq. Qed.

Lemma banded_square (n : nat) (d u l : vec) : square n (banded n d u l).
Proof.
  unfold square, banded. split.
  - now rewrite length_map, length_seq.
  - apply List.Forall_forall. intros r Hr.
    apply in_map_iff in Hr as (i & <- & _). now rewrite length_map, length_seq.
Qed.

Lemma nth_map_seq {B : Type} (F : nat -> B) (d : B) (n : nat) :
  forall s i : nat, (i < n)%nat -> nth i (map F (seq s n)) d = F (s + i)%nat.
Proof.
  induction n as [|n IH]; intros s i Hi; [lia|].
  cbn [seq map]. destruct i as [|i]; cbn [nth].
  - now rewrite Nat.add_0_r.
  - rewrite IH by lia. f_equal. lia.
Qed.

Lemma banded_row (n : nat) (d u l : vec) (i : nat) :
  (i < n)%nat ->
  nth i (banded n d u l) []
  = map (fun j => if Nat.eqb j i then nth i d 0
                  else if Nat.eqb j (S i) then nth i u 0
                  else if Nat.eqb i (S j) then nth j l 0
                  else 0) (seq 0 n).
Proof.
  intros Hi. unfold banded. now rewrite nth_map_seq by exact Hi.
Qed.

Lemma banded_entry (n : nat) (d u l : vec) (i j : nat) :
  (i < n)%nat -> (j < n)%nat ->
  nth j (nth i (banded n d u l) []) 0
  = if Nat.eqb j i then nth i d 0
    else if Nat.eqb j (S i) then nth i u 0
    else if Nat.eqb i (S j) then nth j l 0
    else 0.
Proof.
  intros Hi Hj. rewrite banded_row by exact Hi.
  now rewrite nth_map_seq by exact Hj.
Qed.

Lemma banded_outside (n : nat) (d u l : vec) (i j : nat) :
  (n <= i)%nat \/ (n <= j)%nat ->
  nth j (nth i (banded n d u l) []) 0 = 0.
Proof.
  intros [Hi|Hj].
  - rewrite (nth_overflow (banded n d u l))
      by (unfold banded; now rewrite length_map, length_seq).
    now destruct j.
  - destruct (Nat.lt_ge_cases i n) as [Hi|Hi].
    + rewrite banded_row by exact Hi. apply nth_overflow.
      now rewrite length_map, length_seq.
    + rewrite (nth_overflow (banded n d u l))
        by (unfold banded; now rewrite length_map, length_seq).
      now destruct j.
Qed.

(** The padded inverse spacings [dxinv]: zero at both ends, the inverse
    node spacings in between. *)
Lemma padded_entries (h : vec) :
  (1 <= length h)%nat ->
  let e := map (fun a => a * 0) (firstn 1 h) ++ h
             ++ map (fun a => a * 0) (last_slice h) in
  length e = (length h + 2)%nat /\
  nth 0 e 0 == 0 /\
  nth (S (length h)) e 0 == 0 /\
  forall i : nat, (i < length h)%nat -> nth (S i) e 0 = nth i h 0.
Proof.
  intros Hh e.
  assert (Hlast : exists z, last_slice h = [z]).
  { unfold last_slice.
    assert (Hlen : length (skipn (length h - 1) h) = 1%nat)
      by (rewrite length_skipn; lia).
    destruct (skipn (length h - 1) h) as [|z [|z' r]]; try discriminate.
    now exists z. }
  destruct Hlast as [z Hz]. subst e. rewrite Hz.
  destruct h as [|h0 h']; [cbn in Hh; lia|].
  change (firstn 1 (h0 :: h')) with [h0]. cbn [map app].
  split; [|split; [|split]].
  - cbn [length]. rewrite length_app. cbn [length]. lia.
  - cbn [nth]. ring.
  - cbn [nth length app]. rewrite nth_middle. ring.
  - intros i Hi. cbn [nth]. destruct i as [|i]; [reflexivity|].
    cbn [nth]. rewrite app_nth1 by (cbn [length] in Hi; lia). reflexivity.
Qed.

Lemma spline_matrices_form (x : vec) :
  (2 <= length x)%nat ->
  let n := length x in
  let h := map (fun d => 1 / d) (diffs x) in
  let e := map (fun a => a * 0) (firstn 1 h) ++ h
             ++ map (fun a => a * 0) (last_slice h) in
  let e2 := map (fun a => a * a * 3) e in
  spline_matrices x
  = Ok (banded n (map (fun s => s * 2)
                    (zip_with Qplus (removelast e) (tl e))) h h,
        banded n (zip_with Qminus (removelast e2) (tl e2))
          (middle e2) (map Qopp (middle e2))).
Proof.
  intros Hn n h e e2.
  assert (Hh : length h = (n - 1)%nat)
    by (unfold h; rewrite length_map; apply length_diffs).
  destruct (padded_entries h ltac:(lia)) as (He & _).
  fold e in He.
  assert (He2 : length e2 = (n + 1)%nat)
    by (unfold e2; rewrite length_map; lia).
  unfold spline_matrices. cbv zeta. fold n. fold h. fold e. fold e2.
  rewrite tridiag_ok; [cbn [rbind]|..|exact Hh|exact Hh].
  2:{ rewrite length_map, zip_with_len, length_without_last, length_diffs_tl.
      lia. }
  rewrite tridiag_ok; [reflexivity|..].
  - rewrite zip_with_len, length_without_last, length_diffs_tl. lia.
  - unfold middle. rewrite length_without_last, length_diffs_tl. lia.
  - unfold middle. rewrite length_map, length_without_last, length_diffs_tl.
    lia.
Qed.


Section Entries.

Variable x : vec.
Hypothesis enough : (2 <= length x)%nat.

Let n := length x.
Let h := map (fun d => 1 / d) (diffs x).
Let e := map (fun a => a * 0) (firstn 1 h) ++ h
           ++ map (fun a => a * 0) (last_slice h).
Let e2 := map (fun a => a * a * 3) e.

Lemma inverse_spacings_length : length h = (n - 1)%nat.
Proof. unfold h. rewrite length_map. apply length_diffs. Qed.

Lemma padded_length : length e = (n + 1)%nat.
Proof.
  pose proof inverse_spacings_length as Hh.
  destruct (padded_entries h ltac:(unfold n in *; lia)) as (He & _).
  fold e in He. lia.
Qed.

Lemma padded_ends : nth 0 e 0 == 0 /\ nth n e 0 == 0.
Proof.
  pose proof inverse_spacings_length as Hh.
  destruct (padded_entries h ltac:(unfold n in *; lia)) as (_ & H0 & Hn & _).
  fold e in H0, Hn. split; [exact H0|].
  replace n with (S (length h)) by (unfold n in *; lia). exact Hn.
Qed.

Lemma padded_inside (i : nat) :
  (i < n - 1)%nat -> nth (S i) e 0 = 1 / (nth (S i) x 0 - nth i x 0).
Proof.
  intros Hi. pose proof inverse_spacings_length as Hh.
  destruct (padded_entries h ltac:(unfold n in *; lia)) as (_ & _ & _ & Hin).
  fold e in Hin. rewrite Hin by lia. unfold h.
  rewrite nth_map_Q by (rewrite length_diffs; unfold n in *; lia).
  rewrite nth_diffs by (unfold n in *; lia). reflexivity.
Qed.

Lemma inverse_spacings_padded (i : nat) :
  (i < n - 1)%nat -> nth i h 0 = nth (S i) e 0.
Proof.
  intros Hi. pose proof inverse_spacings_length as Hh.
  destruct (padded_entries h ltac:(unfold n in *; lia)) as (_ & _ & _ & Hin).
  fold e in Hin. now rewrite Hin by lia.
Qed.

Lemma diag_entry (i : nat) :
  (i < n)%nat ->
  nth i (map (fun s => s * 2) (zip_with Qplus (removelast e) (tl e))) 0
  = (nth i e 0 + nth (S i) e 0) * 2.
Proof.
  intros Hi. pose proof padded_length as He.
  rewrite nth_map_Q
    by (rewrite zip_with_len, length_without_last, length_diffs_tl; lia).
  rewrite nth_zip_with
    by (rewrite ?length_without_last, ?length_diffs_tl; lia).
  rewrite nth_without_last, nth_tl by lia. reflexivity.
Qed.

Lemma squares_length : length e2 = (n + 1)%nat.
Proof. unfold e2. rewrite length_map. apply padded_length. Qed.

Lemma squares_entry (i : nat) :
  (i <= n)%nat -> nth i e2 0 = nth i e 0 * nth i e 0 * 3.
Proof.
  intros Hi. unfold e2. apply nth_map_Q. rewrite padded_length. lia.
Qed.

Lemma diagr_entry (i : nat) :
  (i < n)%nat ->
  nth i (zip_with Qminus (removelast e2) (tl e2)) 0
  = nth i e2 0 - nth (S i) e2 0.
Proof.
  intros Hi. pose proof squares_length as He.
  rewrite nth_zip_with
    by (rewrite ?length_without_last, ?length_diffs_tl; lia).
  rewrite nth_without_last, nth_tl by lia. reflexivity.
Qed.

Lemma middle_entry (i : nat) :
  (i < n - 1)%nat -> nth i (middle e2) 0 = nth (S i) e2 0.
Proof.
  intros Hi. pose proof squares_length as He. unfold middle.
  rewrite nth_without_last by (rewrite length_diffs_tl; lia).
  apply nth_tl.
Qed.

Lemma middle_length : length (middle e2) = (n - 1)%nat.
Proof.
  pose proof squares_length as He. unfold middle.
  rewrite length_without_last, length_diffs_tl. lia.
Qed.

(** The right hand side annihilates constants: each of its rows sums to
    zero. *)
Lemma matr_row_sums (i : nat) :
  (i < n)%nat ->
  qsum (nth i (banded n (zip_with Qminus (removelast e2) (tl e2))
                 (middle e2) (map Qopp (middle e2))) []) == 0.
Proof.
  intros Hi. rewrite banded_row by exact Hi.
  rewrite (qsum_three_diagonals n i _ _
             (fun j => nth j (map Qopp (middle e2)) 0) Hi).
  rewrite diagr_entry by exact Hi.
  destruct padded_ends as [H0 Hn].
  destruct i as [|k].
  - destruct (Nat.ltb_spec 1 n) as [_|]; [|unfold n in *; lia].
    rewrite middle_entry by (unfold n in *; lia).
    rewrite (squares_entry 0) by lia. rewrite H0. ring.
  - rewrite nth_map_Q by (rewrite middle_length; lia).
    rewrite (middle_entry k) by lia.
    destruct (Nat.ltb_spec (S (S k)) n) as [Hlt|Hge].
    + rewrite (middle_entry (S k)) by lia. ring.
    + assert (Hk : S (S k) = n) by lia.
      rewrite (squares_entry (S (S k))) by lia. rewrite Hk, Hn. ring.
Qed.


(** The left hand side is symmetric. *)
Lemma spline_mat_symmetric (d : vec) (i j : nat) :
  nth j (nth i (banded n d h h) []) 0 = nth i (nth j (banded n d h h) []) 0.
Proof.
  destruct (Nat.lt_ge_cases i n) as [Hi|Hi];
    [destruct (Nat.lt_ge_cases j n) as [Hj|Hj]|].
  - rewrite !banded_entry by assumption.
    destruct (Nat.eqb_spec j i) as [->|Hji].
    + now rewrite Nat.eqb_refl.
    + destruct (Nat.eqb_spec i j) as [->|_]; [contradiction|].
      destruct (Nat.eqb_spec j (S i)) as [->|Hjs].
      * destruct (Nat.eqb_spec i (S (S i))); [lia|]. reflexivity.
      * destruct (Nat.eqb_spec i (S j)) as [->|_]; reflexivity.
  - rewrite !banded_outside by (right + left; exact Hj). reflexivity.
  - rewrite !banded_outside by (right + left; exact Hi). reflexivity.
Qed.

(** *** The left hand side is nonsingular *)

Hypothesis ascending : increasing x.

Lemma padded_positive (i : nat) : (i < n - 1)%nat -> 0 < nth (S i) e 0.
Proof.
  intros Hi. rewrite padded_inside by exact Hi.
  pose proof (increasing_nth x ascending i (S i) ltac:(lia)
                ltac:(unfold n in *; lia)) as Hlt.
  unfold Qdiv. rewrite Qmult_1_l. apply Qinv_lt_0_compat. lra.
Qed.

Lemma padded_nonnegative (i : nat) : (i <= n)%nat -> 0 <= nth i e 0.
Proof.
  intros Hi. destruct padded_ends as [H0 Hn].
  destruct i as [|i]; [rewrite H0; lra|].
  destruct (Nat.eq_dec (S i) n) as [->|Hne]; [rewrite Hn; lra|].
  apply Qlt_le_weak, padded_positive. lia.
Qed.

Lemma dot_map_seq (F : nat -> Q) (m : nat) :
  forall (s : nat) (v : vec),
    length v = m ->
    dot (map F (seq s m)) v
    == qsum (map (fun j => F j * nth (j - s) v 0) (seq s m)).
Proof.
  induction m as [|m IH]; intros s v Hv.
  - reflexivity.
  - destruct v as [|a v]; [discriminate|]. cbn [seq map].
    rewrite dot_cons, qsum_cons, (IH (S s) v) by (cbn in Hv; lia).
    rewrite Nat.sub_diag. change (nth 0 (a :: v) 0) with a.
    apply Qplus_comp; [reflexivity|].
    assert (Hext : forall l : list nat,
               Forall (fun j => (s < j)%nat) l ->
               qsum (map (fun j => F j * nth (j - S s) v 0) l)
               == qsum (map (fun j => F j * nth (j - s) (a :: v) 0) l)).
    { induction 1 as [|j l Hj _ IHl]; [reflexivity|].
      cbn [map]. rewrite !qsum_cons, IHl.
      replace (j - s)%nat with (S (j - S s)) by lia. reflexivity. }
    apply Hext. apply List.Forall_forall. intros j Hj.
    apply in_seq in Hj. lia.
Qed.


Lemma spline_mat_row_product (d := map (fun s => s * 2)
                                      (zip_with Qplus (removelast e) (tl e)))
    (v : vec) (i : nat) :
  length v = n -> (i < n)%nat ->
  dot (nth i (banded n d h h) []) v
  == (nth i e 0 + nth (S i) e 0) * 2 * nth i v 0
     + (if Nat.ltb (S i) n then nth (S i) e 0 else 0) * nth (S i) v 0
     + (match i with O => 0 | S k => nth i e 0 end) * nth (Nat.pred i) v 0.
Proof.
  intros Hv Hi. rewrite banded_row by exact Hi.
  rewrite dot_map_seq by exact Hv.
  rewrite (qsum_map_ext _
             (fun j => if Nat.eqb j i then nth i d 0 * nth i v 0
                       else if Nat.eqb j (S i) then nth i h 0 * nth (S i) v 0
                       else if Nat.eqb i (S j) then nth j h 0 * nth j v 0
                       else 0)).
  2:{ intros j. rewrite Nat.sub_0_r.
      destruct (Nat.eqb_spec j i) as [->|_]; [reflexivity|].
      destruct (Nat.eqb_spec j (S i)) as [->|_]; [reflexivity|].
      destruct (Nat.eqb_spec i (S j)); [reflexivity|ring]. }
  rewrite (qsum_three_diagonals n i _ _
             (fun j => nth j h 0 * nth j v 0) Hi).
  unfold d. rewrite diag_entry by exact Hi.
  apply Qplus_comp; [apply Qplus_comp; [reflexivity|]|].
  - destruct (Nat.ltb_spec (S i) n) as [Hlt|_]; [|ring].
    rewrite inverse_spacings_padded by lia. reflexivity.
  - destruct i as [|k]; [ring|]. cbn [Nat.pred].
    rewrite inverse_spacings_padded by lia. reflexivity.
Qed.

Lemma largest_entry (v : vec) :
  v <> [] ->
  exists m : nat,
    (m < length v)%nat /\
    forall j : nat, Qabs (nth j v 0) <= Qabs (nth m v 0).
Proof.
  induction v as [|a v IH]; intros Hne; [contradiction|].
  destruct v as [|b v].
  - exists 0%nat. split; [cbn; lia|]. intros [|[|j]]; cbn [nth];
      try apply Qle_refl; apply Qabs_nonneg.
  - destruct (IH ltac:(discriminate)) as (m & Hm & Hmax).
    destruct (Qlt_le_dec (Qabs (nth m (b :: v) 0)) (Qabs a)) as [Hlt|Hle].
    + exists 0%nat. split; [cbn; lia|]. intros [|j]; [apply Qle_refl|].
      change (nth (S j) (a :: b :: v) 0) with (nth j (b :: v) 0).
      change (nth 0 (a :: b :: v) 0) with a.
      eapply Qle_trans; [apply Hmax|]. now apply Qlt_le_weak.
    + exists (S m). split; [cbn in *; lia|]. intros [|j].
      * exact Hle.
      * apply Hmax.
Qed.

Lemma dominant_row_zero (s1 s2 B C vm vp vq : Q) :
  0 <= s1 -> 0 <= s2 -> 0 < s1 + s2 ->
  B == 0 \/ B == s2 -> C == 0 \/ C == s1 ->
  Qabs vp <= Qabs vm -> Qabs vq <= Qabs vm ->
  (s1 + s2) * 2 * vm + B * vp + C * vq == 0 ->
  vm == 0.
Proof.
  intros H1 H2 H12 HB HC Hp Hq Heq.
  apply Qabs_Qle_condition in Hp as [Hp1 Hp2].
  apply Qabs_Qle_condition in Hq as [Hq1 Hq2].
  revert Hp1 Hp2 Hq1 Hq2. apply (Qabs_case vm); intros Hs Hp1 Hp2 Hq1 Hq2;
    destruct HB as [HB|HB], HC as [HC|HC]; rewrite HB, HC in Heq; nra.
Qed.

(** No vector but zero is sent to zero by the left hand side: its rows are
    strictly dominated by their diagonal entries. *)
Lemma spline_mat_nonsingular (v : vec) :
  length v = n ->
  vanishes (mv (banded n (map (fun s => s * 2)
                            (zip_with Qplus (removelast e) (tl e))) h h) v) ->
  vanishes v.
Proof.
  intros Hv Hzero.
  destruct (largest_entry v) as (m & Hm & Hmax).
  { intros ->. cbn in Hv. unfold n in *. lia. }
  rewrite Hv in Hm.
  assert (Hrow : dot (nth m (banded n (map (fun s => s * 2)
                      (zip_with Qplus (removelast e) (tl e))) h h) []) v == 0).
  { unfold vanishes, mv in Hzero. rewrite List.Forall_forall in Hzero.
    apply Hzero. apply (in_map (fun row : vec => dot row v)). apply nth_In.
    destruct (banded_square n (map (fun s => s * 2)
                (zip_with Qplus (removelast e) (tl e))) h h) as [Hlen _].
    now rewrite Hlen. }
  rewrite spline_mat_row_product in Hrow by assumption.
  assert (Hvm : nth m v 0 == 0).
  { apply (dominant_row_zero (nth m e 0) (nth (S m) e 0)
             (if Nat.ltb (S m) n then nth (S m) e 0 else 0)
             (match m with O => 0 | S _ => nth m e 0 end)
             (nth m v 0) (nth (S m) v 0) (nth (Nat.pred m) v 0)).
    - apply padded_nonnegative. lia.
    - apply padded_nonnegative. lia.
    - destruct m as [|k].
      + pose proof (padded_positive 0 ltac:(unfold n in *; lia)).
        pose proof (padded_nonnegative 0 ltac:(lia)). lra.
      + pose proof (padded_positive k ltac:(lia)).
        pose proof (padded_nonnegative (S (S k)) ltac:(lia)). lra.
    - destruct (Nat.ltb (S m) n); [right|left]; reflexivity.
    - destruct m; [left|right]; reflexivity.
    - apply Hmax.
    - apply Hmax.
    - exact Hrow. }
  unfold vanishes. apply List.Forall_forall. intros q Hq.
  apply (In_nth _ _ 0) in Hq as (j & _ & <-).
  specialize (Hmax j). rewrite Hvm in Hmax.
  apply Qabs_Qle_condition in Hmax. change (Qabs 0) with 0 in Hmax.
  destruct Hmax. lra.
Qed.

End Entries.

(** X18: the linear system [_get_spline_mat_inverse] sets up is the
    system of the cubic spline and is well posed.  For one node the
    construction fails with [RuntimeError] (an empty diagonal is assigned
    to a diagonal of one entry) and for no other number of nodes; otherwise
    both matrices are square of the size of the nodes, the left hand side
    is symmetric, every row of the right hand side sums to zero (constant
    data have zero slopes), and on strictly increasing nodes the left hand
    side sends no vector but zero to zero. *)
Theorem spline_system_is_well_posed (x : vec) :
  match spline_matrices x with
  | Raise err => err = RuntimeError /\ length x = 1%nat
  | Ok (spline_mat, matr) =>
      length x <> 1%nat /\
      square (length x) spline_mat /\
      square (length x) matr /\
      (forall i j : nat,
          nth j (nth i spline_mat []) 0 = nth i (nth j spline_mat []) 0) /\
      Forall (fun row => qsum row == 0) matr /\
      (increasing x ->
       forall v : vec,
         length v = length x -> vanishes (mv spline_mat v) -> vanishes v)
  end.
Proof.
  destruct x as [|a [|b x]].
  - change (spline_matrices []) with (Ok ([] : rmat, [] : rmat)).
    split; [discriminate|].
    split; [split; [reflexivity|constructor]|].
    split; [split; [reflexivity|constructor]|].
    split; [intros i j; now destruct i, j|].
    split; [constructor|].
    intros _ [|q v] Hv _; [constructor|discriminate].
  - change (spline_matrices [a]) with (@Raise (rmat * rmat) RuntimeError).
    now split.
  - assert (Hn : (2 <= length (a :: b :: x))%nat) by (cbn; lia).
    rewrite (spline_matrices_form _ Hn). cbv zeta.
    split; [cbn; lia|]. split; [apply banded_square|].
    split; [apply banded_square|]. split; [|split].
    + intros i j. now apply spline_mat_symmetric.
    + apply List.Forall_forall. intros row Hrow.
      apply (In_nth _ _ []) in Hrow as (i & Hi & <-).
      rewrite banded_length in Hi. now apply matr_row_sums.
    + intros Hinc v Hv. now apply spline_mat_nonsingular.
Qed.

End SplineSystem.

(** ** The Legendre radial grid: constants are interpolated exactly *)

Section SplineOfConstants.

Import Eigpairs RadialGrid.

Variable lib : numlib.

Lemma dot_constant (c : Q) (n : nat) :
  forall r : vec, dot (repeat c n) r == c * dot r (repeat 1 n).
Proof.
  induction n as [|n IH]; intros [|a r]; cbn [repeat];
    try (change (0 == c * 0); ring).
  rewrite !dot_cons, IH. ring.
Qed.

Lemma dot_ones (n : nat) :
  forall r : vec, length r = n -> dot r (repeat 1 n) == qsum r.
Proof.
  induction n as [|n IH]; intros [|a r] Hr; try discriminate;
    [reflexivity|].
  cbn [repeat]. rewrite dot_cons, qsum_cons, IH by (cbn in Hr; lia). ring.
Qed.

Lemma nth_constant (c : Q) (n i : nat) :
  (i < n)%nat -> nth i (repeat c n) 0 = c.
Proof.
  revert i. induction n as [|n IH]; intros i Hi; [lia|].
  destruct i as [|i]; [reflexivity|]. cbn [repeat nth]. apply IH. lia.
Qed.

Lemma nth_vanishes (k : vec) (i : nat) : vanishes k -> nth i k 0 == 0.
Proof.
  intros Hk. revert i. induction Hk as [|q k Hq _ IH]; intros [|i];
    cbn [nth]; try reflexivity; [exact Hq|apply IH].
Qed.

Lemma spline_value_of_constant (x krow : vec) (c q : Q) :
  (2 <= length x)%nat -> vanishes krow ->
  spline_value x (repeat c (length x)) krow q == c.
Proof.
  intros Hn Hk. unfold spline_value. cbv zeta.
  pose proof (locate_range x q Hn) as Hr.
  rewrite !nth_constant by lia.
  rewrite !(fun i => nth_vanishes krow i Hk). ring.
Qed.

(** X19: a constant is interpolated exactly.  If the matrix
    [_get_spline_mat_inverse] hands out solves the spline system
    ([A X = B] as maps on vectors, [A] and [B] being the two matrices it
    constructs), then on strictly increasing Legendre nodes (at least two)
    the slopes of constant data vanish and [_cubic_spline] returns the
    constant at every query point, between the nodes and beyond them. *)
Theorem cubic_spline_of_a_constant_is_constant
    (self self' : LegendreRadialShiftExp) (inv : rmat) (xq : vec) (c : Q)
    (nbatch : nat) :
  increasing (xleggauss self) ->
  (2 <= length (xleggauss self))%nat ->
  _get_spline_mat_inverse lib self = (Ok inv, self') ->
  square (length (xleggauss self)) inv ->
  (forall A B : rmat,
      spline_matrices (xleggauss self) = Ok (A, B) ->
      forall v : vec,
        length v = length (xleggauss self) ->
        Grids.veq (mv A (mv inv v)) (mv B v)) ->
  exists out : bvec,
    _cubic_spline lib self xq (xleggauss self)
        (repeat (repeat c (length (xleggauss self))) nbatch)
      = (Ok out, self') /\
    length out = nbatch /\
    Forall (fun row => length row = length xq /\
                       Forall (fun v => v == c) row) out.
Proof.
  intros Hinc Hn Hinv Hsq Hsolves.
  set (x := xleggauss self) in *. set (n := length x) in *.
  pose proof (spline_system_is_well_posed x) as Hsys.
  destruct (spline_matrices x) as [[A B]|err] eqn:Hmat.
  2:{ destruct Hsys as [_ Hone]. unfold n in Hn. lia. }
  destruct Hsys as (_ & HA & HB & _ & Hsums & Hns).
  pose proof (Hsolves A B eq_refl) as Hlaw.
  assert (Hones : vanishes (mv inv (repeat 1 n))).
  { apply (Hns Hinc).
    - unfold mv. rewrite length_map. exact (proj1 Hsq).
    - specialize (Hlaw (repeat 1 n) (repeat_length _ _)).
      assert (HB1 : vanishes (mv B (repeat 1 n))).
      { unfold vanishes, mv. apply List.Forall_forall. intros q Hq.
        apply in_map_iff in Hq as (row & <- & Hrow).
        rewrite dot_ones.
        - rewrite List.Forall_forall in Hsums. now apply Hsums.
        - destruct HB as [_ HBrows]. rewrite List.Forall_forall in HBrows.
          now apply HBrows. }
      clear -Hlaw HB1. unfold vanishes in *.
      induction Hlaw as [|p q l1 l2 Hpq _ IH]; [constructor|].
      inversion HB1 as [|? ? Hq Hrest]; subst.
      constructor; [now rewrite Hpq|now apply IH]. }
  assert (Hks : vanishes (map (dot (repeat c n)) inv)).
  { unfold vanishes, mv in *. rewrite List.Forall_forall in Hones.
    apply List.Forall_forall. intros q Hq.
    apply in_map_iff in Hq as (row & <- & Hrow).
    rewrite dot_constant, (Hones (dot row (repeat 1 n))).
    - ring.
    - now apply (in_map (fun r : vec => dot r (repeat 1 n))). }
  eexists. split.
  - apply (cubic_spline_values lib self self' inv xq x); try assumption.
    apply Forall_repeat. apply repeat_length.
  - split; [now rewrite length_map, repeat_length|].
    apply List.Forall_forall. intros row Hrow.
    apply in_map_iff in Hrow as (yrow & <- & Hy).
    apply repeat_spec in Hy. subst yrow.
    split; [apply length_map|].
    apply List.Forall_forall. intros v Hv.
    apply in_map_iff in Hv as (q & <- & _).
    now apply spline_value_of_constant.
Qed.

End SplineOfConstants.

(** ** The radial Hamiltonian of one atom: its matrices *)

Section HatomRadialFacts.

Import Eigpairs HatomRadial.

Variable lib : numlib.

Lemma Qmult_swap (a b : Q) : a * b = b * a.
Proof.
  unfold Qmult. f_equal; [apply Z.mul_comm|apply Pos.mul_comm].
Qed.

Lemma Qplus_swap (a b : Q) : a + b = b + a.
Proof.
  unfold Qplus. f_equal; [apply Z.add_comm|apply Pos.mul_comm].
Qed.

Lemma gwprod_swap (a b : Q) : gwprod a b = gwprod b a.
Proof. apply Qmult_swap. Qed.

Lemma gw2sum_swap (a b : Q) : gw2sum a b = gw2sum b a.
Proof. apply Qplus_swap. Qed.

Lemma gwnet2_swap (a b : Q) : gwnet2 a b = gwnet2 b a.
Proof.
  unfold gwnet2. now rewrite (gwprod_swap a b), (gw2sum_swap a b).
Qed.

Lemma outer_symmetric (f : Q -> Q -> Q) (g : vec) :
  (forall a b : Q, f a b = f b a) ->
  symmetric_of_size (length g) (outer f g).
Proof.
  intros Hf. unfold symmetric_of_size, outer. split; [apply length_map|].
  split.
  - apply List.Forall_forall. intros row Hrow.
    apply in_map_iff in Hrow as (gi & <- & _). apply length_map.
  - assert (Hentry : forall i j : nat,
               (i < length g)%nat -> (j < length g)%nat ->
               nth j (nth i (map (fun gi => map (fun gj => f gi gj) g) g) []) 0
               = f (nth i g 0) (nth j g 0)).
    { intros i j Hi Hj.
      rewrite (nth_indep _ [] (map (fun gj => f 0 gj) g))
        by now rewrite length_map.
      rewrite (map_nth (fun gi => map (fun gj => f gi gj) g)).
      rewrite (nth_indep _ 0 (f (nth i g 0) 0)) by now rewrite length_map.
      apply (map_nth (fun gj => f (nth i g 0) gj)). }
    assert (Hout : forall i j : nat,
               (length g <= i)%nat \/ (length g <= j)%nat ->
               nth j (nth i (map (fun gi => map (fun gj => f gi gj) g) g) []) 0
               = 0).
    { intros i j [Hi|Hj].
      - rewrite (nth_overflow (map _ g)) by now rewrite length_map.
        now destruct j.
      - destruct (Nat.lt_ge_cases i (length g)) as [Hi|Hi].
        + rewrite (nth_indep _ [] (map (fun gj => f 0 gj) g))
            by now rewrite length_map.
          rewrite (map_nth (fun gi => map (fun gj => f gi gj) g)).
          apply nth_overflow. now rewrite length_map.
        + rewrite (nth_overflow (map _ g)) by now rewrite length_map.
          now destruct j. }
    intros i j.
    destruct (Nat.lt_ge_cases i (length g)) as [Hi|Hi];
      [destruct (Nat.lt_ge_cases j (length g)) as [Hj|Hj]|].
    + rewrite !Hentry by assumption. apply Hf.
    + rewrite !Hout by (right + left; exact Hj). reflexivity.
    + rewrite !Hout by (right + left; exact Hi). reflexivity.
Qed.

Lemma Qdiv_positive (a b : Q) : 0 < a -> 0 < b -> 0 < a / b.
Proof.
  intros Ha Hb. unfold Qdiv. apply Qmult_lt_0_compat; [exact Ha|].
  now apply Qinv_lt_0_compat.
Qed.

Lemma Qmult_negative (a b : Q) : a < 0 -> 0 < b -> a * b < 0.
Proof.
  intros Ha Hb. assert (H : 0 < (- a) * b).
  { apply Qmult_lt_0_compat; [lra|exact Hb]. }
  assert (E : (- a) * b == - (a * b)) by ring. rewrite E in H. lra.
Qed.

Lemma Qdiv_negative (a b : Q) : a < 0 -> 0 < b -> a / b < 0.
Proof.
  intros Ha Hb. unfold Qdiv. apply Qmult_negative; [exact Ha|].
  now apply Qinv_lt_0_compat.
Qed.

Lemma outer_entries (P : Q -> Prop) (f : Q -> Q -> Q) (g : vec) :
  (forall a b : Q, In a g -> In b g -> P (f a b)) ->
  Forall (Forall P) (outer f g).
Proof.
  intros Hf. unfold outer. apply List.Forall_forall. intros row Hrow.
  apply in_map_iff in Hrow as (gi & <- & Hgi).
  apply List.Forall_forall. intros x Hx.
  apply in_map_iff in Hx as (gj & <- & Hgj). now apply Hf.
Qed.

Section PositiveWidths.

(** What numpy and torch give on positive numbers. *)
Hypothesis sqrt_positive : forall x : Q, 0 < x -> 0 < sqrt lib x.
Hypothesis pow_positive : forall x p : Q, 0 < x -> 0 < pow lib x p.
Hypothesis pi_positive : 0 < pi lib.

Lemma gwprod_positive (a b : Q) : 0 < a -> 0 < b -> 0 < gwprod a b.
Proof. intros Ha Hb. now apply Qmult_lt_0_compat. Qed.

Lemma gw2sum_positive (a b : Q) : 0 < a -> 0 < b -> 0 < gw2sum a b.
Proof.
  intros Ha Hb. unfold gw2sum.
  pose proof (Qmult_lt_0_compat _ _ Ha Ha).
  pose proof (Qmult_lt_0_compat _ _ Hb Hb). lra.
Qed.

Lemma gwnet2_positive (a b : Q) : 0 < a -> 0 < b -> 0 < gwnet2 a b.
Proof.
  intros Ha Hb. unfold gwnet2. apply Qdiv_positive.
  - apply Qmult_lt_0_compat; now apply gwprod_positive.
  - now apply gw2sum_positive.
Qed.

Lemma olp_entry_positive (a b : Q) : 0 < a -> 0 < b -> 0 < olp_entry lib a b.
Proof.
  intros Ha Hb. unfold olp_entry. apply Qdiv_positive.
  - assert (Hn : 0 < gwnet lib a b)
      by (apply sqrt_positive; now apply gwnet2_positive).
    assert (H2 : 0 < sqrt lib 2) by (apply sqrt_positive; reflexivity).
    unfold cube. repeat apply Qmult_lt_0_compat; try assumption. reflexivity.
  - apply pow_positive. now apply gwprod_positive.
Qed.

Lemma coul_entry_negative (a b : Q) : 0 < a -> 0 < b -> coul_entry lib a b < 0.
Proof.
  intros Ha Hb. unfold coul_entry. apply Qdiv_negative.
  - apply Qmult_negative; [|now apply gwnet2_positive].
    apply Qdiv_negative; [reflexivity|].
    apply sqrt_positive. apply Qmult_lt_0_compat; [reflexivity|].
    exact pi_positive.
  - apply pow_positive. now apply gwprod_positive.
Qed.

(** X20: for positive Gaussian widths the matrices
    [HamiltonAtomRadial.__init__] builds are what it declares them to be: for
    [ng] widths the declared shape is [(ng, ng)] with [is_symmetric] set, and
    the kinetic, overlap and Coulomb matrices are each one [ng] by [ng]
    matrix that is symmetric, entry for entry, whatever the angular
    momentum; every entry of the overlap matrix is positive and every entry
    of the Coulomb matrix negative; the basis has one row per width and one
    column per grid point.  The square root and the power are only known to
    be positive on positive numbers, and [pi] to be positive. *)
Theorem HamiltonAtomRadial_matrices_are_symmetric
    (grid0 : grid) (gwidths0 : vec) (angmom0 : Z) (self : HamiltonAtomRadial) :
  Forall (fun w => 0 < w) gwidths0 ->
  HamiltonAtomRadial_init lib grid0 gwidths0 angmom0 = Ok self ->
  let ng := length gwidths0 in
  shape self = (ng, ng) /\
  is_symmetric self = true /\
  (exists m, kin self = [m] /\ symmetric_of_size ng m) /\
  (exists m, olp self = [m] /\ symmetric_of_size ng m /\
             Forall (Forall (fun x => 0 < x)) m) /\
  (exists m, coul self = [m] /\ symmetric_of_size ng m /\
             Forall (Forall (fun x => x < 0)) m) /\
  length (basis self) = ng /\
  Forall (fun row => length row = length (rgrid grid0)) (basis self).
Proof.
  intros Hpos. rewrite List.Forall_forall in Hpos.
  unfold HamiltonAtomRadial_init. cbv zeta.
  destruct (first_column (rgrid grid0)) as [rs0|err] eqn:Hrs; cbn [rbind];
    [|discriminate].
  intros [= <-]. cbn [shape is_symmetric kin olp coul basis].
  assert (Hlen : length rs0 = length (rgrid grid0)).
  { clear -Hrs. unfold first_column in Hrs. revert rs0 Hrs.
    induction (rgrid grid0) as [|row t IH]; intros rs0; cbn [mapM].
    - now intros [= <-].
    - destruct row as [|r row]; cbn [rbind]; [discriminate|].
      match goal with
      | |- context [rbind ?m _] => destruct m as [rest|err] eqn:Hrest
      end; cbn [rbind]; [|discriminate].
      intros [= <-]. cbn [length]. f_equal. now apply IH. }
  split; [reflexivity|]. split; [reflexivity|].
  split; [|split; [|split; [|split]]].
  - eexists. split; [reflexivity|]. apply outer_symmetric. intros a b.
    unfold kin_entry, kin_rad, kin_ang, gwnet, gwprod32.
    now rewrite (gwnet2_swap a b), (gwprod_swap a b), (gw2sum_swap a b).
  - eexists. split; [reflexivity|]. split.
    + apply outer_symmetric. intros a b.
      unfold olp_entry, gwnet, gwprod32.
      now rewrite (gwnet2_swap a b), (gwprod_swap a b).
    + apply outer_entries. intros a b Ha Hb.
      apply olp_entry_positive; now apply Hpos.
  - eexists. split; [reflexivity|]. split.
    + apply outer_symmetric. intros a b.
      unfold coul_entry, gwprod32.
      now rewrite (gwnet2_swap a b), (gwprod_swap a b).
    + apply outer_entries. intros a b Ha Hb.
      apply coul_entry_negative; now apply Hpos.
  - rewrite zip_with_len, !length_map. apply Nat.min_id.
  - clear Hrs Hpos. induction gwidths0 as [|g gs IH]; cbn [map zip_with];
      constructor; [|exact IH].
    now rewrite !length_map.
Qed.

End PositiveWidths.

End HatomRadialFacts.

(** ** The Legendre radial grid: points beyond the grid *)

Section BeyondTheGrid.

Import Eigpairs RadialGrid.

Variable lib : numlib.

Lemma select_length {A : Type} (mask : list bool) :
  forall l : list A,
    length l = length mask -> length (select mask l) = count_true mask.
Proof.
  unfold count_true. induction mask as [|b mask IH]; intros [|a l] Hl;
    try discriminate; [reflexivity|].
  cbn [select List.filter]. destruct b; cbn [id length];
    rewrite IH by (cbn in Hl; lia); reflexivity.
Qed.

Lemma scatter_length (mask : list bool) :
  forall row v : vec, length (scatter mask row v) = length row.
Proof.
  induction mask as [|b mask IH]; intros [|x row] v; try reflexivity.
  cbn [scatter]. destruct b; [destruct v|]; cbn [length]; now rewrite IH.
Qed.

Lemma scatter_keeps (mask : list bool) :
  forall (row v : vec) (j : nat),
    nth j mask true = false ->
    nth j (scatter mask row v) 0 = nth j row 0.
Proof.
  induction mask as [|b mask IH]; intros [|x row] v j Hj;
    try (destruct j; discriminate); try reflexivity.
  cbn [scatter]. destruct j as [|j].
  - cbn [nth] in Hj. subst b. reflexivity.
  - cbn [nth] in Hj. destruct b; [destruct v|]; cbn [nth]; now apply IH.
Qed.

Lemma nth_zip_rows (g : vec -> vec -> vec) (a b : bvec) (i : nat) :
  (i < length a)%nat -> (i < length b)%nat ->
  nth i (zip_with g a b) [] = g (nth i a []) (nth i b []).
Proof.
  revert b i. induction a as [|x a IH]; intros [|y b] i Ha Hb;
    try (cbn in Ha, Hb; lia).
  destruct i as [|i]; [reflexivity|].
  cbn [zip_with nth]. apply IH; cbn in Ha, Hb; lia.
Qed.

Lemma nth_map_at {A B : Type} (g : A -> B) (l : list A) :
  forall (j : nat) (a : A) (d : B),
    nth_error l j = Some a -> nth j (map g l) d = g a.
Proof.
  induction l as [|x l IH]; intros [|j] a d Hj; try discriminate.
  - now injection Hj as ->.
  - cbn [map nth]. now apply IH.
Qed.

Lemma expand_exact {A : Type} (n : nat) (l : list A) :
  length l = n -> expand n l = Ok l.
Proof. intros Hl. unfold expand. now rewrite Hl, Nat.eqb_refl. Qed.

Lemma nth_zeros (n j : nat) : nth j (repeat 0 n) 0 = 0.
Proof.
  revert j. induction n as [|n IH]; intros [|j]; try reflexivity.
  cbn [repeat nth]. apply IH.
Qed.

(** X22: without [extrap], [interpolate] gives zero at every point beyond
    the grid.  On a grid the constructor has built from at least two
    strictly increasing nodes, with a spline solve that succeeds with a
    matrix of the right shape, [interpolate(f, rq)] returns one row per row
    of [f] and one column per point of [rq], and the column of a point whose
    radius exceeds the largest grid radius is zero in every row. *)
Theorem interpolate_beyond_the_grid_is_zero
    (rmin0 rmax : Q) (nr : nat) (self self' : LegendreRadialShiftExp)
    (inv : rmat) (f : bvec) (rq : list vec) :
  LegendreRadialShiftExp_init lib rmin0 rmax nr = Ok self ->
  (forall n x w, leggauss lib n = Ok (x, w) -> length x = n /\ increasing x) ->
  (2 <= nr)%nat ->
  _get_spline_mat_inverse lib self = (Ok inv, self') ->
  square nr inv ->
  Forall (fun row => length row = nr) f ->
  Forall (fun p => p <> []) rq ->
  exists (out : bvec) (largest : Q),
    tensor_max (rs self) = Ok largest /\
    interpolate lib self f rq None = (Ok out, self') /\
    length out = length f /\
    Forall (fun row => length row = length rq) out /\
    forall (j : nat) (p : vec),
      nth_error rq j = Some p -> largest < hd 0 p ->
      Forall (fun row => nth j row 0 = 0) out.
Proof.
  intros Hinit Hgauss Hnr Hinv Hsq Hf Hrq.
  destruct (init_attributes lib _ _ _ _ Hinit) as (w & Hlg & Hrs & Hgrid & _).
  destruct (Hgauss _ _ _ Hlg) as [Hlen Hinc].
  rewrite <- Hlen in Hnr, Hsq, Hf.
  assert (Hne : rs self <> []).
  { rewrite Hrs. unfold transform. destruct (xleggauss self); [cbn in Hnr; lia|].
    discriminate. }
  destruct (rs self) as [|r0 rest] eqn:Ers; [contradiction|].
  exists (let rq0 := map (hd 0) rq in
          let largest := fold_left Qmax rest r0 in
          let idxinterp := map (fun r => Qle_bool r largest) rq0 in
          let rows :=
            map (fun row =>
                   map (spline_value (xleggauss self) row (map (dot row) inv))
                     (invtransform lib self
                        (if forallb id idxinterp then rq0
                         else select idxinterp rq0))) f in
          if forallb id idxinterp then rows
          else zip_with (scatter idxinterp)
                 (repeat (repeat 0 (length rq)) (length f)) rows),
         (fold_left Qmax rest r0).
  cbv zeta. split; [reflexivity|].
  assert (Hrq0 : mapM (fun p : list Q => py_index p 0) rq
                 = Ok (map (hd 0) rq)).
  { apply mapM_map_ok. eapply Forall_impl; [exact Hrq|]. cbn.
    intros [|a p] Hp; [contradiction|reflexivity]. }
  set (largest := fold_left Qmax rest r0).
  set (rq0 := map (hd 0) rq).
  set (mask := map (fun r => Qle_bool r largest) rq0).
  assert (Hmask : length mask = length rq)
    by (unfold mask, rq0; now rewrite !length_map).
  set (xq := invtransform lib self (if forallb id mask then rq0
                                    else select mask rq0)).
  pose proof (cubic_spline_values lib self self' inv xq (xleggauss self) f
                Hinv Hnr Hsq Hf) as Hspline.
  assert (Hxq : length xq = if forallb id mask then length rq
                            else count_true mask).
  { unfold xq, invtransform. rewrite length_map.
    destruct (forallb id mask).
    - unfold rq0. apply length_map.
    - apply select_length. unfold rq0. now rewrite length_map. }
  split; [|split; [|split]].
  - unfold interpolate. rewrite Hgrid, concat_singletons.
    cbn [tensor_max rbind]. rewrite Hrq0. cbn [rbind].
    fold largest. fold rq0. fold mask.
    match goal with
    | |- context [_cubic_spline ?a ?b ?c ?d ?e] =>
        replace (_cubic_spline a b c d e)
          with (Ok (map (fun row =>
                           map (spline_value (xleggauss self) row
                                  (map (dot row) inv)) xq) f), self')
          by (symmetry; exact Hspline)
    end.
    f_equal. cbn [rbind].
    destruct (forallb id mask) eqn:Hall; [reflexivity|].
    unfold assign_columns.
    rewrite expand_exact by now rewrite length_map, repeat_length.
    cbn [rbind].
    rewrite (mapM_map_ok (expand (count_true mask)) (fun row => row)).
    2:{ apply List.Forall_forall. intros row Hrow.
        apply in_map_iff in Hrow as (y & <- & _).
        apply expand_exact. now rewrite length_map. }
    cbn [rbind]. now rewrite map_id.
  - destruct (forallb id mask); [apply length_map|].
    rewrite zip_with_len, length_map, repeat_length. apply Nat.min_id.
  - destruct (forallb id mask) eqn:Hall.
    + apply List.Forall_forall. intros row Hrow.
      apply in_map_iff in Hrow as (y & <- & _).
      rewrite length_map. exact Hxq.
    + apply List.Forall_forall. intros row Hrow.
      apply (In_nth _ _ []) in Hrow as (i & Hi & <-).
      rewrite zip_with_len, length_map, repeat_length, Nat.min_id in Hi.
      rewrite (nth_zip_rows _ _ _ i) by
        (rewrite ?repeat_length, ?length_map; exact Hi).
      rewrite scatter_length.
      rewrite (nth_indep _ [] (repeat 0 (length rq)))
        by now rewrite repeat_length.
      rewrite nth_repeat. apply repeat_length.
  - intros j p Hj Hbeyond.
    assert (Hjlt : (j < length rq)%nat).
    { apply List.nth_error_Some. rewrite Hj. discriminate. }
    assert (Hfalse : nth j mask true = false).
    { unfold mask, rq0. rewrite map_map.
      rewrite (nth_map_at (fun q => Qle_bool (hd 0 q) largest) rq j p true Hj).
      destruct (Qle_bool (hd 0 p) largest) eqn:E; [|reflexivity].
      apply Qle_bool_iff in E. exfalso. eapply Qlt_not_le; eassumption. }
    assert (Hnotall : forallb id mask = false).
    { destruct (forallb id mask) eqn:Hall; [|reflexivity].
      rewrite forallb_forall in Hall.
      assert (Hin : In (nth j mask true) mask).
      { apply nth_In. now rewrite Hmask. }
      apply Hall in Hin. rewrite Hfalse in Hin. discriminate. }
    rewrite Hnotall. apply List.Forall_forall. intros row Hrow.
    apply (In_nth _ _ []) in Hrow as (i & Hi & <-).
    rewrite zip_with_len, length_map, repeat_length, Nat.min_id in Hi.
    rewrite (nth_zip_rows _ _ _ i) by
      (rewrite ?repeat_length, ?length_map; exact Hi).
    rewrite scatter_keeps by exact Hfalse.
    rewrite (nth_indep _ [] (repeat 0 (length rq)))
      by now rewrite repeat_length.
    rewrite nth_repeat. apply nth_zeros.
Qed.

End BeyondTheGrid.

(** ** Energy functionals as objects: grids, models and gradients *)

Section EksObjectsFacts.

Import EksObjects.

(** *** The store *)

Lemma store_length (h : heap) :
  forall (i : nat) (o : obj), length (store h i o) = length h.
Proof.
  induction h as [|x h IH]; intros [|i] o; cbn [store length];
    try reflexivity. now rewrite IH.
Qed.

Lemma lookup_store_same (h : heap) :
  forall (i : nat) (o : obj),
    (i < length h)%nat -> lookup (store h i o) i = Some o.
Proof.
  unfold lookup. induction h as [|x h IH]; intros [|i] o Hi;
    try (cbn in Hi; lia); [reflexivity|].
  cbn [store nth_error]. apply IH. cbn in Hi. lia.
Qed.

Lemma lookup_store_other (h : heap) :
  forall (i j : nat) (o : obj),
    i <> j -> lookup (store h i o) j = lookup h j.
Proof.
  unfold lookup. induction h as [|x h IH]; intros [|i] [|j] o Hij;
    try reflexivity; try contradiction.
  cbn [store nth_error]. apply IH. lia.
Qed.

Lemma lookup_valid (h : heap) (i : nat) (o : obj) :
  lookup h i = Some o -> (i < length h)%nat.
Proof. intros H. apply List.nth_error_Some. unfold lookup in H. congruence. Qed.

Lemma lookup_some (h : heap) (i : nat) :
  (i < length h)%nat -> exists o, lookup h i = Some o.
Proof.
  intros Hi. unfold lookup. destruct (nth_error h i) as [o|] eqn:E.
  - now exists o.
  - apply List.nth_error_None in E. lia.
Qed.

(** *** Shapes *)

Lemma same_shape_refl (o : obj) : same_shape o o.
Proof. destruct o; cbn; auto. Qed.

Lemma same_shape_trans (o1 o2 o3 : obj) :
  same_shape o1 o2 -> same_shape o2 o3 -> same_shape o1 o3.
Proof.
  destruct o1, o2, o3; cbn; try tauto.
  - intros [-> ->] [-> ->]. auto.
  - intros (-> & -> & ->) (-> & -> & ->). auto.
Qed.

Lemma same_shape_sym (o1 o2 : obj) : same_shape o1 o2 -> same_shape o2 o1.
Proof.
  destruct o1, o2; cbn; try tauto.
  - intros [-> ->]. auto.
  - intros (-> & -> & ->). auto.
Qed.

Lemma same_shape_need (o o' : obj) :
  same_shape o o' -> need_gradn o' = need_gradn o.
Proof.
  destruct o, o'; cbn; try tauto.
  - now intros [-> _].
  - now intros (_ & _ & ->).
Qed.

Lemma evolved_refl (h : heap) : evolved h h.
Proof.
  split; [reflexivity|]. intros j o Ho. exists o. split; [exact Ho|].
  apply same_shape_refl.
Qed.

Lemma evolved_trans (h1 h2 h3 : heap) :
  evolved h1 h2 -> evolved h2 h3 -> evolved h1 h3.
Proof.
  intros [L12 H12] [L23 H23]. split; [congruence|]. intros j o Ho.
  destruct (H12 j o Ho) as (o2 & Ho2 & S12).
  destruct (H23 j o2 Ho2) as (o3 & Ho3 & S23).
  exists o3. split; [exact Ho3|]. eapply same_shape_trans; eassumption.
Qed.

Lemma evolved_back (h h' : heap) (j : nat) (o' : obj) :
  evolved h h' -> lookup h' j = Some o' ->
  exists o, lookup h j = Some o /\ same_shape o o'.
Proof.
  intros [Hlen Hev] Ho'. pose proof (lookup_valid _ _ _ Ho') as Hj.
  rewrite Hlen in Hj. destruct (lookup_some h j Hj) as (o & Ho).
  destruct (Hev j o Ho) as (o2 & Ho2 & Hs). exists o. split; [exact Ho|].
  congruence.
Qed.

Lemma evolved_store (h : heap) (i : nat) (o o' : obj) :
  lookup h i = Some o -> same_shape o o' -> evolved h (store h i o').
Proof.
  intros Ho Hs. split; [apply store_length|]. intros j oj Hoj.
  destruct (Nat.eq_dec i j) as [<-|Hne].
  - exists o'. split; [apply lookup_store_same; eapply lookup_valid; eassumption|].
    congruence.
  - exists oj. split; [now rewrite lookup_store_other|apply same_shape_refl].
Qed.

Lemma operand_evolved (h h' : heap) (i c : nat) :
  evolved h h' -> operand h i c -> operand h' i c.
Proof.
  intros [_ Hev] (g & hm & a & b & n & Hi & Hc).
  destruct (Hev _ _ Hi) as (o' & Ho' & Hs).
  destruct o' as [|g' hm' a' b' n']; cbn in Hs; [contradiction|].
  destruct Hs as (-> & -> & ->). now exists g', hm', a', b', n'.
Qed.

Lemma reaches_evolved (h h' : heap) (i j : nat) :
  evolved h h' -> reaches h i j -> reaches h' i j.
Proof.
  intros Hev. induction 1 as [i Hi|i c j Hop _ IH].
  - apply reaches_self. destruct Hev as [Hlen _]. lia.
  - eapply reaches_operand; [|exact IH]. eapply operand_evolved; eassumption.
Qed.

Lemma evolved_sym_reaches (h h' : heap) (i j : nat) :
  evolved h h' -> reaches h' i j -> reaches h i j.
Proof.
  intros Hev. induction 1 as [i Hi|i c j Hop _ IH].
  - apply reaches_self. destruct Hev as [Hlen _]. lia.
  - eapply reaches_operand; [|exact IH].
    destruct Hop as (g & hm & a & b & n & Hi & Hc).
    destruct (evolved_back _ _ _ _ Hev Hi) as (o & Ho & Hs).
    destruct o as [|g0 hm0 a0 b0 n0]; cbn in Hs; [contradiction|].
    destruct Hs as (-> & -> & ->). now exists g0, hm0, a, b, n.
Qed.

Lemma well_founded_evolved (h h' : heap) :
  evolved h h' -> well_founded h -> well_founded h'.
Proof.
  intros Hev Hwf i g hm a b n Hi.
  destruct (evolved_back _ _ _ _ Hev Hi) as (o & Ho & Hs).
  destruct o as [|g0 hm0 a0 b0 n0]; cbn in Hs; [contradiction|].
  destruct Hs as (-> & -> & ->). eapply Hwf; eassumption.
Qed.

Lemma consistent_evolved (h h' : heap) :
  evolved h h' -> consistent h -> consistent h'.
Proof.
  intros Hev Hc i g hm a b n Hi.
  destruct (evolved_back _ _ _ _ Hev Hi) as (o & Ho & Hs).
  destruct o as [|g0 hm0 a0 b0 n0]; cbn in Hs; [contradiction|].
  destruct Hs as (-> & -> & ->).
  destruct (Hc _ _ _ _ _ _ Ho) as (oa & ob & Ha & Hb & Hn).
  destruct Hev as [_ Hev].
  destruct (Hev _ _ Ha) as (oa' & Ha' & Sa).
  destruct (Hev _ _ Hb) as (ob' & Hb' & Sb).
  exists oa', ob'. split; [exact Ha'|]. split; [exact Hb'|].
  now rewrite (same_shape_need _ _ Sa), (same_shape_need _ _ Sb).
Qed.


(** *** The walk through a sum *)

Lemma leaf_reaches_itself (h : heap) (i j : nat) g hm need names :
  lookup h i = Some (Leaf g hm need names) -> reaches h i j -> j = i.
Proof.
  intros Hi Hr. destruct Hr as [i _|i c j Hop _]; [reflexivity|].
  destruct Hop as (g' & hm' & a & b & n & Hi' & _). congruence.
Qed.

Lemma sum_reaches (h : heap) (i j : nat) g hm a b n :
  lookup h i = Some (Sum g hm a b n) -> reaches h i j ->
  j = i \/ reaches h a j \/ reaches h b j.
Proof.
  intros Hi Hr. destruct Hr as [i _|i c j Hop Hr]; [now left|].
  destruct Hop as (g' & hm' & a' & b' & n' & Hi' & Hc).
  assert (a' = a /\ b' = b) as [-> ->] by (split; congruence).
  destruct Hc as [->| ->]; auto.
Qed.

Section Walk.

Variable upd : obj -> obj.
Hypothesis upd_shape : forall o, same_shape o (upd o).

(** What every update keeps. *)
Variable kept : obj -> obj -> Prop.
Hypothesis kept_refl : forall o, kept o o.
Hypothesis kept_trans : forall o1 o2 o3, kept o1 o2 -> kept o2 o3 -> kept o1 o3.
Hypothesis kept_upd : forall o, kept o (upd o).

Lemma visit_spec (fuel : nat) :
  forall (h : heap) (self : nat),
    well_founded h -> (self < fuel)%nat -> (self < length h)%nat ->
    exists h',
      visit upd fuel h self = Some h' /\
      evolved h h' /\
      forall j o, lookup h j = Some o ->
        exists o',
          lookup h' j = Some o' /\
          kept o o' /\
          (o' = o \/ exists x, o' = upd x) /\
          (reaches h self j -> exists x, o' = upd x) /\
          (~ reaches h self j -> o' = o).
Proof.
  induction fuel as [|fuel IH]; intros h self Hwf Hfuel Hself; [lia|].
  cbn [visit]. destruct (lookup_some h self Hself) as (o & Ho). rewrite Ho.
  destruct o as [g hm need names|g hm a b n].
  - (* a leaf: only the object itself changes *)
    eexists. split; [reflexivity|]. split.
    { eapply evolved_store; [exact Ho|apply upd_shape]. }
    intros j oj Hoj. destruct (Nat.eq_dec self j) as [<-|Hne].
    + exists (upd (Leaf g hm need names)).
      split; [now apply lookup_store_same|].
      split; [rewrite Ho in Hoj; injection Hoj as <-; apply kept_upd|].
      split; [right; now eexists|]. split; [intros _; now eexists|].
      intros Hno. exfalso. apply Hno. now apply reaches_self.
    + exists oj. split; [now rewrite lookup_store_other|].
      split; [apply kept_refl|].
      split; [now left|]. split; [|reflexivity].
      intros Hr. exfalso. apply Hne. symmetry.
      eapply leaf_reaches_itself; eassumption.
  - (* a sum: the two operands, then the object itself *)
    destruct (Hwf _ _ _ _ _ _ Ho) as [Ha Hb].
    destruct (IH h a Hwf ltac:(lia) ltac:(lia)) as (h1 & Hv1 & He1 & H1).
    rewrite Hv1.
    pose proof (well_founded_evolved _ _ He1 Hwf) as Hwf1.
    destruct (IH h1 b Hwf1 ltac:(lia)
                ltac:(destruct He1 as [-> _]; lia))
      as (h2 & Hv2 & He2 & H2).
    rewrite Hv2.
    pose proof (evolved_trans _ _ _ He1 He2) as He12.
    destruct (proj2 He12 _ _ Ho) as (o2 & Ho2 & Hs2). rewrite Ho2.
    eexists. split; [reflexivity|]. split.
    { eapply evolved_trans; [exact He12|].
      eapply evolved_store; [exact Ho2|apply upd_shape]. }
    intros j oj Hoj.
    destruct (H1 j oj Hoj) as (o1 & Ho1 & Hkept1 & Hk1 & Hr1 & Hn1).
    destruct (H2 j o1 Ho1) as (o2' & Ho2' & Hkept2 & Hk2 & Hr2 & Hn2).
    pose proof (kept_trans _ _ _ Hkept1 Hkept2) as Hkept.
    destruct (Nat.eq_dec self j) as [<-|Hne].
    + exists (upd o2). split.
      { apply lookup_store_same. destruct He12 as [-> _]. exact Hself. }
      split.
      { assert (o2' = o2) as -> by congruence.
        eapply kept_trans; [exact Hkept|apply kept_upd]. }
      split; [right; now eexists|]. split; [intros _; now eexists|].
      intros Hno. exfalso. apply Hno. now apply reaches_self.
    + exists o2'. split; [now rewrite lookup_store_other|].
      assert (Hvia_a : reaches h a j -> exists x, o2' = upd x).
      { intros Hr. destruct (Hr1 Hr) as (x & ->).
        destruct Hk2 as [->|Hx]; [now exists x|exact Hx]. }
      assert (Hvia_b : reaches h b j -> exists x, o2' = upd x).
      { intros Hr. apply Hr2. exact (reaches_evolved _ _ _ _ He1 Hr). }
      split; [exact Hkept|]. split; [|split].
      * destruct Hk2 as [->|Hx]; [exact Hk1|now right].
      * intros Hr.
        destruct (sum_reaches _ _ _ _ _ _ _ _ Ho Hr) as [->|[Hra|Hrb]];
          [contradiction|auto..].
      * intros Hno.
        assert (Hna : ~ reaches h a j).
        { intros Hr. apply Hno. eapply reaches_operand; [|exact Hr].
          exists g, hm, a, b, n. auto. }
        assert (Hnb : ~ reaches h1 b j).
        { intros Hr. apply Hno. eapply reaches_operand.
          - exists g, hm, a, b, n. split; [exact Ho|now right].
          - exact (evolved_sym_reaches _ _ _ _ He1 Hr). }
        rewrite (Hn2 Hnb). exact (Hn1 Hna).
Qed.

End Walk.

Lemma set_grid_visit (g : nat) (fuel : nat) :
  forall (h : heap) (self : nat),
    set_grid fuel h self g = visit (fun o => with_grid o g) fuel h self.
Proof.
  induction fuel as [|fuel IH]; intros h self; [reflexivity|].
  cbn [set_grid visit]. destruct (lookup h self) as [[|? ? a b ?]|];
    try reflexivity.
  rewrite IH. destruct (visit _ fuel h a) as [h1|]; [|reflexivity].
  rewrite IH. reflexivity.
Qed.

Lemma set_hmodel_visit (hm : hmodel_obj) (fuel : nat) :
  forall (h : heap) (self : nat),
    set_hmodel fuel h self hm
    = visit (fun o => with_hmodel (with_grid o (hmodel_grid hm)) hm)
        fuel h self.
Proof.
  induction fuel as [|fuel IH]; intros h self; [reflexivity|].
  cbn [set_hmodel visit]. destruct (lookup h self) as [[|? ? a b ?]|];
    try reflexivity.
  rewrite IH. destruct (visit _ fuel h a) as [h1|]; [|reflexivity].
  rewrite IH. reflexivity.
Qed.

Lemma visit_evolved (upd : obj -> obj) :
  (forall o, same_shape o (upd o)) ->
  forall (fuel : nat) (h h' : heap) (self : nat),
    visit upd fuel h self = Some h' -> evolved h h'.
Proof.
  intros Hupd. induction fuel as [|fuel IH]; intros h h' self; [discriminate|].
  cbn [visit]. destruct (lookup h self) as [o|] eqn:Ho; [|discriminate].
  destruct o as [g hm need names|g hm a b n].
  - intros [= <-]. eapply evolved_store; [exact Ho|apply Hupd].
  - destruct (visit upd fuel h a) as [h1|] eqn:H1; [|discriminate].
    destruct (visit upd fuel h1 b) as [h2|] eqn:H2; [|discriminate].
    destruct (lookup h2 self) as [o2|] eqn:Ho2; [|discriminate].
    intros [= <-].
    eapply evolved_trans; [eapply IH; exact H1|].
    eapply evolved_trans; [eapply IH; exact H2|].
    eapply evolved_store; [exact Ho2|apply Hupd].
Qed.

Lemma with_grid_shape (g : nat) (o : obj) : same_shape o (with_grid o g).
Proof. destruct o; cbn; auto. Qed.

Lemma with_both_shape (hm : hmodel_obj) (o : obj) :
  same_shape o (with_hmodel (with_grid o (hmodel_grid hm)) hm).
Proof. destruct o; cbn; auto. Qed.

(** *** The stores the program can produce *)

Lemma lookup_app_old (h t : heap) (i : nat) :
  (i < length h)%nat -> lookup (h ++ t) i = lookup h i.
Proof. intros Hi. unfold lookup. now apply nth_error_app1. Qed.

Lemma lookup_app_new (h : heap) (o : obj) :
  lookup (h ++ [o]) (length h) = Some o.
Proof.
  unfold lookup. rewrite nth_error_app2 by lia. now rewrite Nat.sub_diag.
Qed.

Lemma lookup_app_cases (h : heap) (o x : obj) (i : nat) :
  lookup (h ++ [o]) i = Some x ->
  ((i < length h)%nat /\ lookup h i = Some x) \/ (i = length h /\ x = o).
Proof.
  intros Hi. pose proof (lookup_valid _ _ _ Hi) as Hlt.
  rewrite length_app in Hlt. cbn [length] in Hlt.
  destruct (Nat.eq_dec i (length h)) as [->|Hne].
  - right. rewrite lookup_app_new in Hi. split; [reflexivity|congruence].
  - left. assert (Hlt' : (i < length h)%nat) by lia.
    rewrite lookup_app_old in Hi by exact Hlt'. auto.
Qed.

Lemma built_invariants (h : heap) :
  built h -> well_founded h /\ consistent h.
Proof.
  induction 1 as [|h need names _ [Hwf Hc]|h h' a b c _ [Hwf Hc] Hadd
                  |h h' fuel i g _ [Hwf Hc] Hset|h h' fuel i hm _ [Hwf Hc] Hset].
  - split; intros i g hm a b n Hi; destruct i; discriminate.
  - cbn [new_leaf fst]. split; intros i g hm a b n Hi;
      (apply lookup_app_cases in Hi as [[Hlt Hi]|[_ Hi]]; [|discriminate]).
    + eapply Hwf; eassumption.
    + destruct (Hc _ _ _ _ _ _ Hi) as (oa & ob & Ha & Hb & Hn).
      exists oa, ob.
      rewrite !lookup_app_old by (eapply lookup_valid; eassumption). auto.
  - unfold __add__ in Hadd. cbn [_normalize] in Hadd.
    destruct (lookup h a) as [oa|] eqn:Ha; [|discriminate].
    destruct (lookup h b) as [ob|] eqn:Hb; [|discriminate].
    injection Hadd as <- <-.
    pose proof (lookup_valid _ _ _ Ha) as Hla.
    pose proof (lookup_valid _ _ _ Hb) as Hlb.
    split; intros i g hm a' b' n Hi;
      (apply lookup_app_cases in Hi as [[Hlt Hi]|[-> Hi]]).
    + eapply Hwf; eassumption.
    + injection Hi as _ _ -> -> _. auto.
    + destruct (Hc _ _ _ _ _ _ Hi) as (xa & xb & Hxa & Hxb & Hn).
      exists xa, xb.
      rewrite !lookup_app_old by (eapply lookup_valid; eassumption). auto.
    + injection Hi as _ _ -> -> ->. exists oa, ob.
      rewrite !lookup_app_old by assumption. auto.
  - rewrite set_grid_visit in Hset.
    pose proof (visit_evolved _ (with_grid_shape g) _ _ _ _ Hset) as Hev.
    split; [eapply well_founded_evolved|eapply consistent_evolved];
      eassumption.
  - rewrite set_hmodel_visit in Hset.
    pose proof (visit_evolved _ (with_both_shape hm) _ _ _ _ Hset) as Hev.
    split; [eapply well_founded_evolved|eapply consistent_evolved];
      eassumption.
Qed.


Lemma kept_hmodel_trans (o1 o2 o3 : obj) :
  hmodel o2 = hmodel o1 -> hmodel o3 = hmodel o2 -> hmodel o3 = hmodel o1.
Proof. congruence. Qed.

Lemma with_grid_hmodel (g : nat) (o : obj) : hmodel (with_grid o g) = hmodel o.
Proof. destruct o; reflexivity. Qed.

Lemma with_grid_grid (g : nat) (o : obj) : grid (with_grid o g) = Ok g.
Proof. destruct o; reflexivity. Qed.

Lemma with_both_grid (hm : hmodel_obj) (o : obj) :
  grid (with_hmodel (with_grid o (hmodel_grid hm)) hm) = Ok (hmodel_grid hm).
Proof. destruct o; reflexivity. Qed.

Lemma with_both_hmodel (hm : hmodel_obj) (o : obj) :
  hmodel (with_hmodel (with_grid o (hmodel_grid hm)) hm) = Ok hm.
Proof. destruct o; reflexivity. Qed.

(** X23: on a store the program has built, [set_hmodel] called on any
    object returns (the recursion through the operands ends), and sets the
    model and the model's grid in the object and in every term of the sum it
    stands for, however the terms are shared; every other object is left as
    it was, and no object changes its class, operands, [need_gradn] or
    parameter names. *)
Theorem set_hmodel_reaches_every_term
    (h : heap) (self fuel : nat) (hm : hmodel_obj) :
  built h -> (self < length h)%nat -> (self < fuel)%nat ->
  exists h' : heap,
    set_hmodel fuel h self hm = Some h' /\
    length h' = length h /\
    forall (j : nat) (o : obj), lookup h j = Some o ->
      exists o' : obj,
        lookup h' j = Some o' /\
        same_shape o o' /\
        (reaches h self j ->
         grid o' = Ok (hmodel_grid hm) /\ hmodel o' = Ok hm) /\
        (~ reaches h self j -> o' = o).
Proof.
  intros Hb Hself Hfuel. destruct (built_invariants h Hb) as [Hwf _].
  rewrite set_hmodel_visit.
  destruct (visit_spec _ (with_both_shape hm) (fun _ _ => True)
              (fun _ => I) (fun _ _ _ _ _ => I) (fun _ => I)
              fuel h self Hwf Hfuel Hself) as (h' & Hv & Hev & Hall).
  exists h'. split; [exact Hv|]. split; [exact (proj1 Hev)|].
  intros j o Ho. destruct (Hall j o Ho) as (o' & Ho' & _ & _ & Hr & Hn).
  exists o'. split; [exact Ho'|]. split.
  - destruct (proj2 Hev j o Ho) as (o'' & Ho'' & Hs). congruence.
  - split; [|exact Hn]. intros Hreach. destruct (Hr Hreach) as (x & ->).
    split; [apply with_both_grid|apply with_both_hmodel].
Qed.

(** X24: on a store the program has built, [set_grid] called on any object
    returns, and sets the grid in the object and in every term of the sum it
    stands for; the model of no object changes, every other object is left
    as it was, and no object changes its class, operands, [need_gradn] or
    parameter names. *)
Theorem set_grid_reaches_every_term (h : heap) (self fuel g : nat) :
  built h -> (self < length h)%nat -> (self < fuel)%nat ->
  exists h' : heap,
    set_grid fuel h self g = Some h' /\
    length h' = length h /\
    forall (j : nat) (o : obj), lookup h j = Some o ->
      exists o' : obj,
        lookup h' j = Some o' /\
        same_shape o o' /\
        hmodel o' = hmodel o /\
        (reaches h self j -> grid o' = Ok g) /\
        (~ reaches h self j -> o' = o).
Proof.
  intros Hb Hself Hfuel. destruct (built_invariants h Hb) as [Hwf _].
  rewrite set_grid_visit.
  destruct (visit_spec _ (with_grid_shape g)
              (fun o o' => hmodel o' = hmodel o)
              (fun _ => eq_refl) kept_hmodel_trans (with_grid_hmodel g)
              fuel h self Hwf Hfuel Hself) as (h' & Hv & Hev & Hall).
  exists h'. split; [exact Hv|]. split; [exact (proj1 Hev)|].
  intros j o Ho. destruct (Hall j o Ho) as (o' & Ho' & Hk & _ & Hr & Hn).
  exists o'. split; [exact Ho'|]. split.
  - destruct (proj2 Hev j o Ho) as (o'' & Ho'' & Hs). congruence.
  - split; [exact Hk|]. split; [|exact Hn].
    intros Hreach. destruct (Hr Hreach) as (x & ->). apply with_grid_grid.
Qed.

(** X25: on a store the program has built, an object answers [need_gradn]
    with [True] exactly when one of the terms of the sum it stands for is a
    leaf functional that does: the flag an [AddEKS] computed when it was
    made is that of its terms, at any depth. *)
Theorem need_gradn_is_that_of_the_terms (h : heap) :
  built h ->
  forall (i : nat) (o : obj), lookup h i = Some o ->
    (need_gradn o = true <->
     exists (j : nat) g hm names,
       reaches h i j /\ lookup h j = Some (Leaf g hm true names)).
Proof.
  intros Hb. destruct (built_invariants h Hb) as [Hwf Hc].
  induction i as [i IH] using (well_founded_induction Wf_nat.lt_wf).
  intros o Ho. destruct o as [g hm need names|g hm a b n]; cbn [need_gradn].
  - split.
    + intros ->. exists i, g, hm, names. split; [|exact Ho].
      apply reaches_self. eapply lookup_valid; exact Ho.
    + intros (j & g' & hm' & names' & Hr & Hj).
      rewrite (leaf_reaches_itself _ _ _ _ _ _ _ Ho Hr) in Hj. congruence.
  - destruct (Hwf _ _ _ _ _ _ Ho) as [Ha Hlt].
    destruct (Hc _ _ _ _ _ _ Ho) as (oa & ob & Hoa & Hob & ->).
    rewrite orb_true_iff, (IH a Ha oa Hoa), (IH b Hlt ob Hob). split.
    + intros [(j & g' & hm' & names' & Hr & Hj)|(j & g' & hm' & names' & Hr & Hj)];
        exists j, g', hm', names'; (split; [|exact Hj]);
        (eapply reaches_operand; [|exact Hr]);
        exists g, hm, a, b, (need_gradn oa || need_gradn ob)%bool; auto.
    + intros (j & g' & hm' & names' & Hr & Hj).
      destruct (sum_reaches _ _ _ _ _ _ _ _ Ho Hr) as [->|[Hra|Hrb]].
      * congruence.
      * left. now exists j, g', hm', names'.
      * right. now exists j, g', hm', names'.
Qed.

End EksObjectsFacts.

Section EksObjectsNames.

Import EksObjects.

Lemma reaches_valid (h : heap) (i j : nat) :
  reaches h i j -> (j < length h)%nat.
Proof. induction 1; assumption. Qed.

Lemma lookup_none (h : heap) (i : nat) :
  lookup h i = None <-> (length h <= i)%nat.
Proof. unfold lookup. apply nth_error_None. Qed.

Lemma getfwdparamnames_returns (h : heap) :
  well_founded h ->
  forall (fuel j : nat) (prefix : string),
    (j < fuel)%nat -> (j < length h)%nat ->
    exists names, getfwdparamnames fuel h j prefix = Some names.
Proof.
  intros Hwf. induction fuel as [|fuel IH]; intros j prefix Hfuel Hj; [lia|].
  cbn [getfwdparamnames].
  destruct (lookup_some h j Hj) as (o & Ho). rewrite Ho.
  destruct o as [g hm need names|g hm a b n]; [now eexists|].
  destruct (Hwf _ _ _ _ _ _ Ho) as [Ha Hb].
  destruct (IH a (prefix ++ "a.")%string ltac:(lia) ltac:(lia)) as (na & ->).
  destruct (IH b (prefix ++ "b.")%string ltac:(lia) ltac:(lia)) as (nb & ->).
  now eexists.
Qed.

Lemma getfwdparamnames_evolved (h h' : heap) :
  evolved h h' ->
  forall (fuel j : nat) (prefix : string),
    getfwdparamnames fuel h' j prefix = getfwdparamnames fuel h j prefix.
Proof.
  intros Hev. induction fuel as [|fuel IH]; intros j prefix; [reflexivity|].
  cbn [getfwdparamnames].
  destruct (lookup h j) as [o|] eqn:Ho.
  - destruct (proj2 Hev _ _ Ho) as (o' & -> & Hs).
    destruct o as [g hm need names|g hm a b n],
             o' as [g' hm' need' names'|g' hm' a' b' n'];
      cbn in Hs; try contradiction.
    + now destruct Hs as [_ ->].
    + destruct Hs as (-> & -> & _). now rewrite !IH.
  - apply lookup_none in Ho. rewrite <- (proj1 Hev) in Ho.
    apply lookup_none in Ho. now rewrite Ho.
Qed.

Lemma visit_valid (upd : obj -> obj) (fuel : nat) (h h' : heap) (self : nat) :
  visit upd fuel h self = Some h' -> (self < length h)%nat.
Proof.
  destruct fuel as [|fuel]; [discriminate|]. cbn [visit].
  destruct (lookup h self) as [o|] eqn:Ho; [|discriminate].
  intros _. eapply lookup_valid; exact Ho.
Qed.

(** X26: the parameter names of [potential_linop] need the model.  On a
    store the program has built, once [set_hmodel] has been called on an
    object, [getparamnames("potential_linop", prefix)] of every term of the
    sum it stands for returns the names of the term's forward, as they were
    before the call, followed by the names the model gives for [get_vext]
    under [prefix + "hmodel."]; an object whose model has not been set
    raises the [RuntimeError] of the [hmodel] property instead. *)
Theorem potential_linop_names_need_the_model
    (h h' : heap) (self fuel : nat) (hm : hmodel_obj) :
  built h ->
  set_hmodel fuel h self hm = Some h' -> (self < fuel)%nat ->
  forall (j fuel' : nat) (prefix : string),
    reaches h self j -> (j < fuel')%nat ->
    exists names : list string,
      getfwdparamnames fuel' h j prefix = Some names /\
      getparamnames fuel' h' j "potential_linop" prefix
        = Some (Ok (names ++ hmodel_getparamnames hm "get_vext"
                               (prefix ++ "hmodel."))) /\
      forall o : obj,
        lookup h j = Some o -> hmodel o = Raise RuntimeError ->
        getparamnames fuel' h j "potential_linop" prefix
          = Some (Raise RuntimeError).
Proof.
  intros Hb Hset Hfuel j fuel' prefix Hreach Hj.
  destruct (built_invariants h Hb) as [Hwf _].
  rewrite set_hmodel_visit in Hset.
  pose proof (visit_valid _ _ _ _ _ Hset) as Hself.
  destruct (visit_spec _ (with_both_shape hm) (fun _ _ => True)
              (fun _ => I) (fun _ _ _ _ _ => I) (fun _ => I)
              fuel h self Hwf Hfuel Hself) as (h2 & Hv & Hev & Hall).
  assert (h2 = h') as -> by congruence.
  pose proof (reaches_valid _ _ _ Hreach) as Hjlen.
  destruct (getfwdparamnames_returns h Hwf fuel' j prefix Hj Hjlen)
    as (names & Hnames).
  exists names. split; [exact Hnames|].
  destruct (lookup_some h j Hjlen) as (o & Ho).
  destruct (Hall j o Ho) as (o' & Ho' & _ & _ & Hr & _).
  destruct (Hr Hreach) as (x & ->).
  unfold getparamnames. cbn [String.eqb Ascii.eqb Bool.eqb orb andb].
  split.
  - rewrite (getfwdparamnames_evolved _ _ Hev), Hnames, Ho'.
    now rewrite with_both_hmodel.
  - intros o0 Ho0 Hraise. rewrite Hnames, Ho0, Hraise. reflexivity.
Qed.

End EksObjectsNames.

(** ** Runs on the concrete instances *)

Section FurtherInstances.

Import Eigpairs Fixtures.

Lemma davidson_without_iterations_raises_witness :
  _check_and_get_shape operator3 = Ok 3%nat /\
  get_nbatch one_param = Ok 1%nat /\
  known_strategy (lower (get_or (v_init no_options) "randn")) = true /\
  fst (davidson toy_torch operator3 119 one_param no_options start)
    = Raise UnboundLocalError /\
  napply (snd (davidson toy_torch operator3 119 one_param no_options start))
    = 0%nat.
Proof.
  assert (H1 : _check_and_get_shape operator3 = Ok 3%nat) by reflexivity.
  assert (H2 : get_nbatch one_param = Ok 1%nat) by reflexivity.
  assert (H3 : known_strategy (lower (get_or (v_init no_options) "randn"))
               = true) by reflexivity.
  split; [exact H1|]. split; [exact H2|]. split; [exact H3|].
  exact (davidson_without_iterations_raises toy_torch operator3 119 one_param
           no_options start 3 1 H1 H2 H3).
Defined.

Lemma lanczos_with_too_few_iterations_never_returns_witness :
  (get_or (max_niter no_options) 120 < 121)%nat /\
  is_ok (fst (lanczos toy_torch operator3 121 one_param no_options start))
    = false.
Proof.
  assert (H : (get_or (max_niter no_options) 120 < 121)%nat) by (cbn; lia).
  split; [exact H|].
  exact (lanczos_with_too_few_iterations_never_returns toy_torch operator3 121
           one_param no_options start H).
Defined.

Lemma lanczos_applies_operator_at_most_2n_times_witness :
  get_nbatch one_param = Ok 1%nat /\
  (napply (snd (lanczos toy_torch operator3 1 one_param no_options start))
   <= 0 + 2 * Nat.max 3 1)%nat.
Proof.
  assert (H : get_nbatch one_param = Ok 1%nat) by reflexivity.
  split; [exact H|].
  exact (lanczos_applies_operator_at_most_2n_times toy_torch toy_randn_shape
           toy_rand_shape toy_qr_reduced operator3 1 one_param no_options
           start 0 H).
Defined.

Lemma davidson_stops_on_a_full_guess_witness :
  davidson toy_torch operator3 2 one_param full_eye_options start
    = (Ok ([[1; 2]], [[[1; 0; 0]; [0; 1; 0]]]), {| rng := 12421; napply := 1 |}).
Proof.
  exact (davidson_stops_on_a_full_guess toy_torch toy_randn_shape
           toy_rand_shape toy_qr_reduced operator3 2 one_param
           full_eye_options start 3 0 eq_refl eq_refl eq_refl
           ltac:(cbn; lia) ltac:(cbn; lia) [eye 3 3]
           {| rng := 12421; napply := 0 |} eq_refl).
Defined.

Lemma davidson_subspace_bounded_after_valid_guess_witness :
  (lower (get_or (v_init eye_options) "randn") = "eye"%string ->
   (get_or (nguess eye_options) (1 + 1) <= fst (shape operator3))%nat) /\
  Forall (fun st => Forall (fun m => (length m <= 3)%nat) (V st))
    (davidson_iterates toy_torch operator3 1 one_param eye_options start).
Proof.
  assert (H : lower (get_or (v_init eye_options) "randn") = "eye"%string ->
              (get_or (nguess eye_options) (1 + 1) <= fst (shape operator3))%nat)
    by (intros _; cbn; lia).
  split; [exact H|].
  exact (davidson_subspace_bounded_after_valid_guess toy_torch toy_randn_shape
           toy_rand_shape toy_qr_reduced operator3 1 one_param eye_options
           start H).
Defined.

Lemma parsed_shells_are_aligned_witness :
  CgtoBasis.read_shells toy_externals (length hydrogen_lines) hydrogen_lines
      [] [] []
    = Some (Ok (["S"; "SP"]%string, [[3; 5]; [7; 7]], [[4; 6]; [8; 9]])) /\
  length ["S"; "SP"]%string = length [[3; 5]; [7; 7]] /\
  length ["S"; "SP"]%string = length [[4; 6]; [8; 9]] /\
  Forall2 (fun a c : list Q => length a = length c)
    [[3; 5]; [7; 7]] [[4; 6]; [8; 9]].
Proof.
  assert (H : CgtoBasis.read_shells toy_externals (length hydrogen_lines)
                hydrogen_lines [] [] []
              = Some (Ok (["S"; "SP"]%string, [[3; 5]; [7; 7]],
                          [[4; 6]; [8; 9]])))
    by (vm_compute; reflexivity).
  split; [exact H|].
  exact (parsed_shells_are_aligned toy_externals _ _ _ _ H).
Defined.

Lemma solve_poisson_is_symmetric_witness :
  Grids.RadialShiftExp_init toy_numeric 1 2 2 = Ok two_point_grid /\
  exists pu pv : vec,
    Grids.solve_poisson two_point_grid [[1; 2]; [3; 5]] = Ok [pu; pv] /\
    Grids.radial_inner two_point_grid [1; 2] pv
    == Grids.radial_inner two_point_grid pu [3; 5].
Proof.
  assert (H : Grids.RadialShiftExp_init toy_numeric 1 2 2 = Ok two_point_grid)
    by (vm_compute; reflexivity).
  split; [exact H|].
  exact (solve_poisson_is_symmetric toy_numeric 1 2 2 two_point_grid
           [1; 2] [3; 5] H eq_refl eq_refl).
Defined.

Lemma solve_poisson_is_linear_witness :
  Grids.RadialShiftExp_init toy_numeric 1 2 2 = Ok two_point_grid /\
  exists pf ph p : vec,
    Grids.solve_poisson two_point_grid [[1; 2]; [3; 5]] = Ok [pf; ph] /\
    Grids.solve_poisson two_point_grid [Grids.lincomb 7 [1; 2] [3; 5]]
      = Ok [p] /\
    Grids.veq p (Grids.lincomb 7 pf ph).
Proof.
  assert (H : Grids.RadialShiftExp_init toy_numeric 1 2 2 = Ok two_point_grid)
    by (vm_compute; reflexivity).
  split; [exact H|].
  exact (solve_poisson_is_linear toy_numeric 1 2 2 two_point_grid 7
           [1; 2] [3; 5] H eq_refl eq_refl).
Defined.

Lemma antiderivative_gives_running_sums_witness :
  Grids.RadialShiftExp_init toy_numeric 1 2 2 = Ok two_point_grid /\
  Grids.antiderivative two_point_grid [[3; 5]] "left" = Ok (Some [[3; 13]]) /\
  Grids.antiderivative two_point_grid [[3; 5]] "middle" = Ok None.
Proof.
  assert (H : Grids.RadialShiftExp_init toy_numeric 1 2 2 = Ok two_point_grid)
    by (vm_compute; reflexivity).
  split; [exact H|].
  destruct (antiderivative_gives_running_sums toy_numeric 1 2 2
              two_point_grid [3; 5] H eq_refl) as (_ & _ & Hother).
  split; [vm_compute; reflexivity|].
  apply Hother; discriminate.
Defined.

Lemma toy_leggauss_increasing (n : nat) (x w : vec) :
  RadialGrid.leggauss toy_numlib n = Ok (x, w) ->
  length x = n /\ RadialGrid.increasing x.
Proof.
  cbn [RadialGrid.leggauss toy_numlib]. destruct n as [|n]; [discriminate|].
  intros [= <- _]. unfold toy_nodes. split.
  - now rewrite length_map, length_seq.
  - unfold RadialGrid.increasing. generalize 0%nat.
    induction (S n) as [|m IH]; intros s; cbn [seq map]; constructor.
    + apply IH.
    + apply List.Forall_forall. intros q Hq.
      apply in_map_iff in Hq as (i & <- & Hi). apply in_seq in Hi.
      unfold Qlt. cbn [Qnum Qden inject_Z]. lia.
Qed.

Lemma cubic_spline_reproduces_the_nodes_witness :
  RadialGrid._get_spline_mat_inverse toy_numlib three_node_grid
    = (Ok three_node_slopes, three_node_grid_used) /\
  exists out : bvec,
    RadialGrid._cubic_spline toy_numlib three_node_grid
        [0; 2 # 2; 2] [0; 1; 2] [[10; 20; 30]]
      = (Ok out, three_node_grid_used) /\
    Grids.beq out [[10; 20; 30]].
Proof.
  assert (H : RadialGrid._get_spline_mat_inverse toy_numlib three_node_grid
              = (Ok three_node_slopes, three_node_grid_used))
    by (vm_compute; reflexivity).
  split; [exact H|].
  apply (cubic_spline_reproduces_the_nodes toy_numlib three_node_grid
           three_node_grid_used three_node_slopes
           [0; 2 # 2; 2] [0; 1; 2] [[10; 20; 30]] H).
  - repeat constructor.
  - cbn. lia.
  - split; [reflexivity|]. repeat constructor.
  - repeat constructor.
  - repeat constructor.
Defined.

Lemma cubic_spline_uses_the_bracketing_interval_witness :
  exists out : bvec,
    RadialGrid._cubic_spline toy_numlib three_node_grid
        [1 # 2; 3] [0; 1; 2] [[10; 20; 30]]
      = (Ok out, three_node_grid_used) /\
    length out = 1%nat /\
    Forall (fun row => length row = 2%nat) out /\
    Forall (fun q =>
              let idxr := RadialGrid.locate 3 [0; 1; 2] q in
              (1 <= idxr <= 3 - 1)%Z /\
              (0 <= q -> q <= 2 ->
               nth (Z.to_nat (idxr - 1)) [0; 1; 2] 0 <= q /\
               q <= nth (Z.to_nat idxr) [0; 1; 2] 0)) [1 # 2; 3].
Proof.
  apply (cubic_spline_uses_the_bracketing_interval toy_numlib three_node_grid
           three_node_grid_used three_node_slopes
           [1 # 2; 3] [0; 1; 2] [[10; 20; 30]]).
  - vm_compute; reflexivity.
  - repeat constructor.
  - cbn. lia.
  - split; [reflexivity|]. repeat constructor.
  - repeat constructor.
Defined.

Lemma invtransform_undoes_transform_witness :
  Grids.veq
    (RadialGrid.invtransform toy_numlib three_node_grid
       (RadialGrid.transform toy_numlib three_node_grid [0; 1; 2]))
    [0; 1; 2].
Proof.
  apply (invtransform_undoes_transform toy_numlib three_node_grid [0; 1; 2]).
  - intros u. reflexivity.
  - intros a b Hab. exact Hab.
  - cbn. discriminate.
Defined.

Lemma interpolate_at_the_grid_returns_the_data_witness :
  RadialGrid.LegendreRadialShiftExp_init toy_numlib 1 2 3
    = Ok three_node_grid /\
  exists out : bvec,
    RadialGrid.interpolate toy_numlib three_node_grid [[10; 20; 30]]
        (RadialGrid.rgrid three_node_grid) None
      = (Ok out, three_node_grid_used) /\
    Grids.beq out [[10; 20; 30]].
Proof.
  assert (H : RadialGrid.LegendreRadialShiftExp_init toy_numlib 1 2 3
              = Ok three_node_grid) by (vm_compute; reflexivity).
  split; [exact H|].
  apply (interpolate_at_the_grid_returns_the_data toy_numlib 1 2 3
           three_node_grid three_node_grid_used three_node_slopes
           [[10; 20; 30]] None H).
  - exact toy_leggauss_increasing.
  - intros u. reflexivity.
  - intros a b Hab. exact Hab.
  - cbn. discriminate.
  - lia.
  - vm_compute; reflexivity.
  - split; [reflexivity|]. repeat constructor.
  - repeat constructor.
Defined.

Lemma cubic_spline_of_a_constant_is_constant_witness :
  exists out : bvec,
    RadialGrid._cubic_spline exact_numlib three_node_grid [1 # 3; 2; 7]
        [0; 1; 2] [[5; 5; 5]; [5; 5; 5]]
      = (Ok out, three_node_grid_solved) /\
    length out = 2%nat /\
    Forall (fun row => length row = 3%nat /\ Forall (fun v => v == 5) row) out.
Proof.
  apply (cubic_spline_of_a_constant_is_constant exact_numlib three_node_grid
           three_node_grid_solved exact_slopes [1 # 3; 2; 7] 5 2).
  - repeat constructor.
  - cbn. lia.
  - vm_compute; reflexivity.
  - split; [reflexivity|]. repeat constructor.
  - intros A B HAB v Hv. vm_compute in HAB. injection HAB as <- <-.
    destruct v as [|v0 [|v1 [|v2 [|v3 v]]]]; try discriminate.
    unfold RadialGrid.mv, exact_slopes, dot, qsum.
    cbn [map zip_with fold_right].
    repeat constructor; ring.
Defined.

Lemma HamiltonAtomRadial_matrices_are_symmetric_witness :
  Forall (fun w => 0 < w) [1; 2] /\
  HatomRadial.HamiltonAtomRadial_init toy_hlib two_point_rgrid [1; 2] 1
    = Ok two_width_hamilton /\
  HatomRadial.shape two_width_hamilton = (2%nat, 2%nat) /\
  (exists m, HatomRadial.olp two_width_hamilton = [m] /\
             HatomRadial.symmetric_of_size 2 m /\
             Forall (Forall (fun x => 0 < x)) m).
Proof.
  assert (Hw : Forall (fun w => 0 < w) [1; 2])
    by (repeat constructor; reflexivity).
  assert (H : HatomRadial.HamiltonAtomRadial_init toy_hlib two_point_rgrid
                [1; 2] 1 = Ok two_width_hamilton) by (vm_compute; reflexivity).
  split; [exact Hw|]. split; [exact H|].
  destruct (HamiltonAtomRadial_matrices_are_symmetric toy_hlib
              (fun x Hx => Hx) (fun x p Hx => Hx) eq_refl
              two_point_rgrid [1; 2] 1 two_width_hamilton Hw H)
    as (Hshape & _ & _ & Holp & _).
  split; [exact Hshape|exact Holp].
Defined.

Lemma solve_poisson_of_a_nonnegative_source_witness :
  Grids.RadialShiftExp_init square_numeric 1 2 2 = Ok wide_two_point_grid /\
  exists pf : vec,
    Grids.solve_poisson wide_two_point_grid [[1; 2]] = Ok [pf] /\
    length pf = 2%nat /\
    Forall (fun v => v <= 0) pf /\
    forall i j : nat, (i <= j)%nat -> (j < 2)%nat ->
      nth i pf 0 <= nth j pf 0.
Proof.
  assert (H : Grids.RadialShiftExp_init square_numeric 1 2 2
              = Ok wide_two_point_grid) by (vm_compute; reflexivity).
  split; [exact H|].
  apply (solve_poisson_of_a_nonnegative_source square_numeric 1 2 2
           wide_two_point_grid [1; 2] H).
  - intros u. cbn [Grids.exp square_numeric]. nra.
  - cbn [Grids.log square_numeric]. lra.
  - reflexivity.
  - repeat constructor; lra.
Defined.

Lemma interpolate_beyond_the_grid_is_zero_witness :
  RadialGrid.LegendreRadialShiftExp_init toy_numlib 1 2 3
    = Ok three_node_grid /\
  exists (out : bvec) (largest : Q),
    RadialGrid.tensor_max (RadialGrid.rs three_node_grid) = Ok largest /\
    RadialGrid.interpolate toy_numlib three_node_grid [[10; 20; 30]]
        [[1]; [5]] None
      = (Ok out, three_node_grid_used) /\
    length out = 1%nat /\
    Forall (fun row => length row = 2%nat) out /\
    forall (j : nat) (p : vec),
      nth_error [[1]; [5]] j = Some p -> largest < hd 0 p ->
      Forall (fun row => nth j row 0 = 0) out.
Proof.
  assert (H : RadialGrid.LegendreRadialShiftExp_init toy_numlib 1 2 3
              = Ok three_node_grid) by (vm_compute; reflexivity).
  split; [exact H|].
  apply (interpolate_beyond_the_grid_is_zero toy_numlib 1 2 3
           three_node_grid three_node_grid_used three_node_slopes
           [[10; 20; 30]] [[1]; [5]] H).
  - exact toy_leggauss_increasing.
  - lia.
  - vm_compute; reflexivity.
  - split; [reflexivity|]. repeat constructor.
  - repeat constructor.
  - repeat constructor; discriminate.
Defined.

Lemma eks_store_built : EksObjects.built eks_store.
Proof.
  apply (EksObjects.built_leaf (firstn 3 eks_store) false (one_name "k")).
  apply (EksObjects.built_add (firstn 2 eks_store) _ 0 1 2); [|reflexivity].
  apply (EksObjects.built_leaf (firstn 1 eks_store) true (one_name "c")).
  apply (EksObjects.built_leaf [] false (one_name "x")).
  apply EksObjects.built_empty.
Qed.

Lemma set_hmodel_reaches_every_term_witness :
  EksObjects.built eks_store /\
  (2 < length eks_store)%nat /\ (2 < 3)%nat /\
  exists h' : EksObjects.heap,
    EksObjects.set_hmodel 3 eks_store 2 toy_hmodel = Some h' /\
    length h' = length eks_store /\
    forall (j : nat) (o : EksObjects.obj),
      EksObjects.lookup eks_store j = Some o ->
      exists o' : EksObjects.obj,
        EksObjects.lookup h' j = Some o' /\
        EksObjects.same_shape o o' /\
        (EksObjects.reaches eks_store 2 j ->
         EksObjects.grid o' = Ok (EksObjects.hmodel_grid toy_hmodel) /\
         EksObjects.hmodel o' = Ok toy_hmodel) /\
        (~ EksObjects.reaches eks_store 2 j -> o' = o).
Proof.
  assert (H1 : (2 < length eks_store)%nat) by (cbn; lia).
  assert (H2 : (2 < 3)%nat) by lia.
  split; [exact eks_store_built|]. split; [exact H1|]. split; [exact H2|].
  exact (set_hmodel_reaches_every_term eks_store 2 3 toy_hmodel
           eks_store_built H1 H2).
Defined.

Lemma set_grid_reaches_every_term_witness :
  EksObjects.built eks_store /\
  (2 < length eks_store)%nat /\ (2 < 3)%nat /\
  exists h' : EksObjects.heap,
    EksObjects.set_grid 3 eks_store 2 9 = Some h' /\
    length h' = length eks_store /\
    forall (j : nat) (o : EksObjects.obj),
      EksObjects.lookup eks_store j = Some o ->
      exists o' : EksObjects.obj,
        EksObjects.lookup h' j = Some o' /\
        EksObjects.same_shape o o' /\
        EksObjects.hmodel o' = EksObjects.hmodel o /\
        (EksObjects.reaches eks_store 2 j -> EksObjects.grid o' = Ok 9%nat) /\
        (~ EksObjects.reaches eks_store 2 j -> o' = o).
Proof.
  assert (H1 : (2 < length eks_store)%nat) by (cbn; lia).
  assert (H2 : (2 < 3)%nat) by lia.
  split; [exact eks_store_built|]. split; [exact H1|]. split; [exact H2|].
  exact (set_grid_reaches_every_term eks_store 2 3 9 eks_store_built H1 H2).
Defined.

Lemma need_gradn_is_that_of_the_terms_witness :
  EksObjects.built eks_store /\
  EksObjects.lookup eks_store 2 = Some (EksObjects.Sum None None 0 1 true) /\
  (EksObjects.need_gradn (EksObjects.Sum None None 0 1 true) = true <->
   exists (j : nat) g hm names,
     EksObjects.reaches eks_store 2 j /\
     EksObjects.lookup eks_store j = Some (EksObjects.Leaf g hm true names)).
Proof.
  split; [exact eks_store_built|]. split; [reflexivity|].
  exact (need_gradn_is_that_of_the_terms eks_store eks_store_built 2 _
           eq_refl).
Defined.

Lemma eks_sum_reaches_second_term : EksObjects.reaches eks_store 2 1.
Proof.
  apply (EksObjects.reaches_operand eks_store 2 1 1).
  - exists None, None, 0%nat, 1%nat, true. split; [reflexivity|now right].
  - apply EksObjects.reaches_self. cbn. lia.
Qed.

Lemma potential_linop_names_need_the_model_witness :
  EksObjects.built eks_store /\
  EksObjects.set_hmodel 3 eks_store 2 toy_hmodel = Some eks_store_with_model /\
  (2 < 3)%nat /\ EksObjects.reaches eks_store 2 1 /\ (1 < 2)%nat /\
  exists names : list string,
    EksObjects.getfwdparamnames 2 eks_store 1 "p." = Some names /\
    EksObjects.getparamnames 2 eks_store_with_model 1 "potential_linop" "p."
      = Some (Ok (names ++ EksObjects.hmodel_getparamnames toy_hmodel
                             "get_vext" ("p." ++ "hmodel."))) /\
    forall o : EksObjects.obj,
      EksObjects.lookup eks_store 1 = Some o ->
      EksObjects.hmodel o = Raise RuntimeError ->
      EksObjects.getparamnames 2 eks_store 1 "potential_linop" "p."
        = Some (Raise RuntimeError).
Proof.
  assert (Hset : EksObjects.set_hmodel 3 eks_store 2 toy_hmodel
                 = Some eks_store_with_model) by reflexivity.
  assert (H1 : (2 < 3)%nat) by lia.
  assert (H2 : (1 < 2)%nat) by lia.
  split; [exact eks_store_built|]. split; [exact Hset|]. split; [exact H1|].
  split; [exact eks_sum_reaches_second_term|]. split; [exact H2|].
  exact (potential_linop_names_need_the_model eks_store eks_store_with_model
           2 3 toy_hmodel eks_store_built Hset H1 1 2 "p."
           eks_sum_reaches_second_term H2).
Defined.

End FurtherInstances.
